(** * ServiceBook Pros backend: rate resolution, tiered pricing, job
      lifecycle and event fan-out

    A shallow embedding of the Express handlers of the phase 4 server
    (the [/pricebook/calculate], [/jobs], [/jobs/:id], [/jobs/:id/estimate],
    [/jobs/:id/invoice], [/invoices] and [/payments] routes, and the
    [broadcast] helper) together with the tables of [schema.sql] they touch.

    Every handler is an [async] function: it runs synchronously between two
    [await pool.query(...)] and is suspended at each of them.  A handler is
    therefore embedded as a finite tree ([prog]) whose nodes are the awaited
    SQL statements; the tree is run against a database either alone ([run])
    or interleaved with another handler at the await points ([interleave]).

    Beside this core the development covers the middleware
    ([authenticateToken], [authorizeRoles]) and the password helpers, the
    account routes under [/auth], the routes that create a version, delete an
    item or a job and enter a history row by hand ([routine], [carry_out]),
    and [parseCSVLine] and [getOrCreateCategory] of the import script. *)

From Stdlib Require Import ZArith Floats Uint63 Lia Bool.
From stdpp Require Import gmap strings list sorting pretty.

Set Warnings "-inexact-float".
Local Open Scope string_scope.
Local Open Scope list_scope.
Local Open Scope Z_scope.

(** ** JavaScript values *)

Module JS.

(** A field destructured from [req.body]: missing, JSON [null], or a value. *)
Inductive field (A : Type) : Type :=
| Undefined
| Null
| Val (a : A).
Arguments Undefined {A}.
Arguments Null {A}.
Arguments Val {A} a.

(** node-postgres sends both [undefined] and [null] as SQL [NULL]. *)
Definition to_sql {A} (x : field A) : option A :=
  match x with
  | Val a => Some a
  | _ => None
  end.

(** Truthiness of a string ([""] is falsy) and of an integer ([0] is falsy). *)
Definition truthy_string (s : string) : bool :=
  if decide (s = "") then false else true.

Definition truthy_Z (z : Z) : bool := negb (z =? 0).

Definition truthy_text (x : field string) : bool :=
  match x with
  | Val s => truthy_string s
  | _ => false
  end.

(** [a || b] where [a] is a nullable column value and [b] a nullable text. *)
Definition or_column (a b : option string) : option string :=
  match a with
  | Some s => if truthy_string s then Some s else b
  | None => b
  end.

(** [x || null] on a body field. *)
Definition or_null (x : field string) : option string :=
  match x with
  | Val s => if truthy_string s then Some s else None
  | _ => None
  end.

Definition or_null_Z (x : field Z) : option Z :=
  match x with
  | Val z => if truthy_Z z then Some z else None
  | _ => None
  end.

(** [x || b] on a body field with a nullable fallback. *)
Definition or_field (x : field string) (b : option string) : option string :=
  match x with
  | Val s => if truthy_string s then Some s else b
  | _ => b
  end.

(** [x || 'lit']. *)
Definition or_literal (x : option string) (lit : string) : string :=
  match x with
  | Some s => if truthy_string s then s else lit
  | None => lit
  end.

(** The result of a property read on the [markups] object literal: one of
    its own numbers, something inherited from [Object.prototype] (a
    function, or the prototype object itself for [__proto__]), or
    [undefined]. *)
Inductive value : Type :=
| VNum (f : float)
| VInherited
| VUndefined.

(** Names every object literal inherits from [Object.prototype]. *)
Definition object_prototype_keys : list string :=
  [ "constructor"; "__proto__"; "hasOwnProperty"; "isPrototypeOf";
    "propertyIsEnumerable"; "toLocaleString"; "toString"; "valueOf";
    "__defineGetter__"; "__defineSetter__"; "__lookupGetter__";
    "__lookupSetter__" ].

Definition get (o : gmap string float) (k : string) : value :=
  match o !! k with
  | Some f => VNum f
  | None => if decide (k ∈ object_prototype_keys) then VInherited else VUndefined
  end.

(** A number is falsy when it is [0], [-0] or [NaN]. *)
Definition truthy_number (f : float) : bool :=
  negb (PrimFloat.eqb f 0%float || PrimFloat.is_nan f).

Definition truthy (v : value) : bool :=
  match v with
  | VNum f => truthy_number f
  | VInherited => true
  | VUndefined => false
  end.

Definition or_value (a b : value) : value := if truthy a then a else b.

(** [ToNumber]: a function or a plain object converts to [NaN]. *)
Definition to_number (v : value) : float :=
  match v with
  | VNum f => f
  | _ => PrimFloat.nan
  end.

End JS.

Import JS.

(** ** Tables of [schema.sql]

    A table with a [SERIAL PRIMARY KEY] that is only read by key is a finite
    map from the key to the remaining columns; a row handed to JavaScript is
    the pair of the key and those columns.  [TIMESTAMP]s are integers, a
    [NUMERIC(_,2)] column holds its value in hundredths. *)

Abbreviation row A := (Z * A)%type (only parsing).

Record pricebook_item := {
  pi_name : string;
  pi_labour_rate : Z;
  pi_parts_cost : Z;
  pi_price_tier : option string }.

Record pricebook_item_version := {
  piv_id : Z;
  piv_item_id : Z;
  piv_effective_at : Z;
  piv_labour_rate : Z;
  piv_parts_cost : Z;
  piv_price_tier : option string }.

Record job := {
  customer_id : Z;
  technician_id : option Z;
  status : string;
  scheduled_time : option Z;
  start_time : option Z;
  end_time : option Z;
  notes : option string;
  created_at : Z;
  updated_at : Z }.

Record service_history_row := {
  sh_id : Z;
  sh_job_id : Z;
  sh_customer_id : Z;
  sh_performed_at : Z;
  sh_notes : option string }.

Record invoice := {
  inv_job_id : Z;
  inv_amount : Z;
  inv_status : string;
  inv_issued_at : Z;
  inv_due_at : option Z;
  inv_created_at : Z;
  inv_updated_at : Z }.

Record payment := {
  pay_id : Z;
  pay_invoice_id : Z;
  pay_amount : Z;
  pay_method : string;
  pay_paid_at : Z }.

Record db := {
  pricebook_items : gmap Z pricebook_item;
  pricebook_item_versions : list pricebook_item_version;
  jobs : gmap Z job;
  jobs_id_seq : Z;
  service_history : list service_history_row;
  service_history_id_seq : Z;
  invoices : gmap Z invoice;
  invoices_id_seq : Z;
  payments : list payment;
  payments_id_seq : Z }.

(** [CHECK] constraints of the schema. *)
Definition job_statuses : list string :=
  ["scheduled"; "in_progress"; "completed"; "cancelled"].

Definition invoice_statuses : list string :=
  ["draft"; "sent"; "paid"; "overdue"; "cancelled"].

Definition price_tiers : list string := ["good"; "better"; "best"].

Definition includes (l : list string) (s : string) : bool :=
  bool_decide (s ∈ l).

(** A nullable [price_tier] column passes its [CHECK] when it is [NULL] or
    one of the three tiers. *)
Definition price_tier_check (t : option string) : Prop :=
  match t with
  | Some s => s ∈ price_tiers
  | None => True
  end.

(** ** SQL statements issued by the handlers *)

(** [COALESCE($n, column)] for a nullable and for a [NOT NULL] column. *)
Definition COALESCE {A} (param column : option A) : option A :=
  match param with
  | Some _ => param
  | None => column
  end.

Definition COALESCE_not_null {A} (param : option A) (column : A) : A :=
  match param with
  | Some a => a
  | None => column
  end.

Record job_params := {
  jp_customer_id : option Z;
  jp_technician_id : option Z;
  jp_status : option string;
  jp_scheduled_time : option Z;
  jp_start_time : option Z;
  jp_end_time : option Z;
  jp_notes : option string }.

Inductive sql : Type -> Type :=
| SelectPricebookItem (id : Z) : sql (list (row pricebook_item))
| SelectLatestVersion (item_id : Z) : sql (list pricebook_item_version)
| SelectJob (id : Z) : sql (list (row job))
| InsertJob (customer : Z) (technician : option Z) (st : string)
    (scheduled : option Z) (nt : option string) : sql (list (row job))
| UpdateJob (params : job_params) (id : Z) : sql (list (row job))
| SelectServiceHistory (job_id : Z) : sql (list service_history_row)
| InsertServiceHistory (job_id customer : Z) (nt : option string) : sql unit
| InsertInvoice (job_id amount : Z) (st : string) (due : option Z)
    : sql (list (row invoice))
| InsertPayment (invoice_id amount : Z) (method : string) : sql (list payment).

(** A promise returned by [pool.query] resolves with the rows or rejects. *)
Inductive outcome (R : Type) : Type :=
| Resolved (r : R)
| Rejected.
Arguments Resolved {R} r.
Arguments Rejected {R}.

(** [ORDER BY effective_at DESC]: later versions first. *)
Definition later_first (a b : pricebook_item_version) : Prop :=
  piv_effective_at b <= piv_effective_at a.

#[global] Instance later_first_dec a b : Decision (later_first a b).
Proof. unfold later_first. apply _. Defined.

(** [WHERE item_id = $1 AND effective_at <= NOW()]. *)
Definition version_qualifies (item_id now : Z) (v : pricebook_item_version) : Prop :=
  piv_item_id v = item_id /\ piv_effective_at v <= now.

#[global] Instance version_qualifies_dec item_id now v :
  Decision (version_qualifies item_id now v).
Proof. unfold version_qualifies. apply _. Defined.

(** [ORDER BY effective_at DESC LIMIT 1] over the qualifying rows.  Among
    versions with the same [effective_at] PostgreSQL may return any; here
    the sort decides. *)
Definition select_latest_version (now : Z) (versions : list pricebook_item_version)
    (item_id : Z) : list pricebook_item_version :=
  take 1 (merge_sort later_first (filter (version_qualifies item_id now) versions)).

Definition select_by_key {A} (t : gmap Z A) (id : Z) : list (row A) :=
  match t !! id with
  | Some r => [(id, r)]
  | None => []
  end.

Definition select_service_history (h : list service_history_row) (job_id : Z)
    : list service_history_row :=
  filter (fun r => sh_job_id r = job_id) h.

Definition update_job_row (now : Z) (p : job_params) (j : job) : job :=
  {| customer_id := COALESCE_not_null (jp_customer_id p) (customer_id j);
     technician_id := COALESCE (jp_technician_id p) (technician_id j);
     status := COALESCE_not_null (jp_status p) (status j);
     scheduled_time := COALESCE (jp_scheduled_time p) (scheduled_time j);
     start_time := COALESCE (jp_start_time p) (start_time j);
     end_time := COALESCE (jp_end_time p) (end_time j);
     notes := COALESCE (jp_notes p) (notes j);
     created_at := created_at j;
     updated_at := now |}.

Definition set_jobs (d : db) (js : gmap Z job) (seq : Z) : db :=
  {| pricebook_items := pricebook_items d;
     pricebook_item_versions := pricebook_item_versions d;
     jobs := js; jobs_id_seq := seq;
     service_history := service_history d;
     service_history_id_seq := service_history_id_seq d;
     invoices := invoices d; invoices_id_seq := invoices_id_seq d;
     payments := payments d; payments_id_seq := payments_id_seq d |}.

Definition set_service_history (d : db) (h : list service_history_row) (seq : Z) : db :=
  {| pricebook_items := pricebook_items d;
     pricebook_item_versions := pricebook_item_versions d;
     jobs := jobs d; jobs_id_seq := jobs_id_seq d;
     service_history := h;
     service_history_id_seq := seq;
     invoices := invoices d; invoices_id_seq := invoices_id_seq d;
     payments := payments d; payments_id_seq := payments_id_seq d |}.

Definition set_invoices (d : db) (i : gmap Z invoice) (seq : Z) : db :=
  {| pricebook_items := pricebook_items d;
     pricebook_item_versions := pricebook_item_versions d;
     jobs := jobs d; jobs_id_seq := jobs_id_seq d;
     service_history := service_history d;
     service_history_id_seq := service_history_id_seq d;
     invoices := i; invoices_id_seq := seq;
     payments := payments d; payments_id_seq := payments_id_seq d |}.

Definition set_payments (d : db) (p : list payment) (seq : Z) : db :=
  {| pricebook_items := pricebook_items d;
     pricebook_item_versions := pricebook_item_versions d;
     jobs := jobs d; jobs_id_seq := jobs_id_seq d;
     service_history := service_history d;
     service_history_id_seq := service_history_id_seq d;
     invoices := invoices d; invoices_id_seq := invoices_id_seq d;
     payments := p; payments_id_seq := seq |}.

(** One statement against the tables at database time [now].  A statement
    that violates a modelled constraint (a [CHECK] on a status, the foreign
    key of [service_history], [invoices] or [payments]) is rejected and
    changes nothing; a rejected [INSERT] still consumes its sequence value
    in PostgreSQL, which no handler can observe here.  Left to the faults of
    the process, because [customers] and [users] are not among these tables
    and numbers are unbounded here: the foreign keys on [customer_id] and
    [technician_id], and the ranges of [INTEGER] and [NUMERIC].  An [INSERT]
    stores under the next value of the sequence, which is above every key in
    use as long as rows are only inserted this way. *)
Definition exec {R} (q : sql R) (now : Z) (d : db) : outcome R * db :=
  match q in sql R return outcome R * db with
  | SelectPricebookItem id =>
      (Resolved (select_by_key (pricebook_items d) id), d)
  | SelectLatestVersion item_id =>
      (Resolved (select_latest_version now (pricebook_item_versions d) item_id), d)
  | SelectJob id =>
      (Resolved (select_by_key (jobs d) id), d)
  | InsertJob customer technician st scheduled nt =>
      if includes job_statuses st then
        let id := jobs_id_seq d in
        let j := {| customer_id := customer; technician_id := technician;
                    status := st; scheduled_time := scheduled;
                    start_time := None; end_time := None; notes := nt;
                    created_at := now; updated_at := now |} in
        (Resolved [(id, j)], set_jobs d (<[id := j]> (jobs d)) (id + 1))
      else (Rejected, d)
  | UpdateJob params id =>
      match jobs d !! id with
      | Some j =>
          let j' := update_job_row now params j in
          if includes job_statuses (status j') then
            (Resolved [(id, j')], set_jobs d (<[id := j']> (jobs d)) (jobs_id_seq d))
          else (Rejected, d)
      | None => (Resolved [], d)
      end
  | SelectServiceHistory job_id =>
      (Resolved (select_service_history (service_history d) job_id), d)
  | InsertServiceHistory job_id customer nt =>
      match jobs d !! job_id with
      | Some _ =>
          let id := service_history_id_seq d in
          let r := {| sh_id := id; sh_job_id := job_id; sh_customer_id := customer;
                      sh_performed_at := now; sh_notes := nt |} in
          (Resolved tt, set_service_history d (service_history d ++ [r]) (id + 1))
      | None => (Rejected, d)
      end
  | InsertInvoice job_id amount st due =>
      match jobs d !! job_id with
      | Some _ =>
          if includes invoice_statuses st then
            let id := invoices_id_seq d in
            let i := {| inv_job_id := job_id; inv_amount := amount; inv_status := st;
                        inv_issued_at := now; inv_due_at := due;
                        inv_created_at := now; inv_updated_at := now |} in
            (Resolved [(id, i)], set_invoices d (<[id := i]> (invoices d)) (id + 1))
          else (Rejected, d)
      | None => (Rejected, d)
      end
  | InsertPayment invoice_id amount method =>
      match invoices d !! invoice_id with
      | Some _ =>
          let id := payments_id_seq d in
          let p := {| pay_id := id; pay_invoice_id := invoice_id; pay_amount := amount;
                      pay_method := method; pay_paid_at := now |} in
          (Resolved [p], set_payments d (payments d ++ [p]) (id + 1))
      | None => (Rejected, d)
      end
  end.

(** ** Responses, WebSocket messages and the process state *)

Record priced_line := {
  pl_item_id : Z;
  pl_name : string;
  pl_quantity : float;
  pl_unit_price : float;
  pl_markup_factor : value;
  pl_total_price : float }.

Record estimate_line := {
  el_item_id : Z;
  el_name : string;
  el_quantity : float;
  el_unit_price : float;
  el_total_price : float }.

(** What is handed to [res.json]; [rows[0]] of an empty result is
    [undefined], here [None]. *)
Inductive body : Type :=
| BError (error : string)
| BJob (j : option (row job))
| BPricing (total_amount : float) (items : list priced_line)
| BEstimate (job_id : Z) (total_amount : float) (items : list estimate_line)
| BInvoice (i : option (row invoice))
| BPayment (p : option payment).

Record response := { res_status : Z; res_body : body }.

(** The object literal passed to [broadcast]. *)
Inductive data : Type :=
| DString (s : string)
| DJob (j : option (row job))
| DInvoice (i : option (row invoice))
| DPayment (p : option payment).

Definition message : Type := list (string * data).

Definition is_undefined (v : data) : bool :=
  match v with
  | DJob None | DInvoice None | DPayment None => true
  | _ => false
  end.

(** [JSON.stringify] leaves out the properties whose value is [undefined]. *)
Definition JSON_stringify (m : message) : message :=
  filter (fun kv => is_undefined kv.2 = false) m.

Inductive ready_state : Type := CONNECTING | OPEN | CLOSING | CLOSED.

#[global] Instance ready_state_eq_dec : EqDecision ready_state.
Proof. solve_decision. Defined.

Record client := { readyState : ready_state; received : list message }.

Definition send (m : message) (c : client) : client :=
  {| readyState := readyState c; received := received c ++ [m] |}.

(** [broadcast(data)] on the server object [wss] ([None] before it is
    initialised). *)
Definition broadcast (d : message) (wss : option (list client)) : option (list client) :=
  match wss with
  | None => None
  | Some clients =>
      let m := JSON_stringify d in
      Some (map (fun c => if decide (readyState c = OPEN) then send m c else c) clients)
  end.

(** The connection callback: the new socket is sent the welcome message. *)
Definition welcome : message :=
  [("type", DString "welcome");
   ("message", DString "Connected to ServiceBook real‑time updates")].

Definition on_connection (wss : option (list client)) : option (list client) :=
  match wss with
  | None => None
  | Some clients =>
      Some (clients ++ [send (JSON_stringify welcome) {| readyState := OPEN; received := [] |}])
  end.

(** The process and its collaborators: the database and its clock, the
    rejections the database will answer with for reasons outside the
    modelled tables (one flag per statement to come, none when the list is
    exhausted), the console and the WebSocket server. *)
Record world := {
  database : db;
  now : Z;
  faults : list bool;
  console : list string;
  wss : option (list client) }.

(** ** Handlers as trees of awaited statements *)

Inductive action : Type :=
| ConsoleError (line : string)
| Respond (r : response)
| Broadcast (m : message).

Inductive prog (A : Type) : Type :=
| Ret (a : A)
| Throw
| Do (a : action) (k : prog A)
| Await {R : Type} (q : sql R) (k : outcome R -> prog A).
Arguments Ret {A} a.
Arguments Throw {A}.
Arguments Do {A} a k.
Arguments Await {A R} q k.

Fixpoint bind {A B} (p : prog A) (f : A -> prog B) : prog B :=
  match p with
  | Ret a => f a
  | Throw => Throw
  | Do a k => Do a (bind k f)
  | Await q k => Await q (fun o => bind (k o) f)
  end.

#[global] Instance prog_ret : MRet prog := @Ret.
#[global] Instance prog_bind : MBind prog := fun A B f p => bind p f.

(** [try { p } catch (err) { h }]. *)
Fixpoint try_catch {A} (p : prog A) (h : prog A) : prog A :=
  match p with
  | Ret a => Ret a
  | Throw => h
  | Do a k => Do a (try_catch k h)
  | Await q k => Await q (fun o => try_catch (k o) h)
  end.

(** [await pool.query(...)]: a rejection is thrown at the await. *)
Definition await {R} (q : sql R) : prog R :=
  Await q (fun o => match o with Resolved r => Ret r | Rejected => Throw end).

Definition console_error (line : string) : prog unit := Do (ConsoleError line) (Ret tt).

(** [res.status(s).json(b)]. *)
Definition res_json (s : Z) (b : body) : prog unit :=
  Do (Respond {| res_status := s; res_body := b |}) (Ret tt).

Definition do_broadcast (m : message) : prog unit := Do (Broadcast m) (Ret tt).

(** The [catch (err)] block every handler ends with. *)
Definition internal_error : prog unit :=
  Do (ConsoleError "err") (res_json 500 (BError "Internal server error")).

(** ** Running a handler *)

Definition set_database (w : world) (d : db) (fs : list bool) : world :=
  {| database := d; now := now w; faults := fs; console := console w; wss := wss w |}.

Definition perform (a : action) (w : world) (sent : list response) : world * list response :=
  match a with
  | ConsoleError line =>
      ({| database := database w; now := now w; faults := faults w;
          console := console w ++ [line]; wss := wss w |}, sent)
  | Respond r => (w, sent ++ [r])
  | Broadcast m =>
      ({| database := database w; now := now w; faults := faults w;
          console := console w; wss := broadcast m (wss w) |}, sent)
  end.

(** The database answers one statement. *)
Definition query {R} (q : sql R) (w : world) : outcome R * world :=
  match faults w with
  | true :: fs => (Rejected, set_database w (database w) fs)
  | false :: fs =>
      let '(o, d) := exec q (now w) (database w) in (o, set_database w d fs)
  | [] =>
      let '(o, d) := exec q (now w) (database w) in (o, set_database w d [])
  end.

(** The handler alone, from its first statement to its end: the final
    process state, the responses written to [res] and the value returned
    ([None] for an uncaught exception). *)
Fixpoint run {A} (p : prog A) (w : world) (sent : list response)
    : world * list response * option A :=
  match p with
  | Ret a => (w, sent, Some a)
  | Throw => (w, sent, None)
  | Do a k => let '(w', sent') := perform a w sent in run k w' sent'
  | Await q k => let '(o, w') := query q w in run (k o) w' sent
  end.

(** ** [POST /pricebook/calculate] *)

(** The driver returns a [NUMERIC] column as its decimal text and
    [parseFloat] rounds that decimal to the nearest binary64.  For a column
    holding [n] hundredths ([|n|] below [10^10] for [NUMERIC(10,2)]) this is
    the correctly rounded quotient of the exactly representable [|n|] by
    [100]. *)
Definition parseFloat (n : Z) : float :=
  let q := PrimFloat.div (PrimFloat.of_uint63 (Uint63.of_Z (Z.abs n))) 100%float in
  if n <? 0 then PrimFloat.opp q else q.

Definition markups : gmap string float :=
  {[ "good" := 1.0%float; "better" := 1.15%float; "best" := 1.25%float ]}.

Record line := {
  item_id : field Z;
  quantity : field float;
  price_tier : field string }.

(** [!item_id || quantity == null] fails, and the two values are then at
    hand. *)
Definition line_fields (entry : line) : option (Z * float) :=
  match item_id entry, quantity entry with
  | Val id, Val q => if truthy_Z id then Some (id, q) else None
  | _, _ => None
  end.

(** The base item overridden by the version row, when there is one. *)
Definition current_rate (pbItem : pricebook_item) (versionRes : list pricebook_item_version)
    : Z * Z * option string :=
  match versionRes with
  | version :: _ =>
      (piv_labour_rate version, piv_parts_cost version,
       or_column (piv_price_tier version) (pi_price_tier pbItem))
  | [] => (pi_labour_rate pbItem, pi_parts_cost pbItem, pi_price_tier pbItem)
  end.

Definition price_entry (id : Z) (q : float) (tier : field string)
    (pbItem : pricebook_item) (versionRes : list pricebook_item_version) : priced_line :=
  let '(labourRate, partsCost, defaultTier) := current_rate pbItem versionRes in
  let selectedTier := or_literal (or_field tier defaultTier) "good" in
  let markupFactor := or_value (get markups selectedTier) (VNum 1.0%float) in
  let baseUnit := PrimFloat.add (parseFloat labourRate) (parseFloat partsCost) in
  let unitPrice := PrimFloat.mul baseUnit (to_number markupFactor) in
  let lineTotal := PrimFloat.mul unitPrice q in
  {| pl_item_id := id; pl_name := pi_name pbItem; pl_quantity := q;
     pl_unit_price := unitPrice; pl_markup_factor := markupFactor;
     pl_total_price := lineTotal |}.

Definition item_not_found (id : Z) : string :=
  "Pricebook item " +:+ pretty id +:+ " not found".

Fixpoint calculate_loop (items : list line) (total : float) (breakdown : list priced_line)
    : prog unit :=
  match items with
  | [] => res_json 200 (BPricing total breakdown)
  | entry :: rest =>
      match line_fields entry with
      | None => res_json 400 (BError "Each item must include item_id and quantity")
      | Some (id, q) =>
          itemRes ← await (SelectPricebookItem id);
          match itemRes with
          | [] => res_json 400 (BError (item_not_found id))
          | (_, pbItem) :: _ =>
              versionRes ← await (SelectLatestVersion id);
              let l := price_entry id q (price_tier entry) pbItem versionRes in
              calculate_loop rest (PrimFloat.add total (pl_total_price l)) (breakdown ++ [l])
          end
      end
  end.

(** [items] is [None] when the body's [items] is not an array. *)
Definition post_pricebook_calculate (items : option (list line)) : prog unit :=
  match items with
  | Some (entry :: rest) => try_catch (calculate_loop (entry :: rest) 0%float []) internal_error
  | _ => res_json 400 (BError "items array is required")
  end.

(** ** [POST /jobs/:id/estimate] *)

Definition estimate_entry (id : Z) (q : float) (pbItem : pricebook_item) : estimate_line :=
  let unitPrice := PrimFloat.add (parseFloat (pi_labour_rate pbItem))
                                 (parseFloat (pi_parts_cost pbItem)) in
  let lineTotal := PrimFloat.mul unitPrice q in
  {| el_item_id := id; el_name := pi_name pbItem; el_quantity := q;
     el_unit_price := unitPrice; el_total_price := lineTotal |}.

Fixpoint estimate_loop (job_id : Z) (items : list line) (total : float)
    (breakdown : list estimate_line) : prog unit :=
  match items with
  | [] => res_json 200 (BEstimate job_id total breakdown)
  | item :: rest =>
      match line_fields item with
      | None => res_json 400 (BError "Each item must include item_id and quantity")
      | Some (id, q) =>
          itemRes ← await (SelectPricebookItem id);
          match itemRes with
          | [] => res_json 400 (BError (item_not_found id))
          | (_, pbItem) :: _ =>
              let l := estimate_entry id q pbItem in
              estimate_loop job_id rest (PrimFloat.add total (el_total_price l))
                (breakdown ++ [l])
          end
      end
  end.

Definition post_jobs_id_estimate (id : Z) (items : option (list line)) : prog unit :=
  match items with
  | Some (item :: rest) =>
      try_catch
        (jobRes ← await (SelectJob id);
         match jobRes with
         | [] => res_json 404 (BError "Job not found")
         | _ :: _ => estimate_loop id (item :: rest) 0%float []
         end)
        internal_error
  | _ => res_json 400 (BError "items array is required")
  end.

(** ** [PUT /jobs/:id] *)

Record job_patch := {
  p_customer_id : field Z;
  p_technician_id : field Z;
  p_status : field string;
  p_scheduled_time : field Z;
  p_start_time : field Z;
  p_end_time : field Z;
  p_notes : field string }.

(** The parameter array [[customer_id, ..., notes]] as the driver sends it. *)
Definition update_params (b : job_patch) : job_params :=
  {| jp_customer_id := to_sql (p_customer_id b);
     jp_technician_id := to_sql (p_technician_id b);
     jp_status := to_sql (p_status b);
     jp_scheduled_time := to_sql (p_scheduled_time b);
     jp_start_time := to_sql (p_start_time b);
     jp_end_time := to_sql (p_end_time b);
     jp_notes := to_sql (p_notes b) |}.

(** [x === 'lit'] on a body field. *)
Definition strict_eq (x : field string) (lit : string) : bool :=
  match x with
  | Val s => bool_decide (s = lit)
  | _ => false
  end.

(** [status && status === 'completed' && prevStatus !== 'completed']. *)
Definition becomes_completed (st : field string) (prevStatus : string) : bool :=
  truthy_text st && strict_eq st "completed" && negb (bool_decide (prevStatus = "completed")).

Definition history_failure : string := "Failed to record service history:".

(** The inner [try] block: check, then insert.  Reading
    [updatedJob.customer_id] of an [undefined] row throws. *)
Definition record_service_history (id : Z) (updatedJob : option (row job))
    (nt : field string) : prog unit :=
  try_catch
    (existingHistory ← await (SelectServiceHistory id);
     match existingHistory with
     | [] =>
         match updatedJob with
         | Some (_, j) => await (InsertServiceHistory id (customer_id j) (or_null nt))
         | None => Throw
         end
     | _ :: _ => Ret tt
     end)
    (console_error history_failure).

Definition job_updated (j : option (row job)) : message :=
  [("type", DString "job.updated"); ("job", DJob j)].

Definition put_jobs_id (id : Z) (b : job_patch) : prog unit :=
  try_catch
    (existingJob ← await (SelectJob id);
     match existingJob with
     | [] => res_json 404 (BError "Job not found")
     | (_, existing) :: _ =>
         let prevStatus := status existing in
         result ← await (UpdateJob (update_params b) id);
         let updatedJob := head result in
         _ ← (if becomes_completed (p_status b) prevStatus
              then record_service_history id updatedJob (p_notes b)
              else Ret tt);
         _ ← res_json 200 (BJob updatedJob);
         do_broadcast (job_updated updatedJob)
     end)
    internal_error.

(** ** [POST /jobs], [POST /jobs/:id/invoice], [POST /invoices], [POST /payments] *)

(** [x || null] on a timestamp: every timestamp text is non-empty. *)
Definition or_null_timestamp (x : field Z) : option Z := to_sql x.

Record new_job := {
  nj_customer_id : field Z;
  nj_technician_id : field Z;
  nj_status : field string;
  nj_scheduled_time : field Z;
  nj_notes : field string }.

Definition job_created (j : option (row job)) : message :=
  [("type", DString "job.created"); ("job", DJob j)].

Definition post_jobs (b : new_job) : prog unit :=
  match nj_customer_id b, nj_status b with
  | Val customer, Val st =>
      if truthy_Z customer && truthy_string st then
        if includes job_statuses st then
          try_catch
            (result ← await (InsertJob customer (or_null_Z (nj_technician_id b)) st
                               (or_null_timestamp (nj_scheduled_time b))
                               (or_null (nj_notes b)));
             _ ← res_json 201 (BJob (head result));
             do_broadcast (job_created (head result)))
            internal_error
        else res_json 400 (BError "Invalid status")
      else res_json 400 (BError "customer_id and status are required")
  | _, _ => res_json 400 (BError "customer_id and status are required")
  end.

Definition invoice_created (i : option (row invoice)) : message :=
  [("type", DString "invoice.created"); ("invoice", DInvoice i)].

Definition post_jobs_id_invoice (id : Z) (amount : field Z) (st : field string)
    (due_at : field Z) : prog unit :=
  match amount with
  | Val amt =>
      let invoiceStatus := or_literal (to_sql st) "draft" in
      if includes invoice_statuses invoiceStatus then
        try_catch
          (jobRes ← await (SelectJob id);
           match jobRes with
           | [] => res_json 404 (BError "Job not found")
           | _ :: _ =>
               result ← await (InsertInvoice id amt invoiceStatus (or_null_timestamp due_at));
               let invoice := head result in
               _ ← res_json 201 (BInvoice invoice);
               do_broadcast (invoice_created invoice)
           end)
          internal_error
      else res_json 400 (BError "Invalid invoice status")
  | _ => res_json 400 (BError "amount is required")
  end.

Definition post_invoices (job_id amount : field Z) (st : field string)
    (due_at : field Z) : prog unit :=
  match job_id, amount, st with
  | Val jid, Val amt, Val s =>
      if truthy_Z jid && truthy_string s then
        if includes invoice_statuses s then
          try_catch
            (result ← await (InsertInvoice jid amt s (or_null_timestamp due_at));
             let invoice := head result in
             _ ← res_json 201 (BInvoice invoice);
             do_broadcast (invoice_created invoice))
            internal_error
        else res_json 400 (BError "Invalid status")
      else res_json 400 (BError "job_id, amount and status are required")
  | _, _, _ => res_json 400 (BError "job_id, amount and status are required")
  end.

Definition payment_created (p : option payment) : message :=
  [("type", DString "payment.created"); ("payment", DPayment p)].

Definition post_payments (invoice_id amount : field Z) (method : field string) : prog unit :=
  match invoice_id, amount, method with
  | Val iid, Val amt, Val m =>
      if truthy_Z iid && truthy_string m then
        try_catch
          (result ← await (InsertPayment iid amt m);
           let payment := head result in
           _ ← res_json 201 (BPayment payment);
           do_broadcast (payment_created payment))
          internal_error
      else res_json 400 (BError "invoice_id, amount and method are required")
  | _, _, _ => res_json 400 (BError "invoice_id, amount and method are required")
  end.

(** The routes that end in a [broadcast]. *)
Inductive request : Type :=
| PostJobs (b : new_job)
| PutJobsId (id : Z) (b : job_patch)
| PostJobsIdInvoice (id : Z) (amount : field Z) (st : field string) (due_at : field Z)
| PostInvoices (job_id amount : field Z) (st : field string) (due_at : field Z)
| PostPayments (invoice_id amount : field Z) (method : field string).

Definition handle (r : request) : prog unit :=
  match r with
  | PostJobs b => post_jobs b
  | PutJobsId id b => put_jobs_id id b
  | PostJobsIdInvoice id amount st due_at => post_jobs_id_invoice id amount st due_at
  | PostInvoices job_id amount st due_at => post_invoices job_id amount st due_at
  | PostPayments invoice_id amount method => post_payments invoice_id amount method
  end.

(** ** Two handlers in flight

    Node runs one handler at a time and switches only at an [await]: the
    database answers the pending statement of one handler, which then runs
    on to its next [await] or to its end. *)

Fixpoint settle {A} (p : prog A) (w : world) (sent : list response)
    : world * list response * prog A :=
  match p with
  | Do a k => let '(w', sent') := perform a w sent in settle k w' sent'
  | _ => (w, sent, p)
  end.

Definition resume {A} (p : prog A) (w : world) (sent : list response)
    : world * list response * prog A :=
  match p with
  | Await q k => let '(o, w') := query q w in settle (k o) w' sent
  | _ => settle p w sent
  end.

Record task := { code : prog unit; res : list response }.

Definition spawn (p : prog unit) : task := {| code := p; res := [] |}.

Definition finished (t : task) : bool :=
  match code t with
  | Ret _ | Throw => true
  | _ => false
  end.

Inductive turn : Type := First | Second.

Fixpoint interleave (schedule : list turn) (a b : task) (w : world) : world * task * task :=
  match schedule with
  | [] => (w, a, b)
  | First :: s =>
      let '(w', sent, p) := resume (code a) w (res a) in
      interleave s {| code := p; res := sent |} b w'
  | Second :: s =>
      let '(w', sent, p) := resume (code b) w (res b) in
      interleave s a {| code := p; res := sent |} w'
  end.

(** ** The operations as the specification words them *)

(** The fixed markup table, any other tier mapping to [1.0]. *)
Definition spec_markup (tier : string) : float :=
  if decide (tier = "good") then 1.0%float
  else if decide (tier = "better") then 1.15%float
  else if decide (tier = "best") then 1.25%float
  else 1.0%float.

(** A tier is given when it is there and not the empty text. *)
Definition given (t : option string) : option string :=
  match t with
  | Some s => if decide (s = "") then None else Some s
  | None => None
  end.

(** Effective tier: the line's, else the resolved one, else ["good"]. *)
Definition spec_tier (line_tier resolved_tier : option string) : string :=
  match given line_tier with
  | Some t => t
  | None =>
      match given resolved_tier with
      | Some t => t
      | None => "good"
      end
  end.

(** One priced line, for a line that names an existing item. *)
Definition spec_priced_line (d : db) (now : Z) (entry : line) : option priced_line :=
  match line_fields entry with
  | Some (id, q) =>
      match pricebook_items d !! id with
      | Some pbItem =>
          let '(labourRate, partsCost, tier) :=
            current_rate pbItem (select_latest_version now (pricebook_item_versions d) id) in
          let markupFactor := spec_markup (spec_tier (to_sql (price_tier entry)) tier) in
          let unitPrice :=
            PrimFloat.mul (PrimFloat.add (parseFloat labourRate) (parseFloat partsCost))
                          markupFactor in
          Some {| pl_item_id := id; pl_name := pi_name pbItem; pl_quantity := q;
                  pl_unit_price := unitPrice; pl_markup_factor := VNum markupFactor;
                  pl_total_price := PrimFloat.mul unitPrice q |}
      | None => None
      end
  | None => None
  end.

(** The tier a line ends up with is not a name inherited from
    [Object.prototype]. *)
Definition plain_tier (d : db) (now : Z) (entry : line) : Prop :=
  match line_fields entry with
  | Some (id, _) =>
      match pricebook_items d !! id with
      | Some pbItem =>
          spec_tier (to_sql (price_tier entry))
            (current_rate pbItem
               (select_latest_version now (pricebook_item_versions d) id)).2
          ∉ object_prototype_keys
      | None => True
      end
  | None => True
  end.

(** [total += lineTotal] over the lines in order, from [0]. *)
Definition sum_totals (ls : list priced_line) : float :=
  fold_left (fun total l => PrimFloat.add total (pl_total_price l)) ls 0%float.


(** A line whose [item_id] names no row of [pricebook_items]. *)
Definition dangling (d : db) (entry : line) : Prop :=
  exists id q, line_fields entry = Some (id, q) /\ pricebook_items d !! id = None.

(** Number of [service_history] rows of a job. *)
Definition history_count (d : db) (job_id : Z) : nat :=
  length (select_service_history (service_history d) job_id).

(** ** Sample data *)

Definition drain_cleaning : pricebook_item :=
  {| pi_name := "Drain cleaning"; pi_labour_rate := 6000; pi_parts_cost := 4000;
     pi_price_tier := Some "better" |}.

Definition scheduled_job : job :=
  {| customer_id := 7; technician_id := None; status := "scheduled";
     scheduled_time := Some 50; start_time := None; end_time := None;
     notes := Some "bring ladder"; created_at := 1; updated_at := 1 |}.

Definition sample_db : db :=
  {| pricebook_items := {[ 1 := drain_cleaning ]};
     pricebook_item_versions := [];
     jobs := {[ 1 := scheduled_job ]}; jobs_id_seq := 2;
     service_history := []; service_history_id_seq := 1;
     invoices := ∅; invoices_id_seq := 1;
     payments := []; payments_id_seq := 1 |}.

Definition rate_2024 : pricebook_item_version :=
  {| piv_id := 1; piv_item_id := 1; piv_effective_at := 10;
     piv_labour_rate := 7000; piv_parts_cost := 4000; piv_price_tier := None |}.

Definition rate_2025 : pricebook_item_version :=
  {| piv_id := 2; piv_item_id := 1; piv_effective_at := 20;
     piv_labour_rate := 8000; piv_parts_cost := 4500; piv_price_tier := Some "best" |}.

Definition versioned_db : db :=
  {| pricebook_items := {[ 1 := drain_cleaning ]};
     pricebook_item_versions := [rate_2024; rate_2025];
     jobs := {[ 1 := scheduled_job ]}; jobs_id_seq := 2;
     service_history := []; service_history_id_seq := 1;
     invoices := ∅; invoices_id_seq := 1;
     payments := []; payments_id_seq := 1 |}.

Definition at_time (d : db) (t : Z) : world :=
  {| database := d; now := t; faults := []; console := []; wss := Some [] |}.

Definition two_drains : line :=
  {| item_id := Val 1; quantity := Val 2%float; price_tier := Undefined |}.

Definition complete : job_patch :=
  {| p_customer_id := Undefined; p_technician_id := Undefined;
     p_status := Val "completed"; p_scheduled_time := Undefined;
     p_start_time := Undefined; p_end_time := Undefined; p_notes := Val "done" |}.

#[global] Instance plain_tier_dec d now entry : Decision (plain_tier d now entry).
Proof. unfold plain_tier. repeat case_match; apply _. Defined.

Definition two_drains_priced : priced_line :=
  {| pl_item_id := 1; pl_name := "Drain cleaning"; pl_quantity := 2%float;
     pl_unit_price := 114.99999999999999%float;
     pl_markup_factor := VNum 1.15%float;
     pl_total_price := 229.99999999999997%float |}.

Definition missing_item : line :=
  {| item_id := Val 999; quantity := Val 1%float; price_tier := Undefined |}.

(** Two process states with the same catalog and the same database faults,
    whose clocks stand on the same side of every version's [effective_at]. *)
Definition same_catalog (w1 w2 : world) : Prop :=
  pricebook_items (database w1) = pricebook_items (database w2)
  /\ pricebook_item_versions (database w1) = pricebook_item_versions (database w2)
  /\ faults w1 = faults w2
  /\ forall v, v ∈ pricebook_item_versions (database w1) ->
       (piv_effective_at v <= now w1 <-> piv_effective_at v <= now w2).

(** Two process states with the same items and the same database faults
    that agree on whether job [id] exists. *)
Definition same_items (id : Z) (w1 w2 : world) : Prop :=
  pricebook_items (database w1) = pricebook_items (database w2)
  /\ faults w1 = faults w2
  /\ (jobs (database w1) !! id = None <-> jobs (database w2) !! id = None).

(** The handlers only look at whether the job row is there. *)
Definition alike {A} (o1 o2 : outcome (list A)) : Prop :=
  match o1, o2 with
  | Rejected, Rejected => True
  | Resolved [], Resolved [] => True
  | Resolved (_ :: _), Resolved (_ :: _) => True
  | _, _ => False
  end.

(** The responses a handler writes when run alone. *)
Definition responses (p : prog unit) (w : world) : list response := (run p w []).1.2.

(** ** The completion rule of [PUT /jobs/:id], spelled out *)

(** The row the handler inserts for job [id], updated to [j'], at [now]. *)
Definition completion_record (d : db) (now id : Z) (j' : job) (nt : field string)
    : service_history_row :=
  {| sh_id := service_history_id_seq d; sh_job_id := id;
     sh_customer_id := customer_id j'; sh_performed_at := now;
     sh_notes := or_null nt |}.

(** The tables after a healthy [PUT /jobs/:id] on the existing job [j]. *)
Definition tables_after_put (d : db) (now id : Z) (b : job_patch) (j : job) : db :=
  let j' := update_job_row now (update_params b) j in
  let d1 := set_jobs d (<[id := j']> (jobs d)) (jobs_id_seq d) in
  if becomes_completed (p_status b) (status j) then
    match select_service_history (service_history d) id with
    | [] => set_service_history d1
              (service_history d ++ [completion_record d now id j' (p_notes b)])
              (service_history_id_seq d + 1)
    | _ :: _ => d1
    end
  else d1.

(** One [PUT /jobs/:id] after another, each at its own time and with its
    own database faults. *)
Record call := {
  c_id : Z;
  c_patch : job_patch;
  c_now : Z;
  c_faults : list bool }.

Definition serve (w : world) (c : call) : world :=
  (run (put_jobs_id (c_id c) (c_patch c))
       {| database := database w; now := c_now c; faults := c_faults c;
          console := console w; wss := wss w |} []).1.1.

Definition serve_all (w : world) (calls : list call) : world := fold_left serve calls w.

Definition reopen : job_patch :=
  {| p_customer_id := Undefined; p_technician_id := Undefined;
     p_status := Val "in_progress"; p_scheduled_time := Undefined;
     p_start_time := Undefined; p_end_time := Undefined; p_notes := Undefined |}.

(** A patch in which every JSON [null] is left out instead. *)
Definition omit_null {A} (x : field A) : field A :=
  match x with
  | Null => Undefined
  | _ => x
  end.

Definition omit_nulls (b : job_patch) : job_patch :=
  {| p_customer_id := omit_null (p_customer_id b);
     p_technician_id := omit_null (p_technician_id b);
     p_status := omit_null (p_status b);
     p_scheduled_time := omit_null (p_scheduled_time b);
     p_start_time := omit_null (p_start_time b);
     p_end_time := omit_null (p_end_time b);
     p_notes := omit_null (p_notes b) |}.

(** A field is absent from a patch when it is missing or [null]. *)
Definition absent {A} (x : field A) : Prop := to_sql x = None.

Definition clear_notes : job_patch :=
  {| p_customer_id := Undefined; p_technician_id := Null;
     p_status := Undefined; p_scheduled_time := Null;
     p_start_time := Undefined; p_end_time := Undefined; p_notes := Null |}.

(** A database that rejects the fourth statement it is sent. *)
Definition history_insert_rejected : world :=
  {| database := sample_db; now := 100; faults := [false; false; false; true];
     console := []; wss := Some [] |}.

(** ** Events *)


(** The four events the handlers broadcast: the type and, under the key
    named after its table, the row just written. *)
Definition domain_event (m : message) : Prop :=
  (exists j, m = [("type", DString "job.created"); ("job", DJob (Some j))])
  \/ (exists j, m = [("type", DString "job.updated"); ("job", DJob (Some j))])
  \/ (exists i, m = [("type", DString "invoice.created"); ("invoice", DInvoice (Some i))])
  \/ (exists p, m = [("type", DString "payment.created"); ("payment", DPayment (Some p))]).

(** [client.send(message)] on the open sockets. *)
Definition deliver (m : message) (clients : list client) : list client :=
  map (fun c => if decide (readyState c = OPEN) then send m c else c) clients.

(** The process with one observer connected. *)
Definition observed : world :=
  {| database := sample_db; now := 100; faults := []; console := [];
     wss := on_connection (Some []) |}.

(** ** Two completions of one job in flight *)

(** All orders in which the database can answer [a] statements of the
    first handler and [b] of the second ([n] is [a + b]). *)
Fixpoint schedules (n a b : nat) : list (list turn) :=
  match n with
  | O => [[]]
  | S n' =>
      (match a with
       | O => []
       | S a' => map (cons First) (schedules n' a' b)
       end)
      ++ (match b with
          | O => []
          | S b' => map (cons Second) (schedules n' a b')
          end)
  end.

(** Both handlers check for a history row before either inserts one. *)
Definition alternate : list turn :=
  [First; Second; First; Second; First; Second; First; Second].

(** The second handler starts after the first has ended. *)
Definition one_after_the_other : list turn :=
  [First; First; First; First; Second; Second; Second; Second].

(** Two [PUT /jobs/1] with status "completed" on the scheduled job of
    [sample_db], answered in the order [s]. *)
Definition race (s : list turn) : world * task * task :=
  interleave s (spawn (put_jobs_id 1 complete)) (spawn (put_jobs_id 1 complete))
    (at_time sample_db 100).

Definition succeeded (t : task) : bool :=
  finished t && bool_decide (res_status <$> res t = [200]).

Definition rows_of_job_1 (s : list turn) : nat := history_count (database (race s).1.1) 1.

Definition both_succeeded (s : list turn) : bool :=
  succeeded (race s).1.2 && succeeded (race s).2.

(** [n] turns of one handler while the other waits. *)
Fixpoint turns {A} (n : nat) (p : prog A) (w : world) (sent : list response)
    : world * list response * prog A :=
  match n with
  | O => (w, sent, p)
  | S n' => let '(w', sent', p') := resume p w sent in turns n' p' w' sent'
  end.

Definition halted {A} (p : prog A) : bool :=
  match p with
  | Ret _ | Throw => true
  | _ => false
  end.

Definition result {A} (p : prog A) : option A :=
  match p with
  | Ret a => Some a
  | _ => None
  end.

(** ** The routes, and what a run leaves behind *)

(** The two pricing routes beside the five writing ones. *)
Inductive route : Type :=
| Writing (r : request)
| Calculate (items : option (list line))
| Estimate (id : Z) (items : option (list line)).

Definition serve_route (r : route) : prog unit :=
  match r with
  | Writing r => handle r
  | Calculate items => post_pricebook_calculate items
  | Estimate id items => post_jobs_id_estimate id items
  end.

Definition success (s : Z) : Prop := s = 200 \/ s = 201.

Definition failure (s : Z) : Prop := s = 400 \/ s = 404 \/ s = 500.

(** A line that carries [item_id] and [quantity] and names an item, with
    the entry [POST /jobs/:id/estimate] makes of it: the item's own labour
    rate plus parts cost, times the quantity. *)
Definition estimated (d : db) (entry : line) (l : estimate_line) : Prop :=
  exists id q pbItem,
    line_fields entry = Some (id, q)
    /\ pricebook_items d !! id = Some pbItem
    /\ l = {| el_item_id := id; el_name := pi_name pbItem; el_quantity := q;
              el_unit_price := PrimFloat.add (parseFloat (pi_labour_rate pbItem))
                                             (parseFloat (pi_parts_cost pbItem));
              el_total_price :=
                PrimFloat.mul (PrimFloat.add (parseFloat (pi_labour_rate pbItem))
                                             (parseFloat (pi_parts_cost pbItem))) q |}.

Definition sum_estimates (ls : list estimate_line) : float :=
  fold_left (fun total l => PrimFloat.add total (el_total_price l)) ls 0%float.

(** The process after the outer [catch] has logged the error. *)
Definition logged_error (w : world) : world :=
  {| database := database w; now := now w; faults := faults w;
     console := console w ++ ["err"]; wss := wss w |}.

Definition only_status (s : string) : job_patch :=
  {| p_customer_id := Undefined; p_technician_id := Undefined;
     p_status := Val s; p_scheduled_time := Undefined;
     p_start_time := Undefined; p_end_time := Undefined; p_notes := Undefined |}.

(** The row [POST /jobs] inserts at [now]: a technician [0] and empty notes
    are stored as [NULL], start and end time are left [NULL]. *)
Definition created_job (now customer : Z) (st : string) (b : new_job) : job :=
  {| customer_id := customer;
     technician_id :=
       match nj_technician_id b with
       | Val t => if decide (t = 0) then None else Some t
       | _ => None
       end;
     status := st;
     scheduled_time := to_sql (nj_scheduled_time b);
     start_time := None; end_time := None;
     notes := given (to_sql (nj_notes b));
     created_at := now; updated_at := now |}.

Definition new_scheduled_job : new_job :=
  {| nj_customer_id := Val 8; nj_technician_id := Val 0; nj_status := Val "scheduled";
     nj_scheduled_time := Val 120; nj_notes := Val "" |}.

(** The process at another time of the database clock. *)
Definition at_now (w : world) (t : Z) : world :=
  {| database := database w; now := t; faults := faults w;
     console := console w; wss := wss w |}.

(** The row both invoice routes insert at [now]. *)
Definition created_invoice (now job_id amount : Z) (st : string) (due_at : field Z) : invoice :=
  {| inv_job_id := job_id; inv_amount := amount; inv_status := st;
     inv_issued_at := now; inv_due_at := to_sql due_at;
     inv_created_at := now; inv_updated_at := now |}.

(** The invoice status is missing, [null] or empty. *)
Definition no_status (st : field string) : Prop :=
  match st with
  | Val s => s = ""
  | _ => True
  end.

(** A request as it arrives: at a time of the database clock and with the
    rejections the database will answer with while it is served. *)
Record arrival := {
  a_request : request;
  a_now : Z;
  a_faults : list bool }.

Definition serve_arrival (w : world) (a : arrival) : world * list response :=
  (run (handle (a_request a))
       {| database := database w; now := a_now a; faults := a_faults a;
          console := console w; wss := wss w |} []).1.

(** The requests one after the other, with the responses in order. *)
Fixpoint serve_arrivals (w : world) (arrivals : list arrival) : world * list response :=
  match arrivals with
  | [] => (w, [])
  | a :: rest =>
      let '(w1, sent1) := serve_arrival w a in
      let '(w2, sent2) := serve_arrivals w1 rest in
      (w2, sent1 ++ sent2)
  end.

#[global] Instance success_dec (s : Z) : Decision (success s).
Proof. unfold success. apply _. Defined.

(** What a socket has received after [events] have been broadcast. *)
Definition after_events (events : list message) (c : client) : client :=
  if decide (readyState c = OPEN)
  then {| readyState := readyState c; received := received c ++ events |}
  else c.

Definition two_arrivals : list arrival :=
  [ {| a_request := PutJobsId 99 complete; a_now := 110; a_faults := [] |};
    {| a_request := PutJobsId 1 complete; a_now := 120; a_faults := [] |} ].

(** ** The catalog import script: [parseCSVLine]

    A line is read character by character; only the double quote and the
    comma are told apart from the others. *)

(** The double quote, character 34. *)
Definition dquote : Ascii.ascii := Ascii.ascii_of_nat 34.

(** The comma, character 44. *)
Definition comma : Ascii.ascii := Ascii.ascii_of_nat 44.

(** The loop of [parseCSVLine] from position [i] on, [line] being what is
    left of the line there: a quote inside quotes that is followed by a quote
    stands for one quote and both are consumed, any other quote opens or
    closes the quotes; a comma outside quotes ends the field. *)
Fixpoint parse_fields (line field : string) (inQuotes : bool) (result : list string)
    : list string :=
  match line with
  | EmptyString => result ++ [field]
  | String char rest =>
      if decide (char = dquote) then
        match rest with
        | String next rest' =>
            if inQuotes && bool_decide (next = dquote)
            then parse_fields rest' (field +:+ String dquote EmptyString) inQuotes result
            else parse_fields rest field (negb inQuotes) result
        | EmptyString => parse_fields rest field (negb inQuotes) result
        end
      else if bool_decide (char = comma) && negb inQuotes
      then parse_fields rest EmptyString inQuotes (result ++ [field])
      else parse_fields rest (field +:+ String char EmptyString) inQuotes result
  end.

Definition parseCSVLine (line : string) : list string :=
  parse_fields line EmptyString false [].

(** The characters of a text. *)
Fixpoint chars (s : string) : list Ascii.ascii :=
  match s with
  | EmptyString => []
  | String c r => c :: chars r
  end.

(** A field written as CSV writers do: between quotes, with every quote
    doubled. *)
Fixpoint doubled (f : string) : string :=
  match f with
  | EmptyString => EmptyString
  | String c r =>
      if decide (c = dquote) then String dquote (String dquote (doubled r))
      else String c (doubled r)
  end.

Definition quoted (f : string) : string :=
  String dquote (doubled f +:+ String dquote EmptyString).

(** A field that needs no quotes: it has neither a quote nor a comma. *)
Definition plain (f : string) : Prop := (dquote ∉ chars f) /\ (comma ∉ chars f).

(** [e] is a way of writing the field [f]. *)
Definition written (e f : string) : Prop := e = quoted f \/ (e = f /\ plain f).

(** ** Authentication helpers *)

(** [s.split(sep)] for a separator of one character: the pieces between
    the separators, at least one. *)
Fixpoint split_from (sep : Ascii.ascii) (s piece : string) : list string :=
  match s with
  | EmptyString => [piece]
  | String c r =>
      if decide (c = sep) then piece :: split_from sep r EmptyString
      else split_from sep r (piece +:+ String c EmptyString)
  end.

Definition split (sep : Ascii.ascii) (s : string) : list string :=
  split_from sep s EmptyString.

(** The space, character 32, and the colon, character 58. *)
Definition space : Ascii.ascii := Ascii.ascii_of_nat 32.

Definition colon : Ascii.ascii := Ascii.ascii_of_nat 58.

(** The payload of a token. *)
Record token_user := {
  tu_id : Z;
  tu_email : string;
  tu_role : string;
  tu_mfa_enabled : bool }.

(** A middleware ends the request with a status ([res.sendStatus]) or a
    status and a message, or calls [next()]. *)
Inductive verdict : Type :=
| SendStatus (s : Z)
| SendMessage (s : Z) (message : string)
| Next (user : token_user).

Section Auth.

(** [jwt.verify(token, process.env.JWT_SECRET, ...)]: the payload, or [None]
    when the callback gets an error. *)
Variable jwt_verify : string -> option token_user.

(** [authHeader && authHeader.split(' ')[1]]. *)
Definition header_token (authorization : option string) : option string :=
  match authorization with
  | Some authHeader =>
      if truthy_string authHeader then split space authHeader !! 1%nat
      else Some authHeader
  | None => None
  end.

Definition authenticateToken (authorization : option string) : verdict :=
  match header_token authorization with
  | Some token =>
      if truthy_string token then
        match jwt_verify token with
        | Some user => Next user
        | None => SendStatus 403
        end
      else SendStatus 401
  | None => SendStatus 401
  end.

Definition authorizeRoles (roles : list string) (user : token_user) : verdict :=
  if includes roles (tu_role user) then Next user
  else SendMessage 403 "Forbidden".

(** A route registered as [authenticateToken, authorizeRoles(...roles)]. *)
Definition guarded (roles : list string) (authorization : option string) : verdict :=
  match authenticateToken authorization with
  | Next user => authorizeRoles roles user
  | refused => refused
  end.

End Auth.

Section Password.

(** [crypto.pbkdf2Sync(password, salt, 10000, 64, 'sha512').toString('hex')]. *)
Variable pbkdf2_hex : string -> string -> string.

(** [hashPassword], for the salt [crypto.randomBytes(16).toString('hex')]
    has drawn. *)
Definition hashPassword (salt password : string) : string :=
  salt +:+ String colon (pbkdf2_hex password salt).

(** [const [salt, originalHash] = storedHash.split(':')]: the first piece
    and, when there is one, the second. *)
Definition verifyPassword (password storedHash : string) : bool :=
  match split colon storedHash with
  | salt :: pieces => bool_decide (head pieces = Some (pbkdf2_hex password salt))
  | [] => false
  end.

End Password.

Definition ada : token_user :=
  {| tu_id := 1; tu_email := "ada@example.com"; tu_role := "admin";
     tu_mfa_enabled := false |}.

(** A verifier that knows one token. *)
Definition only_abc (token : string) : option token_user :=
  if decide (token = "abc") then Some ada else None.

(** ** Invariants of the tables

    The foreign keys of [schema.sql] between the modelled tables: a version
    names an existing item, a service history row and an invoice an existing
    job, a payment an existing invoice. *)
Definition references_hold (d : db) : Prop :=
  Forall (fun v => is_Some (pricebook_items d !! piv_item_id v)) (pricebook_item_versions d)
  /\ Forall (fun r => is_Some (jobs d !! sh_job_id r)) (service_history d)
  /\ map_Forall (fun _ i => is_Some (jobs d !! inv_job_id i)) (invoices d)
  /\ Forall (fun p => is_Some (invoices d !! pay_invoice_id p)) (payments d).

#[global] Instance references_hold_dec d : Decision (references_hold d).
Proof. unfold references_hold. apply _. Defined.

(** Every key in use is below the next value of its sequence. *)
Definition sequences_ahead (d : db) : Prop :=
  map_Forall (fun id _ => id < jobs_id_seq d) (jobs d)
  /\ Forall (fun r => sh_id r < service_history_id_seq d) (service_history d)
  /\ map_Forall (fun id _ => id < invoices_id_seq d) (invoices d)
  /\ Forall (fun p => pay_id p < payments_id_seq d) (payments d).

#[global] Instance sequences_ahead_dec d : Decision (sequences_ahead d).
Proof. unfold sequences_ahead. apply _. Defined.

(** ** The tables and routes beside the core

    [users], and the sequence of [pricebook_item_versions], which the
    handlers above never touch.  Column lengths ([VARCHAR(255)]) and the
    [created_at] of a version are not modelled, nor are the tables
    [customers], [reminders] and [job_signatures]: what a statement does to
    them is not followed, and a rejection on their account is one of the
    faults of the process. *)

Record user := {
  email : string;
  password_hash : string;
  role : string;
  mfa_secret : option string;
  mfa_enabled : bool;
  user_created_at : Z;
  user_updated_at : Z }.

Definition user_roles : list string := ["admin"; "manager"; "technician"].

Record site := {
  process : world;
  pricebook_item_versions_id_seq : Z;
  users : gmap Z user;
  users_id_seq : Z }.

Definition set_process (s : site) (w : world) : site :=
  {| process := w;
     pricebook_item_versions_id_seq := pricebook_item_versions_id_seq s;
     users := users s; users_id_seq := users_id_seq s |}.

Definition set_tables (s : site) (d : db) : site :=
  set_process s (set_database (process s) d (faults (process s))).

Definition set_users (s : site) (us : gmap Z user) (seq : Z) : site :=
  {| process := process s;
     pricebook_item_versions_id_seq := pricebook_item_versions_id_seq s;
     users := us; users_id_seq := seq |}.

Definition set_pricebook (d : db) (items : gmap Z pricebook_item)
    (versions : list pricebook_item_version) : db :=
  {| pricebook_items := items;
     pricebook_item_versions := versions;
     jobs := jobs d; jobs_id_seq := jobs_id_seq d;
     service_history := service_history d;
     service_history_id_seq := service_history_id_seq d;
     invoices := invoices d; invoices_id_seq := invoices_id_seq d;
     payments := payments d; payments_id_seq := payments_id_seq d |}.

(** [DELETE FROM pricebook_items WHERE id = $1]: the versions of the item
    go with it ([ON DELETE CASCADE]). *)
Definition delete_pricebook_item (d : db) (id : Z) : db :=
  set_pricebook d (delete id (pricebook_items d))
    (filter (fun v => piv_item_id v <> id) (pricebook_item_versions d)).

(** The invoice of a payment belongs to job [id]. *)
Definition paid_for_job (d : db) (id : Z) (p : payment) : Prop :=
  match invoices d !! pay_invoice_id p with
  | Some i => inv_job_id i = id
  | None => False
  end.

#[global] Instance paid_for_job_dec d id p : Decision (paid_for_job d id p).
Proof. unfold paid_for_job. destruct (invoices d !! pay_invoice_id p); apply _. Defined.

(** [DELETE FROM jobs WHERE id = $1]: the history rows and invoices of the
    job go with it, and with each invoice its payments. *)
Definition delete_job (d : db) (id : Z) : db :=
  {| pricebook_items := pricebook_items d;
     pricebook_item_versions := pricebook_item_versions d;
     jobs := delete id (jobs d); jobs_id_seq := jobs_id_seq d;
     service_history := filter (fun r => sh_job_id r <> id) (service_history d);
     service_history_id_seq := service_history_id_seq d;
     invoices := filter (fun kv => inv_job_id kv.2 <> id) (invoices d);
     invoices_id_seq := invoices_id_seq d;
     payments := filter (fun p => ~ paid_for_job d id p) (payments d);
     payments_id_seq := payments_id_seq d |}.

(** The nullable [price_tier] passes its [CHECK]. *)
Definition price_tier_allowed (t : option string) : bool :=
  match t with
  | Some s => includes price_tiers s
  | None => true
  end.

(** [WHERE email = $1]; no row when the parameter is [NULL]. *)
Definition select_users_by_email (us : gmap Z user) (e : option string) : list (row user) :=
  match e with
  | Some e => filter (fun kv => email kv.2 = e) (map_to_list us)
  | None => []
  end.

Inductive statement : Type -> Type :=
| SelectItemId (id : Z) : statement (list Z)
| InsertVersion (item_id effective labour parts : Z) (tier : option string)
    : statement (list pricebook_item_version)
| DeleteItem (id : Z) : statement Z
| DeleteJob (id : Z) : statement Z
| InsertHistory (job_id customer performed : Z) (nt : option string)
    : statement (list service_history_row)
| SelectUserIdByEmail (e : option string) : statement (list Z)
| InsertUser (e : option string) (hash r : string) : statement (list token_user)
| SelectUserByEmail (e : option string) : statement (list (row user))
| UpdateMfaSecret (secret : string) (id : Z) : statement unit
| SelectMfa (id : Z) : statement (list (option string * bool))
| UpdateMfaEnabled (id : Z) : statement unit.

(** One statement against the tables; the [Z] answered by a [DELETE] is its
    [rowCount].  As above, the foreign key of [service_history] on
    [customer_id] and the ranges of the columns are left to the faults of
    the process. *)
Definition execute {R} (q : statement R) (s : site) : outcome R * site :=
  let d := database (process s) in
  let t := now (process s) in
  match q in statement R return outcome R * site with
  | SelectItemId id =>
      (Resolved (match pricebook_items d !! id with Some _ => [id] | None => [] end), s)
  | InsertVersion item_id effective labour parts tier =>
      match pricebook_items d !! item_id with
      | Some _ =>
          if price_tier_allowed tier then
            let id := pricebook_item_versions_id_seq s in
            let v := {| piv_id := id; piv_item_id := item_id;
                        piv_effective_at := effective; piv_labour_rate := labour;
                        piv_parts_cost := parts; piv_price_tier := tier |} in
            (Resolved [v],
             {| process := set_database (process s)
                             (set_pricebook d (pricebook_items d)
                                (pricebook_item_versions d ++ [v]))
                             (faults (process s));
                pricebook_item_versions_id_seq := id + 1;
                users := users s; users_id_seq := users_id_seq s |})
          else (Rejected, s)
      | None => (Rejected, s)
      end
  | DeleteItem id =>
      match pricebook_items d !! id with
      | Some _ => (Resolved 1, set_tables s (delete_pricebook_item d id))
      | None => (Resolved 0, s)
      end
  | DeleteJob id =>
      match jobs d !! id with
      | Some _ => (Resolved 1, set_tables s (delete_job d id))
      | None => (Resolved 0, s)
      end
  | InsertHistory job_id customer performed nt =>
      match jobs d !! job_id with
      | Some _ =>
          let id := service_history_id_seq d in
          let r := {| sh_id := id; sh_job_id := job_id; sh_customer_id := customer;
                      sh_performed_at := performed; sh_notes := nt |} in
          (Resolved [r],
           set_tables s (set_service_history d (service_history d ++ [r]) (id + 1)))
      | None => (Rejected, s)
      end
  | SelectUserIdByEmail e =>
      (Resolved (map fst (select_users_by_email (users s) e)), s)
  | InsertUser e hash r =>
      match e, select_users_by_email (users s) e with
      | Some e, [] =>
          if includes user_roles r then
            let id := users_id_seq s in
            let u := {| email := e; password_hash := hash; role := r;
                        mfa_secret := None; mfa_enabled := false;
                        user_created_at := t; user_updated_at := t |} in
            (Resolved [{| tu_id := id; tu_email := e; tu_role := r;
                          tu_mfa_enabled := false |}],
             set_users s (<[id := u]> (users s)) (id + 1))
          else (Rejected, s)
      | _, _ => (Rejected, s)
      end
  | SelectUserByEmail e =>
      (Resolved (select_users_by_email (users s) e), s)
  | UpdateMfaSecret secret id =>
      (Resolved tt,
       set_users s
         (alter (fun u => {| email := email u; password_hash := password_hash u;
                             role := role u; mfa_secret := Some secret;
                             mfa_enabled := mfa_enabled u;
                             user_created_at := user_created_at u;
                             user_updated_at := user_updated_at u |}) id (users s))
         (users_id_seq s))
  | SelectMfa id =>
      (Resolved (match users s !! id with
                 | Some u => [(mfa_secret u, mfa_enabled u)]
                 | None => []
                 end), s)
  | UpdateMfaEnabled id =>
      (Resolved tt,
       set_users s
         (alter (fun u => {| email := email u; password_hash := password_hash u;
                             role := role u; mfa_secret := mfa_secret u;
                             mfa_enabled := true;
                             user_created_at := user_created_at u;
                             user_updated_at := user_updated_at u |}) id (users s))
         (users_id_seq s))
  end.

(** What is handed to [res.json], or the status text of [res.sendStatus]. *)
Inductive content : Type :=
| CError (error : string)
| CErrors
| CStatusText
| CVersion (v : option pricebook_item_version)
| CHistory (r : option service_history_row)
| CToken (token : string)
| CRegistered (token : string) (u : token_user)
| CMfaSetup (secret otpauth_url : string)
| CMessage (message : string).

Record reply := { rp_status : Z; rp_content : content }.

Inductive effect : Type :=
| LogError (line : string)
| Send (r : reply).

Inductive routine (A : Type) : Type :=
| Finish (a : A)
| Fail
| Effect (e : effect) (k : routine A)
| Submit {R : Type} (q : statement R) (k : outcome R -> routine A).
Arguments Finish {A} a.
Arguments Fail {A}.
Arguments Effect {A} e k.
Arguments Submit {A R} q k.

Fixpoint and_then {A B} (p : routine A) (f : A -> routine B) : routine B :=
  match p with
  | Finish a => f a
  | Fail => Fail
  | Effect e k => Effect e (and_then k f)
  | Submit q k => Submit q (fun o => and_then (k o) f)
  end.

#[global] Instance routine_ret : MRet routine := @Finish.
#[global] Instance routine_bind : MBind routine := fun A B f p => and_then p f.

(** [try { p } catch (err) { h }]. *)
Fixpoint guard {A} (p : routine A) (h : routine A) : routine A :=
  match p with
  | Finish a => Finish a
  | Fail => h
  | Effect e k => Effect e (guard k h)
  | Submit q k => Submit q (fun o => guard (k o) h)
  end.

Definition awaited {R} (q : statement R) : routine R :=
  Submit q (fun o => match o with Resolved r => Finish r | Rejected => Fail end).

Definition answer (s : Z) (c : content) : routine unit :=
  Effect (Send {| rp_status := s; rp_content := c |}) (Finish tt).

(** [res.sendStatus(s)]. *)
Definition sendStatus (s : Z) : routine unit := answer s CStatusText.

Definition server_error : routine unit :=
  Effect (LogError "err") (answer 500 (CError "Internal server error")).

Definition set_faults (s : site) (fs : list bool) : site :=
  set_process s (set_database (process s) (database (process s)) fs).

(** The database answers one statement, or rejects it for a reason outside
    the tables. *)
Definition submit {R} (q : statement R) (s : site) : outcome R * site :=
  match faults (process s) with
  | true :: fs => (Rejected, set_faults s fs)
  | false :: fs => execute q (set_faults s fs)
  | [] => execute q s
  end.

Definition log_error (line : string) (s : site) : site :=
  set_process s (perform (ConsoleError line) (process s) []).1.

Fixpoint carry_out {A} (p : routine A) (s : site) (sent : list reply)
    : site * list reply * option A :=
  match p with
  | Finish a => (s, sent, Some a)
  | Fail => (s, sent, None)
  | Effect (LogError line) k => carry_out k (log_error line s) sent
  | Effect (Send r) k => carry_out k s (sent ++ [r])
  | Submit q k => let '(o, s') := submit q s in carry_out (k o) s' sent
  end.

(** ** [POST /pricebook/items/:id/versions] *)

(** [price_tier && !['good','better','best'].includes(price_tier)]. *)
Definition invalid_price_tier (price_tier : field string) : bool :=
  match price_tier with
  | Val t => truthy_string t && negb (includes price_tiers t)
  | _ => false
  end.

Definition post_pricebook_items_id_versions (id : Z)
    (effective_at labour_rate parts_cost : field Z) (price_tier : field string)
    : routine unit :=
  match effective_at, labour_rate, parts_cost with
  | Val effective, Val labour, Val parts =>
      if invalid_price_tier price_tier
      then answer 400 (CError "Invalid price_tier")
      else
        guard
          (itemCheck ← awaited (SelectItemId id);
           match itemCheck with
           | [] => answer 404 (CError "Item not found")
           | _ :: _ =>
               result ← awaited (InsertVersion id effective labour parts
                                   (or_null price_tier));
               answer 201 (CVersion (head result))
           end)
          server_error
  | _, _, _ => answer 400 (CError "effective_at, labour_rate and parts_cost are required")
  end.

(** ** [DELETE /pricebook/items/:id] and [DELETE /jobs/:id] *)

Definition delete_pricebook_items_id (id : Z) : routine unit :=
  guard
    (rowCount ← awaited (DeleteItem id);
     if rowCount =? 0 then answer 404 (CError "Item not found")
     else sendStatus 204)
    server_error.

Definition delete_jobs_id (id : Z) : routine unit :=
  guard
    (rowCount ← awaited (DeleteJob id);
     if rowCount =? 0 then answer 404 (CError "Job not found")
     else sendStatus 204)
    server_error.

(** ** [POST /service_history] *)

Definition post_service_history (job_id customer_id performed_at : field Z)
    (nt : field string) : routine unit :=
  match job_id, customer_id, performed_at with
  | Val jid, Val customer, Val performed =>
      if truthy_Z jid && truthy_Z customer then
        guard
          (result ← awaited (InsertHistory jid customer performed (or_null nt));
           answer 201 (CHistory (head result)))
          server_error
      else answer 400 (CError "job_id, customer_id and performed_at are required")
  | _, _, _ => answer 400 (CError "job_id, customer_id and performed_at are required")
  end.

Definition site_sequences_ahead (s : site) : Prop :=
  sequences_ahead (database (process s))
  /\ Forall (fun v => piv_id v < pricebook_item_versions_id_seq s)
       (pricebook_item_versions (database (process s)))
  /\ map_Forall (fun id _ => id < users_id_seq s) (users s).

#[global] Instance site_sequences_ahead_dec s : Decision (site_sequences_ahead s).
Proof. unfold site_sequences_ahead. apply _. Defined.

(** Two process states with the same items and the same database faults
    in which every item has the same current version. *)
Definition same_rates (w1 w2 : world) : Prop :=
  pricebook_items (database w1) = pricebook_items (database w2)
  /\ faults w1 = faults w2
  /\ forall id,
       select_latest_version (now w1) (pricebook_item_versions (database w1)) id
       = select_latest_version (now w2) (pricebook_item_versions (database w2)) id.

Definition sample_site : site :=
  {| process := at_time versioned_db 100;
     pricebook_item_versions_id_seq := 3;
     users := ∅; users_id_seq := 1 |}.

(** ** Accounts: [/auth/register], [/auth/login], [/auth/setup-mfa] and
       [/auth/verify-mfa] *)

(** [.optional()]: a field that is [undefined] is not validated. *)
Definition optional (validator : field string -> bool) (x : field string) : bool :=
  match x with
  | Undefined => true
  | _ => validator x
  end.

(** [.isIn(values)]; [null] is validated as the empty text. *)
Definition isIn (values : list string) (x : field string) : bool :=
  match x with
  | Val s => includes values s
  | _ => includes values ""
  end.

(** The payload both routes sign. *)
Definition payload (id : Z) (u : user) : token_user :=
  {| tu_id := id; tu_email := email u; tu_role := role u;
     tu_mfa_enabled := mfa_enabled u |}.

Section Accounts.

Variable pbkdf2_hex : string -> string -> string.

(** [jwt.sign(payload, process.env.JWT_SECRET, { expiresIn: '1h' })] at the
    time of the request. *)
Variable jwt_sign : token_user -> string.

(** [speakeasy.totp.verify({ secret, encoding: 'base32', token, window: 1 })]
    at the time of the request; [Rejected] when it throws. *)
Variable totp_verify : option string -> string -> outcome bool.

(** The validators of express-validator on a body field: [isEmail()],
    [isLength({ min: 6 })], [notEmpty()] and [isNumeric()]. *)
Variable isEmail : field string -> bool.
Variable isLength_min_6 : field string -> bool.
Variable notEmpty : field string -> bool.
Variable isNumeric : field string -> bool.

(** [salt] is what [crypto.randomBytes(16).toString('hex')] draws in
    [hashPassword]; hashing a password that is not a text throws. *)
Definition post_auth_register (salt : string) (e password r : field string)
    : routine unit :=
  if isEmail e && isLength_min_6 password && optional (isIn user_roles) r then
    let userRole := or_literal (to_sql r) "manager" in
    guard
      (existing ← awaited (SelectUserIdByEmail (to_sql e));
       match existing with
       | _ :: _ => answer 409 (CError "User already exists")
       | [] =>
           match password with
           | Val p =>
               let passwordHash := hashPassword pbkdf2_hex salt p in
               insert ← awaited (InsertUser (to_sql e) passwordHash userRole);
               match head insert with
               | Some u => answer 201 (CRegistered (jwt_sign u) u)
               | None => Fail
               end
           | _ => Fail
           end
       end)
      server_error
  else answer 400 CErrors.

Definition post_auth_login (e password mfa_code : field string) : routine unit :=
  if isEmail e && notEmpty password && optional isNumeric mfa_code then
    guard
      (result ← awaited (SelectUserByEmail (to_sql e));
       match result with
       | [] => answer 401 (CError "Invalid credentials")
       | (id, u) :: _ =>
           match password with
           | Val p =>
               if negb (verifyPassword pbkdf2_hex p (password_hash u))
               then answer 401 (CError "Invalid credentials")
               else
                 let granted := answer 200 (CToken (jwt_sign (payload id u))) in
                 if mfa_enabled u then
                   match mfa_code with
                   | Val code =>
                       if truthy_string code then
                         match totp_verify (mfa_secret u) code with
                         | Resolved true => granted
                         | Resolved false => answer 401 (CError "Invalid MFA code")
                         | Rejected => Fail
                         end
                       else answer 401 (CError "MFA code required")
                   | _ => answer 401 (CError "MFA code required")
                   end
                 else granted
           | _ => Fail
           end
       end)
      server_error
  else answer 400 CErrors.

(** [req.user] is the payload [authenticateToken] has verified; [base32]
    and [otpauth_url] are what [speakeasy.generateSecret] draws. *)
Definition post_auth_setup_mfa (req_user : token_user) (base32 otpauth_url : string)
    : routine unit :=
  guard
    (_ ← awaited (UpdateMfaSecret base32 (tu_id req_user));
     answer 200 (CMfaSetup base32 otpauth_url))
    server_error.

Definition post_auth_verify_mfa (req_user : token_user) (mfaToken : field string)
    : routine unit :=
  match mfaToken with
  | Val t =>
      if truthy_string t then
        guard
          (result ← awaited (SelectMfa (tu_id req_user));
           match result with
           | [] => answer 404 (CError "User not found")
           | (secret, enabled) :: _ =>
               if enabled : bool then answer 400 (CError "MFA is already enabled")
               else
                 match totp_verify secret t with
                 | Resolved true =>
                     _ ← awaited (UpdateMfaEnabled (tu_id req_user));
                     answer 200 (CMessage "MFA enabled")
                 | Resolved false => answer 401 (CError "Invalid MFA token")
                 | Rejected => Fail
                 end
           end)
          server_error
      else answer 400 (CError "MFA token is required")
  | _ => answer 400 (CError "MFA token is required")
  end.

End Accounts.

(** Sample collaborators: a digest that prefixes the salt, a signature that
    is the e-mail, a one-time code that is the secret itself. *)
Definition sample_digest (password salt : string) : string := password +:+ salt.

Definition sample_sign (u : token_user) : string := tu_email u.

Definition sample_totp (secret : option string) (code : string) : outcome bool :=
  match secret with
  | Some s => Resolved (bool_decide (code = s))
  | None => Rejected
  end.

Definition accepts (x : field string) : bool :=
  match x with
  | Val s => truthy_string s
  | _ => false
  end.

Definition ada_row : user :=
  {| email := "ada@example.com";
     password_hash := hashPassword sample_digest "a1b2" "secret1";
     role := "admin"; mfa_secret := None; mfa_enabled := false;
     user_created_at := 10; user_updated_at := 10 |}.

Definition site_with_ada : site :=
  {| process := at_time versioned_db 100;
     pricebook_item_versions_id_seq := 3;
     users := {[ 1 := ada_row ]}; users_id_seq := 2 |}.

(** ** The price book import: [getOrCreateCategory]

    The import script runs alone against [pricebook_categories]; its cache
    [categoryMap] is a [Map] from text keys to ids. *)

Record category := {
  cat_name : string;
  cat_parent_id : option Z }.

Record importer := {
  pricebook_categories : gmap Z category;
  pricebook_categories_id_seq : Z;
  categoryMap : gmap string Z;
  import_faults : list bool;
  import_console : list string }.

(** [parentId ? `${parentId}:${name}` : name]. *)
Definition category_key (name : string) (parentId : option Z) : string :=
  match parentId with
  | Some p => if truthy_Z p then (pretty p) +:+ String colon name else name
  | None => name
  end.

(** [WHERE name = $1 AND parent_id IS NOT DISTINCT FROM $2]. *)
Definition select_category_ids (t : gmap Z category) (name : string) (parentId : option Z)
    : list Z :=
  map fst (filter (fun kv => cat_name kv.2 = name /\ cat_parent_id kv.2 = parentId)
             (map_to_list t)).

(** [`Created category ${name} (id=${id}, parent=${parentId || 'null'})`]. *)
Definition created_category (name : string) (id : Z) (parentId : option Z) : string :=
  "Created category " +:+ name +:+ " (id=" +:+ pretty id +:+ ", parent="
  +:+ (match parentId with
       | Some p => if truthy_Z p then pretty p else "null"
       | None => "null"
       end) +:+ ")".

Definition next_fault (st : importer) : bool * importer :=
  (match import_faults st with
   | rejected :: _ => rejected
   | [] => false
   end,
   {| pricebook_categories := pricebook_categories st;
      pricebook_categories_id_seq := pricebook_categories_id_seq st;
      categoryMap := categoryMap st;
      import_faults := tail (import_faults st);
      import_console := import_console st |}).

Definition remember_category (st : importer) (key : string) (id : Z) : importer :=
  {| pricebook_categories := pricebook_categories st;
     pricebook_categories_id_seq := pricebook_categories_id_seq st;
     categoryMap := <[key := id]> (categoryMap st);
     import_faults := import_faults st;
     import_console := import_console st |}.

(** [INSERT INTO pricebook_categories (name, parent_id) ... RETURNING id];
    the foreign key wants the parent to exist. *)
Definition insert_category (st : importer) (name : string) (parentId : option Z)
    : option Z * importer :=
  let id := pricebook_categories_id_seq st in
  if match parentId with
     | Some p => bool_decide (is_Some (pricebook_categories st !! p))
     | None => true
     end
  then
    (Some id,
     {| pricebook_categories :=
          <[id := {| cat_name := name; cat_parent_id := parentId |}]>
            (pricebook_categories st);
        pricebook_categories_id_seq := id + 1;
        categoryMap := categoryMap st;
        import_faults := import_faults st;
        import_console := import_console st ++ [created_category name id parentId] |})
  else (None, st).

(** The id, or [None] when a statement is rejected and the function
    throws. *)
Definition getOrCreateCategory (name : string) (parentId : option Z) (st : importer)
    : option Z * importer :=
  let key := category_key name parentId in
  match categoryMap st !! key with
  | Some id => (Some id, st)
  | None =>
      let '(rejected, st1) := next_fault st in
      if rejected then (None, st1)
      else
        match select_category_ids (pricebook_categories st1) name parentId with
        | id :: _ => (Some id, remember_category st1 key id)
        | [] =>
            let '(rejected, st2) := next_fault st1 in
            if rejected then (None, st2)
            else
              match insert_category st2 name parentId with
              | (Some id, st3) => (Some id, remember_category st3 key id)
              | (None, st3) => (None, st3)
              end
        end
  end.

(** Every cached key stands for the name and parent of the row it maps to. *)
Definition cache_sound (st : importer) : Prop :=
  forall key id,
    categoryMap st !! key = Some id ->
    exists name parentId,
      key = category_key name parentId
      /\ (colon ∉ chars name) /\ parentId <> Some 0
      /\ pricebook_categories st !! id
         = Some {| cat_name := name; cat_parent_id := parentId |}.

(** A top-level category whose name starts like the key of a child. *)
Definition colliding_import : importer :=
  {| pricebook_categories :=
       {[ 5 := {| cat_name := "Plumbing"; cat_parent_id := None |};
          6 := {| cat_name := "5:Pipes"; cat_parent_id := None |} ]};
     pricebook_categories_id_seq := 7;
     categoryMap := ∅;
     import_faults := [];
     import_console := [] |}.

(** ** Pricing when the store may pick among tied versions *)

(** What the statement of lines 589-592 may answer for item [id] at [now]:
    no row when no version of the item is in force, else one version in
    force of greatest [effective_at], whichever the store picks among
    equals. *)
Definition latest_version_answer (d : db) (now id : Z)
    (rows : list pricebook_item_version) : Prop :=
  (rows = [] /\ forall v, v ∈ pricebook_item_versions d -> ~ version_qualifies id now v)
  \/ exists v,
       rows = [v] /\ v ∈ pricebook_item_versions d /\ version_qualifies id now v
       /\ forall v', v' ∈ pricebook_item_versions d -> version_qualifies id now v' ->
            piv_effective_at v' <= piv_effective_at v.

(** No two versions in force of the line's item share an [effective_at]. *)
Definition untied (d : db) (now : Z) (entry : line) : Prop :=
  match line_fields entry with
  | Some (id, _) =>
      NoDup (map piv_effective_at
               (filter (version_qualifies id now) (pricebook_item_versions d)))
  | None => True
  end.

#[global] Instance untied_dec d now entry : Decision (untied d now entry).
Proof. unfold untied. repeat case_match; apply _. Defined.

(** A line priced as the specification words it: from the item and any
    admissible answer of the store for its current version, with a tier that
    is not a name inherited from [Object.prototype]. *)
Definition priced_as_specified (d : db) (now : Z) (entry : line) (l : priced_line) : Prop :=
  exists id q pbItem rows,
    line_fields entry = Some (id, q)
    /\ pricebook_items d !! id = Some pbItem
    /\ latest_version_answer d now id rows
    /\ (spec_tier (to_sql (price_tier entry)) (current_rate pbItem rows).2
        ∉ object_prototype_keys)
    /\ l = (let '(labourRate, partsCost, tier) := current_rate pbItem rows in
            let markupFactor := spec_markup (spec_tier (to_sql (price_tier entry)) tier) in
            let unitPrice :=
              PrimFloat.mul (PrimFloat.add (parseFloat labourRate) (parseFloat partsCost))
                            markupFactor in
            {| pl_item_id := id; pl_name := pi_name pbItem; pl_quantity := q;
               pl_unit_price := unitPrice; pl_markup_factor := VNum markupFactor;
               pl_total_price := PrimFloat.mul unitPrice q |}).

(** Three versions of the drain cleaning dated alike. *)
Definition tied_db : db :=
  {| pricebook_items := {[ 1 := drain_cleaning ]};
     pricebook_item_versions :=
       [ {| piv_id := 1; piv_item_id := 1; piv_effective_at := 10;
            piv_labour_rate := 7000; piv_parts_cost := 4000; piv_price_tier := None |};
         {| piv_id := 2; piv_item_id := 1; piv_effective_at := 10;
            piv_labour_rate := 8000; piv_parts_cost := 4000; piv_price_tier := None |};
         {| piv_id := 3; piv_item_id := 1; piv_effective_at := 10;
            piv_labour_rate := 10000; piv_parts_cost := 4000;
            piv_price_tier := Some "good" |} ];
     jobs := ∅; jobs_id_seq := 1;
     service_history := []; service_history_id_seq := 1;
     invoices := ∅; invoices_id_seq := 1;
     payments := []; payments_id_seq := 1 |}.





(** ** Events, whatever the database answers *)






(** The event a writing route sends with a response 200 or 201: the one of
    its route, carrying the row it has answered with. *)
Definition announcement (r : request) (resp : response) : option message :=
  if decide (success (res_status resp)) then
    match r, res_body resp with
    | PostJobs _, BJob j => Some (job_created j)
    | PutJobsId _ _, BJob j => Some (job_updated j)
    | PostJobsIdInvoice _ _ _ _, BInvoice i => Some (invoice_created i)
    | PostInvoices _ _ _ _, BInvoice i => Some (invoice_created i)
    | PostPayments _ _ _, BPayment p => Some (payment_created p)
    | _, _ => None
    end
  else None.

(** The events of the successful requests, in the order of the requests. *)
Definition announcements (requests : list request) (sent : list response) : list message :=
  omap (fun rs => announcement rs.1 rs.2) (zip requests sent).

Definition announce (m : option message) (wss : option (list client))
    : option (list client) :=
  match m with
  | Some m => broadcast m wss
  | None => wss
  end.

(** ** Running composed handlers *)

Lemma run_bind {A B} (p : prog A) (f : A -> prog B) w sent :
  run (bind p f) w sent =
  match run p w sent with
  | (w', sent', Some a) => run (f a) w' sent'
  | (w', sent', None) => (w', sent', None)
  end.
Proof.
  revert w sent. induction p as [a | | a k IH | R q k IH]; intros w sent; simpl.
  - done.
  - done.
  - destruct (perform a w sent) as [w' sent']. apply IH.
  - destruct (query q w) as [o w']. apply IH.
Qed.

Lemma run_try_catch {A} (p h : prog A) w sent :
  run (try_catch p h) w sent =
  match run p w sent with
  | (w', sent', Some a) => (w', sent', Some a)
  | (w', sent', None) => run h w' sent'
  end.
Proof.
  revert w sent. induction p as [a | | a k IH | R q k IH]; intros w sent; simpl.
  - done.
  - done.
  - destruct (perform a w sent) as [w' sent']. apply IH.
  - destruct (query q w) as [o w']. apply IH.
Qed.

Lemma run_await {R} (q : sql R) w sent :
  run (await q) w sent =
  match query q w with
  | (Resolved r, w') => (w', sent, Some r)
  | (Rejected, w') => (w', sent, None)
  end.
Proof. simpl. destruct (query q w) as [[r|] w']; done. Qed.

(** A healthy database answers a read and leaves the process as it was. *)
Lemma set_database_id w : faults w = [] -> set_database w (database w) [] = w.
Proof. destruct w; simpl; intros ->; done. Qed.

Lemma query_select_item w id :
  faults w = [] ->
  query (SelectPricebookItem id) w
  = (Resolved (select_by_key (pricebook_items (database w)) id), w).
Proof. intros Hf. unfold query. rewrite Hf. simpl. by rewrite set_database_id. Qed.

Lemma query_select_version w id :
  faults w = [] ->
  query (SelectLatestVersion id) w
  = (Resolved (select_latest_version (now w) (pricebook_item_versions (database w)) id), w).
Proof. intros Hf. unfold query. rewrite Hf. simpl. by rewrite set_database_id. Qed.

Lemma query_select_job w id :
  faults w = [] ->
  query (SelectJob id) w = (Resolved (select_by_key (jobs (database w)) id), w).
Proof. intros Hf. unfold query. rewrite Hf. simpl. by rewrite set_database_id. Qed.

(** ** Rate resolution *)

#[global] Instance later_first_trans : Transitive later_first.
Proof. unfold later_first. intros a b c ? ?. lia. Qed.

#[global] Instance later_first_total : Total later_first.
Proof. unfold later_first. intros a b. lia. Qed.

Lemma merge_sort_later_first_head l v rest :
  merge_sort later_first l = v :: rest ->
  v ∈ l /\ forall v', v' ∈ l -> piv_effective_at v' <= piv_effective_at v.
Proof.
  intros Heq.
  pose proof (StronglySorted_merge_sort later_first l) as Hs.
  pose proof (merge_sort_Permutation later_first l) as Hp.
  rewrite Heq in Hs, Hp. split.
  - rewrite <- Hp. left.
  - intros v' Hv'. rewrite <- Hp in Hv'.
    apply StronglySorted_inv in Hs as [_ Hall].
    apply elem_of_cons in Hv' as [-> | Hin]; [lia |].
    rewrite Forall_forall in Hall. apply Hall in Hin. exact Hin.
Qed.

Lemma select_latest_version_cases now versions id :
  (select_latest_version now versions id = []
   /\ forall v, v ∈ versions -> ~ version_qualifies id now v)
  \/ (exists v, select_latest_version now versions id = [v]
      /\ v ∈ versions /\ version_qualifies id now v
      /\ forall v', v' ∈ versions -> version_qualifies id now v' ->
           piv_effective_at v' <= piv_effective_at v).
Proof.
  unfold select_latest_version.
  destruct (merge_sort later_first (filter (version_qualifies id now) versions))
    as [|v rest] eqn:Heq.
  - left. split; [done |]. intros v Hv Hq.
    assert (Hin : v ∈ filter (version_qualifies id now) versions)
      by (apply list_elem_of_filter; done).
    rewrite <- (merge_sort_Permutation later_first) in Hin. rewrite Heq in Hin.
    by apply elem_of_nil in Hin.
  - right. exists v. apply merge_sort_later_first_head in Heq as [Hin Hmax].
    apply list_elem_of_filter in Hin as [Hq Hin].
    split; [done |]. split; [done |]. split; [done |].
    intros v' Hv' Hq'. apply Hmax. apply list_elem_of_filter. done.
Qed.

(** C2. Rate resolution as of database time [now]: the statement of lines
    589-592 returns, among the versions of the item with [effective_at <= now],
    one whose [effective_at] is greatest, and lines 593-601 then yield that
    version's labour rate and parts cost and its tier, or the item's tier when
    the version has none; when no version qualifies the statement returns no
    row and the item's own labour rate, parts cost and tier are used.  The
    version tiers satisfy the [CHECK] of the schema. *)
Theorem resolve_rate_latest_effective (d : db) (now id : Z) (pbItem : pricebook_item)
    (Hcheck : Forall (fun v => price_tier_check (piv_price_tier v))
                (pricebook_item_versions d)) :
  exists versionRes,
    exec (SelectLatestVersion id) now d = (Resolved versionRes, d)
    /\ ((versionRes = []
         /\ (forall v, v ∈ pricebook_item_versions d -> ~ version_qualifies id now v)
         /\ current_rate pbItem versionRes
            = (pi_labour_rate pbItem, pi_parts_cost pbItem, pi_price_tier pbItem))
        \/ (exists v,
              versionRes = [v]
              /\ v ∈ pricebook_item_versions d
              /\ piv_item_id v = id
              /\ piv_effective_at v <= now
              /\ (forall v', v' ∈ pricebook_item_versions d ->
                    piv_item_id v' = id -> piv_effective_at v' <= now ->
                    piv_effective_at v' <= piv_effective_at v)
              /\ current_rate pbItem versionRes
                 = (piv_labour_rate v, piv_parts_cost v,
                    match piv_price_tier v with
                    | Some t => Some t
                    | None => pi_price_tier pbItem
                    end))).
Proof.
  exists (select_latest_version now (pricebook_item_versions d) id).
  split; [reflexivity |].
  destruct (select_latest_version_cases now (pricebook_item_versions d) id)
    as [[Hnil Hnone] | (v & Hv & Hin & [Hid Heff] & Hmax)].
  - left. rewrite Hnil. done.
  - right. exists v. rewrite Hv. repeat (split; [done |]). split.
    + intros v' Hv' Hid' Heff'. apply Hmax; [done | by split].
    + simpl. rewrite Forall_forall in Hcheck. specialize (Hcheck v Hin).
      destruct (piv_price_tier v) as [t|]; [| done]. simpl in Hcheck.
      unfold or_column, truthy_string.
      destruct (decide (t = "")) as [-> | _]; [| done].
      exfalso. unfold price_tiers in Hcheck.
      repeat (apply elem_of_cons in Hcheck as [Hcheck | Hcheck]; [discriminate |]).
      by apply elem_of_nil in Hcheck.
Qed.

Lemma resolve_rate_latest_effective_witness :
  exists versionRes,
    exec (SelectLatestVersion 1) 15 versioned_db = (Resolved versionRes, versioned_db)
    /\ current_rate drain_cleaning versionRes = (7000, 4000, Some "better").
Proof.
  destruct (resolve_rate_latest_effective versioned_db 15 1 drain_cleaning)
    as (versionRes & Hexec & Hcases).
  { repeat constructor. }
  exists versionRes. split; [exact Hexec |].
  destruct Hcases as [(_ & Hnone & _) | (v & _ & Hin & _ & Heff & _ & ->)].
  - exfalso. apply (Hnone rate_2024); [left | split; simpl; [done | lia]].
  - simpl in Hin.
    apply elem_of_cons in Hin as [-> | Hin]; [reflexivity |].
    apply elem_of_cons in Hin as [-> | Hin]; [simpl in Heff; lia |].
    by apply elem_of_nil in Hin.
Defined.

(** With versions effective at 10 and at 20: the base item before 10, the
    first version from 10 on, the second from 20 on. *)
Lemma resolve_rate_over_time :
  select_latest_version 9 (pricebook_item_versions versioned_db) 1 = []
  /\ select_latest_version 10 (pricebook_item_versions versioned_db) 1 = [rate_2024]
  /\ select_latest_version 19 (pricebook_item_versions versioned_db) 1 = [rate_2024]
  /\ select_latest_version 20 (pricebook_item_versions versioned_db) 1 = [rate_2025]
  /\ current_rate drain_cleaning [] = (6000, 4000, Some "better")
  /\ current_rate drain_cleaning [rate_2024] = (7000, 4000, Some "better")
  /\ current_rate drain_cleaning [rate_2025] = (8000, 4500, Some "best").
Proof. repeat split; vm_compute; reflexivity. Qed.

(** ** Tiered pricing *)

Lemma markup_factor_plain tier :
  tier ∉ object_prototype_keys ->
  or_value (get markups tier) (VNum 1.0%float) = VNum (spec_markup tier).
Proof.
  intros Hplain. unfold spec_markup.
  destruct (decide (tier = "good")) as [-> | Hg]; [by vm_compute |].
  destruct (decide (tier = "better")) as [-> | Hb]; [by vm_compute |].
  destruct (decide (tier = "best")) as [-> | Hc]; [by vm_compute |].
  unfold get, markups.
  rewrite lookup_insert_ne by done. rewrite lookup_insert_ne by done.
  rewrite lookup_singleton_ne by done.
  destruct (decide (tier ∈ object_prototype_keys)); done.
Qed.

Lemma selected_tier_spec (tier : field string) (defaultTier : option string) :
  or_literal (or_field tier defaultTier) "good" = spec_tier (to_sql tier) defaultTier.
Proof.
  unfold or_literal, or_field, spec_tier, given, truthy_string.
  destruct tier as [| | t]; simpl;
    repeat (case_decide || case_match || simplify_eq); try done.
Qed.

Lemma price_entry_spec d now entry id q pbItem :
  line_fields entry = Some (id, q) ->
  pricebook_items d !! id = Some pbItem ->
  plain_tier d now entry ->
  spec_priced_line d now entry
  = Some (price_entry id q (price_tier entry) pbItem
            (select_latest_version now (pricebook_item_versions d) id)).
Proof.
  intros Hf Hi. unfold plain_tier, spec_priced_line, price_entry. rewrite Hf, Hi.
  destruct (current_rate _ _) as [[labourRate partsCost] defaultTier]. simpl.
  intros Hplain. rewrite selected_tier_spec, markup_factor_plain by done. done.
Qed.

Lemma run_Await {A R} (q : sql R) (k : outcome R -> prog A) w sent :
  run (Await q k) w sent = let '(o, w') := query q w in run (k o) w' sent.
Proof. reflexivity. Qed.

Lemma run_calculate_loop w items lines total breakdown sent :
  faults w = [] ->
  Forall2 (fun entry l => spec_priced_line (database w) (now w) entry = Some l) items lines ->
  Forall (plain_tier (database w) (now w)) items ->
  run (calculate_loop items total breakdown) w sent
  = (w, sent ++ [{| res_status := 200;
                    res_body := BPricing
                      (fold_left (fun t l => PrimFloat.add t (pl_total_price l)) lines total)
                      (breakdown ++ lines) |}], Some tt).
Proof.
  intros Hf Hlines. revert total breakdown.
  induction Hlines as [| entry l items lines Hl _ IH]; intros total breakdown Hplain.
  - simpl. by rewrite app_nil_r.
  - apply Forall_cons in Hplain as [Hp Hplain]. simpl.
    assert (Hspec := Hl). unfold spec_priced_line in Hl.
    destruct (line_fields entry) as [[id q] |] eqn:Hfields; [| done].
    destruct (pricebook_items (database w) !! id) as [pbItem |] eqn:Hitem; [| done].
    clear Hl. rewrite (price_entry_spec _ _ _ id q pbItem) in Hspec by done.
    injection Hspec as <-.
    rewrite run_Await, query_select_item by done.
    unfold select_by_key. rewrite Hitem. simpl.
    rewrite ?run_Await, query_select_version by done. simpl.
    rewrite IH by done. by rewrite <- app_assoc.
Qed.

Lemma latest_version_answer_select (d : db) (now id : Z) :
  latest_version_answer d now id (select_latest_version now (pricebook_item_versions d) id).
Proof.
  destruct (select_latest_version_cases now (pricebook_item_versions d) id)
    as [[-> Hnone] | (v & -> & Hin & Hq & Hmax)]; [by left | right].
  by exists v.
Qed.

Lemma NoDup_fmap_eq {A B} (f : A -> B) (l : list A) (x y : A) :
  NoDup (map f l) -> x ∈ l -> y ∈ l -> f x = f y -> x = y.
Proof.
  induction l as [| a l IH]; intros Hnd Hx Hy Heq; [by apply elem_of_nil in Hx |].
  simpl in Hnd. apply NoDup_cons in Hnd as [Ha Hnd].
  apply elem_of_cons in Hx as [-> | Hx]; apply elem_of_cons in Hy as [-> | Hy]; try done.
  - exfalso. apply Ha. rewrite Heq. by apply (list_elem_of_fmap_2 f).
  - exfalso. apply Ha. rewrite <- Heq. by apply (list_elem_of_fmap_2 f).
  - by apply IH.
Qed.

(** Without a tie the store has no choice: its answer is the one the
    sort gives. *)
Lemma latest_version_answer_untied (d : db) (now id : Z)
    (rows : list pricebook_item_version) :
  NoDup (map piv_effective_at
           (filter (version_qualifies id now) (pricebook_item_versions d))) ->
  latest_version_answer d now id rows ->
  rows = select_latest_version now (pricebook_item_versions d) id.
Proof.
  intros Hnd Hrows.
  destruct (select_latest_version_cases now (pricebook_item_versions d) id)
    as [[-> Hnone] | (v & -> & Hin & Hq & Hmax)];
    destruct Hrows as [[-> Hnone'] | (v' & -> & Hin' & Hq' & Hmax')]; try done.
  - by destruct (Hnone v' Hin').
  - by destruct (Hnone' v Hin).
  - f_equal. apply (NoDup_fmap_eq piv_effective_at _ v' v Hnd).
    + by apply list_elem_of_filter.
    + by apply list_elem_of_filter.
    + specialize (Hmax v' Hin' Hq'). specialize (Hmax' v Hin Hq). lia.
Qed.

Lemma priced_as_specified_untied (d : db) (now : Z) (entry : line) (l : priced_line) :
  untied d now entry ->
  priced_as_specified d now entry l ->
  spec_priced_line d now entry = Some l /\ plain_tier d now entry.
Proof.
  intros Huntied (id & q & pbItem & rows & Hfields & Hitem & Hrows & Hplain & ->).
  unfold untied in Huntied. rewrite Hfields in Huntied.
  apply (latest_version_answer_untied d now id rows Huntied) in Hrows. subst rows.
  unfold spec_priced_line, plain_tier. rewrite Hfields, Hitem. split; [| done].
  by destruct (current_rate _ _) as [[labourRate partsCost] tier].
Qed.

(** C3 (as amended). For a non-empty list of lines that all carry
    [item_id] and [quantity] and name existing items, no item having two
    versions in force with the same [effective_at], against a healthy
    database, the handler answers 200 with one priced line per input line
    and their total.  Each line is priced from the item's latest version in
    force, or from the item when it has none; its tier is the line's own
    when given, else the resolved one, else ["good"]; its factor comes from
    the table good 1.0, better 1.15, best 1.25, any other tier that is not a
    name inherited from [Object.prototype] giving 1.0; the unit price is
    (labour rate + parts cost) * factor and the line total unit price *
    quantity, the total being accumulated line by line from 0, all in
    binary64 arithmetic.  For labour rate 60, parts cost 40, tier "better"
    and quantity 2 the unit price is 114.99999999999999 and the line total
    and the total are 229.99999999999997. *)
Theorem calculate_pricing_tiers_and_totals :
  (forall (w : world) (entry : line) (rest : list line) (lines : list priced_line),
     faults w = [] ->
     Forall (untied (database w) (now w)) (entry :: rest) ->
     Forall2 (priced_as_specified (database w) (now w)) (entry :: rest) lines ->
     run (post_pricebook_calculate (Some (entry :: rest))) w []
     = (w, [{| res_status := 200; res_body := BPricing (sum_totals lines) lines |}],
        Some tt))
  /\ run (post_pricebook_calculate (Some [two_drains])) (at_time sample_db 100) []
     = (at_time sample_db 100,
        [{| res_status := 200;
            res_body := BPricing 229.99999999999997%float [two_drains_priced] |}],
        Some tt).
Proof.
  split.
  - intros w entry rest lines Hf Huntied Hlines.
    unfold post_pricebook_calculate. rewrite run_try_catch.
    rewrite (run_calculate_loop w (entry :: rest) lines); [done | done | |].
    + clear Hf. revert Huntied.
      induction Hlines as [| e l es ls Hl _ IH]; intros Huntied; [constructor |].
      apply Forall_cons in Huntied as [He Hes].
      constructor; [| by apply IH].
      by destruct (priced_as_specified_untied _ _ _ _ He Hl).
    + clear Hf. revert Huntied.
      induction Hlines as [| e l es ls Hl _ IH]; intros Huntied; [constructor |].
      apply Forall_cons in Huntied as [He Hes].
      constructor; [| by apply IH].
      by destruct (priced_as_specified_untied _ _ _ _ He Hl).
  - vm_compute. reflexivity.
Qed.

Lemma calculate_pricing_tiers_and_totals_witness :
  run (post_pricebook_calculate (Some [two_drains])) (at_time versioned_db 15) []
  = (at_time versioned_db 15,
     [{| res_status := 200;
         res_body := BPricing (sum_totals
           [{| pl_item_id := 1; pl_name := "Drain cleaning"; pl_quantity := 2%float;
               pl_unit_price := 126.49999999999999%float;
               pl_markup_factor := VNum 1.15%float;
               pl_total_price := 252.99999999999997%float |}])
           [{| pl_item_id := 1; pl_name := "Drain cleaning"; pl_quantity := 2%float;
               pl_unit_price := 126.49999999999999%float;
               pl_markup_factor := VNum 1.15%float;
               pl_total_price := 252.99999999999997%float |}] |}],
     Some tt).
Proof.
  apply (proj1 calculate_pricing_tiers_and_totals (at_time versioned_db 15) two_drains []).
  - reflexivity.
  - constructor; [| constructor]. apply (bool_decide_unpack _). vm_compute. exact I.
  - constructor; [| constructor].
    exists 1, 2%float, drain_cleaning, [rate_2024].
    split; [reflexivity |]. split; [reflexivity |].
    split; [exact (latest_version_answer_select versioned_db 15 1) |].
    split; [apply (bool_decide_unpack _); vm_compute; exact I |].
    vm_compute. reflexivity.
Defined.

(** With versions dated alike the answer is the store's choice: on three
    tied versions the sort picks the third, where PostgreSQL is free to
    return the first. *)
Lemma calculate_pricing_tied_versions :
  ~ untied tied_db 100 two_drains
  /\ map piv_id (select_latest_version 100 (pricebook_item_versions tied_db) 1) = [3]
  /\ Forall (fun v => latest_version_answer tied_db 100 1 [v])
       (pricebook_item_versions tied_db).
Proof.
  split; [| split].
  - apply (bool_decide_unpack _). vm_compute. exact I.
  - vm_compute. reflexivity.
  - apply Forall_forall. intros v Hv. right. exists v.
    split; [done |]. split; [done |].
    assert (forall v0, v0 ∈ pricebook_item_versions tied_db ->
              piv_item_id v0 = 1 /\ piv_effective_at v0 = 10) as Hall.
    { intros v0 Hv0. simpl in Hv0.
      repeat (apply elem_of_cons in Hv0 as [-> | Hv0]; [done |]).
      by apply elem_of_nil in Hv0. }
    destruct (Hall v Hv) as [Hid Heff]. split; [split; [done | lia] |].
    intros v' Hv' _. destruct (Hall v' Hv') as [_ Heff']. lia.
Qed.

(** C3, the stated example fails: for labour rate 60, parts cost 40, tier
    "better" and quantity 2 the handler answers a unit price different from
    115 and a line total and a total different from 230. *)
Lemma calculate_pricing_example_not_115 :
  exists total l,
    (run (post_pricebook_calculate (Some [two_drains])) (at_time sample_db 100) []).1.2
    = [{| res_status := 200; res_body := BPricing total [l] |}]
    /\ PrimFloat.eqb (pl_unit_price l) 115%float = false
    /\ PrimFloat.eqb (pl_total_price l) 230%float = false
    /\ PrimFloat.eqb total 230%float = false.
Proof.
  exists 229.99999999999997%float, two_drains_priced.
  repeat split; vm_compute; reflexivity.
Qed.

(** A tier that names a property every object inherits reads that property
    instead of falling back to [1.0]: the prices are [NaN]. *)
Lemma calculate_pricing_inherited_tier :
  exists total l,
    (run (post_pricebook_calculate
            (Some [{| item_id := Val 1; quantity := Val 2%float;
                      price_tier := Val "constructor" |}]))
         (at_time sample_db 100) []).1.2
    = [{| res_status := 200; res_body := BPricing total [l] |}]
    /\ pl_markup_factor l = VInherited
    /\ PrimFloat.is_nan (pl_unit_price l) = true
    /\ PrimFloat.is_nan total = true.
Proof.
  eexists _, _. split; [vm_compute; reflexivity |].
  repeat split; vm_compute; reflexivity.
Qed.

(** ** A line that names no item *)

Lemma query_cases {R} (q : sql R) w :
  query q w = (Rejected, set_database w (database w) (tail (faults w)))
  \/ query q w = (let '(o, d) := exec q (now w) (database w) in
                  (o, set_database w d (tail (faults w)))).
Proof. unfold query. destruct (faults w) as [| [|] fs]; simpl; auto. Qed.

Lemma calculate_loop_dangling items : forall total breakdown w sent,
  Exists (dangling (database w)) items ->
  exists w',
    database w' = database w
    /\ (run (calculate_loop items total breakdown) w sent = (w', sent, None)
        \/ exists e, run (calculate_loop items total breakdown) w sent
                     = (w', sent ++ [{| res_status := 400; res_body := BError e |}], Some tt)).
Proof.
  induction items as [| entry rest IH]; intros total breakdown w sent Hex.
  - by apply Exists_nil in Hex.
  - simpl. destruct (line_fields entry) as [[id q] |] eqn:Hfields.
    2:{ exists w. split; [done |]. right. by eexists. }
    rewrite run_Await.
    destruct (query_cases (SelectPricebookItem id) w) as [-> | ->]; simpl.
    { eexists. split; [| by left]. done. }
    unfold select_by_key.
    destruct (pricebook_items (database w) !! id) as [pbItem |] eqn:Hitem; simpl.
    2:{ eexists. split; [| right; by eexists]. done. }
    rewrite ?run_Await.
    match goal with |- context [query ?q ?w1] =>
      destruct (query_cases q w1) as [-> | ->] end; simpl.
    { eexists. split; [| by left]. done. }
    apply Exists_cons in Hex as [(id' & q' & Hf' & Hnone) | Hex].
    { rewrite Hfields in Hf'. simplify_eq. }
    match goal with |- context [run (calculate_loop rest ?t ?b) ?w1 sent] =>
      destruct (IH t b w1 sent) as (w' & Hdb & Hrun); [done |] end.
    exists w'. split; [done |]. exact Hrun.
Qed.






(** ** Dependence of pricing on the clock and on the catalog *)

Lemma filter_version_qualifies_same id now1 now2 (l : list pricebook_item_version) :
  (forall v, v ∈ l -> (piv_effective_at v <= now1 <-> piv_effective_at v <= now2)) ->
  filter (version_qualifies id now1) l = filter (version_qualifies id now2) l.
Proof.
  induction l as [| v l IH]; intros Hclock; [done |].
  rewrite !filter_cons. rewrite IH by (intros v' Hv'; apply Hclock; by right).
  pose proof (Hclock v ltac:(left)) as Hv.
  unfold version_qualifies.
  destruct (decide (piv_item_id v = id /\ piv_effective_at v <= now1)) as [[? ?] | Hn1],
           (decide (piv_item_id v = id /\ piv_effective_at v <= now2)) as [[? ?] | Hn2];
    try done; exfalso; [apply Hn2 | apply Hn1]; split; try done; by apply Hv.
Qed.

Lemma query_item_same id w1 w2 :
  same_catalog w1 w2 ->
  exists o w1' w2',
    query (SelectPricebookItem id) w1 = (o, w1')
    /\ query (SelectPricebookItem id) w2 = (o, w2')
    /\ same_catalog w1' w2'.
Proof.
  intros (Hi & Hv & Hf & Hc). unfold query. rewrite Hf.
  destruct (faults w2) as [| [|] fs]; simpl; rewrite ?Hi;
    eexists _, _, _; (split; [reflexivity |]); (split; [reflexivity |]);
    repeat split; simpl; try done; apply Hc; done.
Qed.

Lemma query_version_same id w1 w2 :
  same_catalog w1 w2 ->
  exists o w1' w2',
    query (SelectLatestVersion id) w1 = (o, w1')
    /\ query (SelectLatestVersion id) w2 = (o, w2')
    /\ same_catalog w1' w2'.
Proof.
  intros (Hi & Hv & Hf & Hc). unfold query. rewrite Hf.
  assert (select_latest_version (now w1) (pricebook_item_versions (database w1)) id
          = select_latest_version (now w2) (pricebook_item_versions (database w2)) id)
    as Hsel.
  { unfold select_latest_version.
    rewrite (filter_version_qualifies_same id (now w1) (now w2)) by done.
    by rewrite Hv. }
  destruct (faults w2) as [| [|] fs]; simpl; rewrite ?Hsel;
    eexists _, _, _; (split; [reflexivity |]); (split; [reflexivity |]);
    repeat split; simpl; try done; apply Hc; done.
Qed.

Lemma calculate_loop_same_catalog items : forall total breakdown w1 w2 sent,
  same_catalog w1 w2 ->
  exists w1' w2' sent' r,
    run (calculate_loop items total breakdown) w1 sent = (w1', sent', r)
    /\ run (calculate_loop items total breakdown) w2 sent = (w2', sent', r).
Proof.
  induction items as [| entry rest IH]; intros total breakdown w1 w2 sent Hsame.
  - simpl. by eexists _, _, _, _.
  - simpl. destruct (line_fields entry) as [[id q] |]; [| by eexists _, _, _, _].
    rewrite !run_Await.
    destruct (query_item_same id w1 w2 Hsame) as (o & w1' & w2' & -> & -> & Hsame').
    destruct o as [[| [i pbItem] itemRes] |]; simpl; try by eexists _, _, _, _.
    rewrite ?run_Await.
    destruct (query_version_same id w1' w2' Hsame') as (o & w1'' & w2'' & -> & -> & Hsame'').
    destruct o as [versionRes |]; simpl; [| by eexists _, _, _, _].
    by apply IH.
Qed.

Lemma query_item_same_items job_id id w1 w2 :
  same_items job_id w1 w2 ->
  exists o w1' w2',
    query (SelectPricebookItem id) w1 = (o, w1')
    /\ query (SelectPricebookItem id) w2 = (o, w2')
    /\ same_items job_id w1' w2'.
Proof.
  intros (Hi & Hf & Hj). unfold query. rewrite Hf.
  destruct (faults w2) as [| [|] fs]; simpl; rewrite ?Hi;
    eexists _, _, _; (split; [reflexivity |]); (split; [reflexivity |]);
    repeat split; simpl; try done; apply Hj; done.
Qed.

Lemma estimate_loop_same_items job_id items : forall total breakdown w1 w2 sent,
  same_items job_id w1 w2 ->
  exists w1' w2' sent' r,
    run (estimate_loop job_id items total breakdown) w1 sent = (w1', sent', r)
    /\ run (estimate_loop job_id items total breakdown) w2 sent = (w2', sent', r).
Proof.
  induction items as [| entry rest IH]; intros total breakdown w1 w2 sent Hsame.
  - simpl. by eexists _, _, _, _.
  - simpl. destruct (line_fields entry) as [[id q] |]; [| by eexists _, _, _, _].
    rewrite !run_Await.
    destruct (query_item_same_items job_id id w1 w2 Hsame)
      as (o & w1' & w2' & -> & -> & Hsame').
    destruct o as [[| [i pbItem] itemRes] |]; simpl; try by eexists _, _, _, _.
    by apply IH.
Qed.

Lemma query_job_same_items id w1 w2 :
  same_items id w1 w2 ->
  exists o1 o2 w1' w2',
    query (SelectJob id) w1 = (o1, w1')
    /\ query (SelectJob id) w2 = (o2, w2')
    /\ same_items id w1' w2'
    /\ alike o1 o2.
Proof.
  intros (Hi & Hf & Hj). unfold query. rewrite Hf.
  assert (alike (Resolved (select_by_key (jobs (database w1)) id))
                (Resolved (select_by_key (jobs (database w2)) id))) as Hsel.
  { unfold select_by_key.
    destruct (jobs (database w1) !! id) as [j1 |] eqn:H1,
             (jobs (database w2) !! id) as [j2 |] eqn:H2; simpl; try done.
    - destruct Hj as [_ Hj]. by specialize (Hj eq_refl).
    - destruct Hj as [Hj _]. by specialize (Hj eq_refl). }
  destruct (faults w2) as [| [|] fs]; simpl;
    eexists _, _, _, _; (split; [reflexivity |]); (split; [reflexivity |]);
    (split; [unfold same_items; simpl; by rewrite ?Hi |]); done.
Qed.

(** C8 (as amended). [estimateJob] is a function of its input, of the
    items, of whether the job exists and of the database's faults, whatever
    the time of the call.  [calculatePricing] is a function of its input, of
    the catalog, of the database's faults and of which versions the clock has
    reached: two calls with the same input against the same catalog answer
    alike when no version's [effective_at] lies between the two call times. *)
Theorem pricing_function_of_catalog_and_clock :
  (forall items w1 w2,
     same_catalog w1 w2 ->
     responses (post_pricebook_calculate items) w1
     = responses (post_pricebook_calculate items) w2)
  /\ (forall id items w1 w2,
        same_items id w1 w2 ->
        responses (post_jobs_id_estimate id items) w1
        = responses (post_jobs_id_estimate id items) w2).
Proof.
  unfold responses. split.
  - intros [[| entry rest] |] w1 w2 Hsame; [done | | done].
    unfold post_pricebook_calculate. rewrite !run_try_catch.
    destruct (calculate_loop_same_catalog (entry :: rest) 0%float [] w1 w2 [] Hsame)
      as (w1' & w2' & sent' & r & -> & ->).
    by destruct r.
  - intros id [[| entry rest] |] w1 w2 Hsame; [done | | done].
    unfold post_jobs_id_estimate. rewrite !run_try_catch.
    unfold mbind, prog_bind. rewrite !run_bind, !run_await.
    remember (estimate_loop id (entry :: rest) 0%float []) as loop eqn:Hloop.
    destruct (query_job_same_items id w1 w2 Hsame)
      as (o1 & o2 & w1' & w2' & -> & -> & Hsame' & Ho).
    destruct o1 as [[| r1 l1] |], o2 as [[| r2 l2] |]; simpl in Ho; try done.
    destruct (estimate_loop_same_items id (entry :: rest) 0%float [] w1' w2' [] Hsame')
      as (w1'' & w2'' & sent' & r & Hr1 & Hr2).
    rewrite <- Hloop in Hr1, Hr2. rewrite Hr1, Hr2. by destruct r.
Qed.

Lemma pricing_function_of_catalog_and_clock_witness :
  responses (post_pricebook_calculate (Some [two_drains])) (at_time versioned_db 12)
  = responses (post_pricebook_calculate (Some [two_drains])) (at_time versioned_db 18).
Proof.
  apply (proj1 pricing_function_of_catalog_and_clock).
  split; [reflexivity |]. split; [reflexivity |]. split; [reflexivity |].
  intros v Hv. simpl in Hv.
  apply elem_of_cons in Hv as [-> | Hv]; [simpl; lia |].
  apply elem_of_cons in Hv as [-> | Hv]; [simpl; lia |].
  by apply elem_of_nil in Hv.
Defined.

(** C8, the claim fails for [calculatePricing]: the same input against the
    same catalog is priced differently before and after a version's
    [effective_at]. *)
Lemma calculate_pricing_changes_with_time :
  exists t1 t2 l1 l2,
    responses (post_pricebook_calculate (Some [two_drains])) (at_time versioned_db 5)
    = [{| res_status := 200; res_body := BPricing t1 l1 |}]
    /\ responses (post_pricebook_calculate (Some [two_drains])) (at_time versioned_db 15)
       = [{| res_status := 200; res_body := BPricing t2 l2 |}]
    /\ PrimFloat.eqb t1 t2 = false.
Proof.
  eexists _, _, _, _. split; [vm_compute; reflexivity |].
  split; vm_compute; reflexivity.
Qed.

(** ** Job updates *)

Ltac step_query :=
  rewrite ?run_bind, ?run_await, ?run_Await;
  match goal with
  | |- context [query ?q ?w] => destruct (query_cases q w) as [-> | ->]; simpl
  end.

Ltac finish_jobs :=
  intros [= <- <- <-]; simpl;
  split;
  [ intros id' Hne; rewrite ?lookup_insert_ne by done; done
  | first [ by left
          | right; eexists; split; [done |]; by rewrite lookup_insert_eq ] ].

Lemma put_jobs_id_jobs (w : world) (id : Z) (b : job_patch) w' sent r :
  run (put_jobs_id id b) w [] = (w', sent, r) ->
  (forall id', id' <> id -> jobs (database w') !! id' = jobs (database w) !! id')
  /\ (jobs (database w') !! id = jobs (database w) !! id
      \/ exists j, jobs (database w) !! id = Some j
           /\ jobs (database w') !! id
              = Some (update_job_row (now w) (update_params b) j)).
Proof.
  unfold put_jobs_id. rewrite run_try_catch. unfold mbind, prog_bind.
  step_query; [finish_jobs |].
  unfold select_by_key.
  destruct (jobs (database w) !! id) as [j |] eqn:Hj; simpl; [| finish_jobs].
  step_query; [finish_jobs |].
  rewrite Hj.
  destruct (includes job_statuses _); simpl; [| finish_jobs].
  destruct (becomes_completed (p_status b) (status j)); simpl; [| finish_jobs].
  unfold record_service_history, mbind, prog_bind.
  step_query; [finish_jobs |].
  destruct (select_service_history _ id) as [| h hs]; simpl; [| finish_jobs].
  step_query; [finish_jobs |].
  rewrite lookup_insert_eq. simpl. finish_jobs.
Qed.

Lemma query_healthy {R} (q : sql R) w :
  faults w = [] ->
  query q w = (let '(o, d) := exec q (now w) (database w) in (o, set_database w d [])).
Proof. unfold query. by intros ->. Qed.

Ltac step_healthy :=
  rewrite ?run_bind, ?run_await, ?run_Await;
  rewrite query_healthy by done; simpl.

Lemma run_put_jobs_id_healthy (w : world) (id : Z) (b : job_patch) (j : job) :
  faults w = [] ->
  jobs (database w) !! id = Some j ->
  includes job_statuses (status (update_job_row (now w) (update_params b) j)) = true ->
  run (put_jobs_id id b) w []
  = ({| database := tables_after_put (database w) (now w) id b j;
        now := now w; faults := []; console := console w;
        wss := broadcast
                 (job_updated (Some (id, update_job_row (now w) (update_params b) j)))
                 (wss w) |},
     [{| res_status := 200;
         res_body := BJob (Some (id, update_job_row (now w) (update_params b) j)) |}],
     Some tt).
Proof.
  intros Hf Hj Hcheck.
  unfold put_jobs_id, tables_after_put. rewrite run_try_catch. unfold mbind, prog_bind.
  step_healthy. unfold select_by_key. rewrite Hj. simpl.
  step_healthy. rewrite Hj. simpl in Hcheck. rewrite Hcheck. simpl.
  destruct (becomes_completed (p_status b) (status j)); simpl; [| done].
  unfold record_service_history, mbind, prog_bind.
  destruct (select_service_history (service_history (database w)) id) as [| h hs];
    simpl; [| done].
  step_healthy. rewrite lookup_insert_eq. simpl. done.
Qed.

Ltac finish_history :=
  intros [= <- <- <-]; simpl;
  first [ by left
        | right; eexists; split; [done |]; split; [done |]; split; [done |];
          eexists; split; [| done]; done ].

(** Whatever the faults, a [PUT /jobs/:id] leaves [service_history] alone
    or appends one row for the job, the latter only on a transition into
    "completed" of a job that had no row. *)
Lemma put_jobs_id_history (w : world) (id : Z) (b : job_patch) w' sent r :
  run (put_jobs_id id b) w [] = (w', sent, r) ->
  service_history (database w') = service_history (database w)
  \/ exists j,
       jobs (database w) !! id = Some j
       /\ becomes_completed (p_status b) (status j) = true
       /\ select_service_history (service_history (database w)) id = []
       /\ exists rec, sh_job_id rec = id
            /\ service_history (database w') = service_history (database w) ++ [rec].
Proof.
  unfold put_jobs_id. rewrite run_try_catch. unfold mbind, prog_bind.
  step_query; [finish_history |].
  unfold select_by_key.
  destruct (jobs (database w) !! id) as [j |] eqn:Hj; simpl; [| finish_history].
  step_query; [finish_history |].
  rewrite Hj.
  destruct (includes job_statuses _); simpl; [| finish_history].
  destruct (becomes_completed (p_status b) (status j)) eqn:Hb; simpl; [| finish_history].
  unfold record_service_history, mbind, prog_bind.
  step_query; [finish_history |].
  destruct (select_service_history _ id) as [| h hs] eqn:Hh; simpl; [| finish_history].
  step_query; [finish_history |].
  rewrite lookup_insert_eq. simpl. finish_history.
Qed.

Lemma history_count_app d h rec seq k :
  history_count (set_service_history d (h ++ [rec]) seq) k
  = (length (select_service_history h k) + (if decide (sh_job_id rec = k) then 1 else 0))%nat.
Proof.
  unfold history_count, select_service_history. simpl.
  rewrite filter_app, length_app. f_equal.
  rewrite filter_cons, filter_nil. by destruct (decide (sh_job_id rec = k)).
Qed.

Lemma put_jobs_id_history_count (w : world) (id : Z) (b : job_patch) (k : Z) :
  let w' := (run (put_jobs_id id b) w []).1.1 in
  history_count (database w') k = history_count (database w) k
  \/ (history_count (database w) k = 0%nat /\ history_count (database w') k = 1%nat).
Proof.
  destruct (run (put_jobs_id id b) w []) as [[w' sent] r] eqn:Hrun. simpl.
  apply put_jobs_id_history in Hrun
    as [Heq | (j & _ & _ & Hnone & rec & Hrec & Heq)].
  - left. unfold history_count. by rewrite Heq.
  - unfold history_count. rewrite Heq. unfold select_service_history in *.
    rewrite filter_app, length_app, filter_cons, filter_nil.
    destruct (decide (sh_job_id rec = k)) as [Hk | Hk]; simpl.
    + right. rewrite <- Hk, Hrec, Hnone. done.
    + left. lia.
Qed.

Lemma serve_all_history_count (calls : list call) : forall (w : world) (k : Z),
  (history_count (database (serve_all w calls)) k
   <= Nat.max 1 (history_count (database w) k))%nat.
Proof.
  induction calls as [| c calls IH]; intros w k; simpl; [lia |].
  etrans; [apply IH |].
  unfold serve.
  match goal with |- context [run (put_jobs_id ?i ?b) ?w0 []] =>
    destruct (put_jobs_id_history_count w0 i b k) as [Heq | [H0 H1]] end;
    simpl in *; lia.
Qed.

Lemma or_null_given (x : field string) : or_null x = given (to_sql x).
Proof. destruct x as [| | s]; simpl; try done. unfold truthy_string. by case_decide. Qed.

Lemma becomes_completed_true (s : string) :
  s <> "completed" -> becomes_completed (Val "completed") s = true.
Proof.
  intros Hs. unfold becomes_completed. simpl.
  by rewrite bool_decide_eq_false_2.
Qed.

Lemma becomes_completed_already (st : field string) :
  becomes_completed st "completed" = false.
Proof. unfold becomes_completed. simpl. by rewrite andb_false_r. Qed.

(** C5 (as amended). Against a healthy database, a [PUT /jobs/:id] that
    sets status "completed" on a job whose status was not "completed"
    appends exactly one [service_history] row for the job when the job has
    none yet (performed at the current database time, for the updated job's
    customer, with the patch's notes when given and non-empty, else
    [NULL]), and appends nothing when the job already has a row.  A
    [PUT /jobs/:id] on a job that is already "completed" appends nothing,
    whatever the faults.  Hence over any sequence of such calls, one after
    another, a job that had at most one row never has more than one. *)
Theorem set_job_status_completion_record :
  (forall (w : world) (id : Z) (b : job_patch) (j : job),
     faults w = [] ->
     jobs (database w) !! id = Some j ->
     p_status b = Val "completed" ->
     status j <> "completed" ->
     let w' := (run (put_jobs_id id b) w []).1.1 in
     (select_service_history (service_history (database w)) id = [] ->
      service_history (database w')
      = service_history (database w)
        ++ [{| sh_id := service_history_id_seq (database w);
               sh_job_id := id;
               sh_customer_id :=
                 match to_sql (p_customer_id b) with
                 | Some c => c
                 | None => customer_id j
                 end;
               sh_performed_at := now w;
               sh_notes := given (to_sql (p_notes b)) |}]
      /\ history_count (database w') id = 1%nat)
     /\ (select_service_history (service_history (database w)) id <> [] ->
         service_history (database w') = service_history (database w)))
  /\ (forall (w : world) (id : Z) (b : job_patch) (j : job),
        jobs (database w) !! id = Some j ->
        status j = "completed" ->
        service_history (database (run (put_jobs_id id b) w []).1.1)
        = service_history (database w))
  /\ (forall (w : world) (calls : list call) (k : Z),
        (history_count (database w) k <= 1)%nat ->
        (history_count (database (serve_all w calls)) k <= 1)%nat).
Proof.
  split; [| split].
  - intros w id b j Hf Hj Hst Hprev w'. subst w'.
    rewrite (run_put_jobs_id_healthy w id b j Hf Hj)
      by (simpl; rewrite Hst; done).
    simpl. unfold tables_after_put. rewrite Hst. rewrite becomes_completed_true by done.
    split.
    + intros Hnone. rewrite Hnone. simpl. split.
      * unfold completion_record. simpl. by rewrite or_null_given.
      * rewrite history_count_app, Hnone. simpl. by rewrite decide_True.
    + intros Hsome.
      destruct (select_service_history (service_history (database w)) id); done.
  - intros w id b j Hj Hst.
    destruct (run (put_jobs_id id b) w []) as [[w' sent] r] eqn:Hrun. simpl.
    apply put_jobs_id_history in Hrun as [Heq | (j' & Hj' & Hb & _)]; [done |].
    rewrite Hj in Hj'. injection Hj' as <-.
    rewrite Hst, becomes_completed_already in Hb. done.
  - intros w calls k Hle.
    pose proof (serve_all_history_count calls w k). lia.
Qed.

Lemma set_job_status_completion_record_witness :
  service_history (database (run (put_jobs_id 1 complete) (at_time sample_db 100) []).1.1)
  = [{| sh_id := 1; sh_job_id := 1; sh_customer_id := 7; sh_performed_at := 100;
        sh_notes := Some "done" |}].
Proof.
  destruct (proj1 set_job_status_completion_record
              (at_time sample_db 100) 1 complete scheduled_job) as [Hnew _].
  - reflexivity.
  - reflexivity.
  - reflexivity.
  - discriminate.
  - destruct (Hnew eq_refl) as [Hrow _]. exact Hrow.
Defined.

(** C5, the claim fails: a job completed, reopened and completed again goes
    from "in_progress" to "completed" in the third call, which creates no
    [service_history] row. *)
Lemma set_job_status_recompletion_no_record :
  let w1 := (run (put_jobs_id 1 complete) (at_time sample_db 100) []).1.1 in
  let w2 := (run (put_jobs_id 1 reopen) w1 []).1.1 in
  let w3 := (run (put_jobs_id 1 complete) w2 []).1.1 in
  status <$> jobs (database w2) !! 1 = Some "in_progress"
  /\ status <$> jobs (database w3) !! 1 = Some "completed"
  /\ service_history (database w3) = service_history (database w2)
  /\ history_count (database w3) 1 = history_count (database w2) 1.
Proof. vm_compute. repeat split; reflexivity. Qed.

(** C6. On a transition into "completed" of a job without history row,
    when the database answers the two job statements and the history check
    and then rejects the [INSERT INTO service_history], the handler writes
    the failure to the console, leaves [service_history] as it was, and
    still answers 200 with the updated job (and broadcasts it). *)
Theorem set_job_status_history_failure_swallowed
    (w : world) (id : Z) (b : job_patch) (j : job) (fs : list bool)
    (Hfaults : faults w = [false; false; false; true] ++ fs)
    (Hjob : jobs (database w) !! id = Some j)
    (Hstatus : p_status b = Val "completed")
    (Hprev : status j <> "completed")
    (Hnone : select_service_history (service_history (database w)) id = []) :
  let j' := update_job_row (now w) (update_params b) j in
  run (put_jobs_id id b) w []
  = ({| database := set_jobs (database w) (<[id := j']> (jobs (database w)))
                      (jobs_id_seq (database w));
        now := now w; faults := fs;
        console := console w ++ [history_failure];
        wss := broadcast (job_updated (Some (id, j'))) (wss w) |},
     [{| res_status := 200; res_body := BJob (Some (id, j')) |}],
     Some tt).
Proof.
  destruct w as [d nw f c ws]. simpl in Hfaults, Hjob, Hnone. subst f. cbv zeta.
  unfold put_jobs_id. rewrite run_try_catch. unfold mbind, prog_bind.
  rewrite run_bind, run_await. unfold query at 1. simpl.
  unfold select_by_key. rewrite Hjob. simpl.
  try unfold query at 1. simpl. rewrite Hjob, Hstatus. simpl.
  rewrite becomes_completed_true by done.
  unfold record_service_history, mbind, prog_bind. simpl.
  try unfold query at 1. simpl. rewrite Hnone. simpl.
  try unfold query at 1. simpl. done.
Qed.

Lemma set_job_status_history_failure_swallowed_witness :
  let r := run (put_jobs_id 1 complete) history_insert_rejected [] in
  res_status <$> r.1.2 = [200]
  /\ console r.1.1 = [history_failure]
  /\ service_history (database r.1.1) = [].
Proof.
  pose proof (set_job_status_history_failure_swallowed
                history_insert_rejected 1 complete scheduled_job []
                eq_refl eq_refl eq_refl) as Hrun.
  cbv zeta in *. rewrite Hrun; [| discriminate | reflexivity].
  repeat split.
Defined.

(** ** Patch semantics *)

Lemma COALESCE_absent {A} (x : field A) (column : option A) :
  absent x -> COALESCE (to_sql x) column = column.
Proof. unfold absent. by intros ->. Qed.

Lemma COALESCE_not_null_absent {A} (x : field A) (column : A) :
  absent x -> COALESCE_not_null (to_sql x) column = column.
Proof. unfold absent. by intros ->. Qed.

(** C7. A [PUT /jobs/:id] on an existing job leaves the job in place, keeps
    every column whose field is absent from the patch (customer,
    technician, status, scheduled, start and end time, notes) and the
    creation time, and changes no other job; when the database is healthy
    and the resulting status is one of the four, it answers 200 with the
    row in which exactly the present fields have taken the patch's values.
    On a job that does not exist it changes no job, and a healthy database
    makes it answer 404 "Job not found" and change nothing at all. *)
Theorem set_job_status_frame (w : world) (id : Z) (b : job_patch) :
  let w' := (run (put_jobs_id id b) w []).1.1 in
  (forall j, jobs (database w) !! id = Some j ->
     exists j',
       jobs (database w') !! id = Some j'
       /\ (absent (p_customer_id b) -> customer_id j' = customer_id j)
       /\ (absent (p_technician_id b) -> technician_id j' = technician_id j)
       /\ (absent (p_status b) -> status j' = status j)
       /\ (absent (p_scheduled_time b) -> scheduled_time j' = scheduled_time j)
       /\ (absent (p_start_time b) -> start_time j' = start_time j)
       /\ (absent (p_end_time b) -> end_time j' = end_time j)
       /\ (absent (p_notes b) -> notes j' = notes j)
       /\ created_at j' = created_at j
       /\ (faults w = [] ->
           includes job_statuses (COALESCE_not_null (to_sql (p_status b)) (status j)) = true ->
           responses (put_jobs_id id b) w
           = [{| res_status := 200; res_body := BJob (Some (id, j')) |}]
           /\ (forall v, p_customer_id b = Val v -> customer_id j' = v)
           /\ (forall v, p_technician_id b = Val v -> technician_id j' = Some v)
           /\ (forall v, p_status b = Val v -> status j' = v)
           /\ (forall v, p_scheduled_time b = Val v -> scheduled_time j' = Some v)
           /\ (forall v, p_start_time b = Val v -> start_time j' = Some v)
           /\ (forall v, p_end_time b = Val v -> end_time j' = Some v)
           /\ (forall v, p_notes b = Val v -> notes j' = Some v)))
  /\ (jobs (database w) !! id = None ->
      jobs (database w') = jobs (database w)
      /\ (faults w = [] ->
          run (put_jobs_id id b) w []
          = (w, [{| res_status := 404; res_body := BError "Job not found" |}], Some tt)))
  /\ (forall id', id' <> id -> jobs (database w') !! id' = jobs (database w) !! id').
Proof.
  intros w'. subst w'.
  destruct (run (put_jobs_id id b) w []) as [[w' sent] r] eqn:Hrun. simpl.
  pose proof (put_jobs_id_jobs w id b w' sent r Hrun) as [Hothers Hrow].
  split; [| split; [| exact Hothers]].
  - intros j Hj.
    destruct (decide (faults w = []
                      /\ includes job_statuses
                           (COALESCE_not_null (to_sql (p_status b)) (status j)) = true))
      as [[Hf Hcheck] | Hnot].
    + rewrite (run_put_jobs_id_healthy w id b j Hf Hj Hcheck) in Hrun.
      injection Hrun as <- <- <-.
      exists (update_job_row (now w) (update_params b) j).
      split.
      { simpl. unfold tables_after_put.
        repeat case_match; simpl; by rewrite lookup_insert_eq. }
      simpl.
      repeat (split; [intros Ha; first [by apply COALESCE_absent
                                      | by apply COALESCE_not_null_absent] |]).
      split; [done |]. intros _ _.
      split.
      { unfold responses. by rewrite (run_put_jobs_id_healthy w id b j Hf Hj Hcheck). }
      repeat split; intros v ->; done.
    + destruct Hrow as [Hsame | (j0 & Hj0 & Hnew)].
      * exists j. rewrite Hsame. split; [done |].
        repeat (split; [done |]). intros Hf Hcheck. exfalso. by apply Hnot.
      * rewrite Hj in Hj0. injection Hj0 as <-.
        exists (update_job_row (now w) (update_params b) j). split; [done |]. simpl.
        repeat (split; [intros Ha; first [by apply COALESCE_absent
                                        | by apply COALESCE_not_null_absent] |]).
        split; [done |]. intros Hf Hcheck. exfalso. by apply Hnot.
  - intros Hnone. split.
    + apply map_eq. intros k. destruct (decide (k = id)) as [-> | Hne].
      * destruct Hrow as [Hsame | (j0 & Hj0 & _)]; [done |].
        rewrite Hnone in Hj0. done.
      * by apply Hothers.
    + intros Hf. rewrite <- Hrun.
      unfold put_jobs_id. rewrite run_try_catch. unfold mbind, prog_bind.
      rewrite run_bind, run_await, query_select_job by done.
      unfold select_by_key. rewrite Hnone. done.
Qed.

Lemma set_job_status_frame_witness :
  exists j',
    jobs (database (run (put_jobs_id 1 reopen) (at_time sample_db 100) []).1.1) !! 1
    = Some j'
    /\ customer_id j' = 7 /\ notes j' = Some "bring ladder"
    /\ scheduled_time j' = Some 50 /\ status j' = "in_progress".
Proof.
  destruct (proj1 (set_job_status_frame (at_time sample_db 100) 1 reopen)
              scheduled_job eq_refl)
    as (j' & Hj' & Hc & _ & _ & Hs & _ & _ & Hn & _ & Happlied).
  exists j'. split; [exact Hj' |].
  split; [exact (Hc eq_refl) |]. split; [exact (Hn eq_refl) |].
  split; [exact (Hs eq_refl) |].
  destruct (Happlied eq_refl eq_refl) as (_ & _ & _ & Hst & _).
  exact (Hst "in_progress" eq_refl).
Defined.

Lemma to_sql_omit_null {A} (x : field A) : to_sql (omit_null x) = to_sql x.
Proof. by destruct x. Qed.

Lemma update_params_omit_nulls (b : job_patch) :
  update_params (omit_nulls b) = update_params b.
Proof. unfold update_params, omit_nulls. simpl. by rewrite !to_sql_omit_null. Qed.

Lemma put_jobs_id_omit_nulls (id : Z) (b : job_patch) :
  put_jobs_id id (omit_nulls b) = put_jobs_id id b.
Proof.
  unfold put_jobs_id. rewrite update_params_omit_nulls.
  destruct b as [c t s sch st e n]. simpl.
  destruct s, n; reflexivity.
Qed.

(** C10. A [null] in the patch is an omitted field: the handler run on a
    patch and on the same patch with every [null] field left out are the
    same program, so they answer alike and leave the same state from every
    state.  A column whose field is [null] keeps its previous value, and
    no call takes a column of the job that holds a value (technician,
    scheduled, start and end time, notes) back to [NULL]. *)
Theorem set_job_status_null_is_omitted (w : world) (id : Z) (b : job_patch) :
  run (put_jobs_id id b) w [] = run (put_jobs_id id (omit_nulls b)) w []
  /\ (forall j, jobs (database w) !! id = Some j ->
        exists j',
          jobs (database (run (put_jobs_id id b) w []).1.1) !! id = Some j'
          /\ (p_customer_id b = Null -> customer_id j' = customer_id j)
          /\ (p_technician_id b = Null -> technician_id j' = technician_id j)
          /\ (p_status b = Null -> status j' = status j)
          /\ (p_scheduled_time b = Null -> scheduled_time j' = scheduled_time j)
          /\ (p_start_time b = Null -> start_time j' = start_time j)
          /\ (p_end_time b = Null -> end_time j' = end_time j)
          /\ (p_notes b = Null -> notes j' = notes j)
          /\ (is_Some (technician_id j) -> is_Some (technician_id j'))
          /\ (is_Some (scheduled_time j) -> is_Some (scheduled_time j'))
          /\ (is_Some (start_time j) -> is_Some (start_time j'))
          /\ (is_Some (end_time j) -> is_Some (end_time j'))
          /\ (is_Some (notes j) -> is_Some (notes j'))).
Proof.
  split; [by rewrite put_jobs_id_omit_nulls |].
  intros j Hj.
  destruct (run (put_jobs_id id b) w []) as [[w' sent] r] eqn:Hrun. simpl.
  pose proof (put_jobs_id_jobs w id b w' sent r Hrun) as [_ Hrow].
  destruct Hrow as [Hsame | (j0 & Hj0 & Hnew)].
  - exists j. rewrite Hsame. split; [done |]. repeat (split; [done |]). done.
  - rewrite Hj in Hj0. injection Hj0 as <-.
    exists (update_job_row (now w) (update_params b) j). split; [done |]. simpl.
    repeat (split; [by intros -> |]).
    repeat split; intros [v Hv]; rewrite Hv; unfold COALESCE; case_match; eauto.
Qed.

Lemma set_job_status_null_is_omitted_witness :
  exists j',
    jobs (database (run (put_jobs_id 1 clear_notes) (at_time sample_db 100) []).1.1) !! 1
    = Some j'
    /\ notes j' = Some "bring ladder" /\ scheduled_time j' = Some 50.
Proof.
  destruct (proj2 (set_job_status_null_is_omitted (at_time sample_db 100) 1 clear_notes)
              scheduled_job eq_refl)
    as (j' & Hj' & _ & _ & _ & Hs & _ & _ & Hn & _).
  exists j'. split; [exact Hj' |].
  split; [exact (Hn eq_refl) | exact (Hs eq_refl)].
Defined.

(** ** Events *)







Lemma broadcast_domain_event (m : message) (clients : list client) :
  domain_event m -> broadcast m (Some clients) = Some (deliver m clients).
Proof.
  intros [[j ->] | [[j ->] | [[i ->] | [p ->]]]]; reflexivity.
Qed.


Lemma after_events_nil (c : client) : after_events [] c = c.
Proof.
  unfold after_events. destruct (decide (readyState c = OPEN)); [| done].
  destruct c. simpl. by rewrite app_nil_r.
Qed.

Lemma after_events_app (e1 e2 : list message) (c : client) :
  after_events e2 (after_events e1 c) = after_events (e1 ++ e2) c.
Proof.
  unfold after_events. destruct (decide (readyState c = OPEN)) as [Ho | Hn]; simpl.
  - rewrite decide_True by done. by rewrite app_assoc.
  - by rewrite decide_False.
Qed.

Lemma deliver_after_events (m : message) (clients : list client) :
  deliver m clients = map (after_events [m]) clients.
Proof.
  unfold deliver, after_events, send. apply map_ext. intros c.
  by destruct (decide (readyState c = OPEN)).
Qed.

















(** ** Concurrent completions *)

(** C1, on the code: two [PUT /jobs/1] that set status "completed" on a
    scheduled job without history row, in flight together.  When the
    database answers them in turn, both find the job "scheduled", both find
    no history row and both insert one: the job ends with two rows, and both
    handlers answer 200.  Run one after the other they leave one row, the
    same state as two calls of the handler alone.  Whatever the order of the
    eight statements, both answer 200 and the job ends with one or two
    rows. *)
Theorem concurrent_completions_duplicate_history :
  (rows_of_job_1 alternate = 2%nat /\ both_succeeded alternate = true)
  /\ (rows_of_job_1 one_after_the_other = 1%nat
      /\ both_succeeded one_after_the_other = true
      /\ (race one_after_the_other).1.1
         = (run (put_jobs_id 1 complete)
              (run (put_jobs_id 1 complete) (at_time sample_db 100) []).1.1 []).1.1)
  /\ Forall (fun s => both_succeeded s = true
                      /\ (rows_of_job_1 s = 1%nat \/ rows_of_job_1 s = 2%nat))
       (schedules 8 4 4).
Proof.
  split; [| split].
  - split; vm_compute; reflexivity.
  - repeat split; vm_compute; reflexivity.
  - assert (forallb (fun s => both_succeeded s
                       && (Nat.eqb (rows_of_job_1 s) 1 || Nat.eqb (rows_of_job_1 s) 2))
              (schedules 8 4 4) = true) as Hall by (vm_compute; reflexivity).
    apply Forall_forall. intros s Hs. rewrite forallb_forall in Hall.
    apply list_elem_of_In, Hall in Hs.
    apply andb_true_iff in Hs as [Hboth Hrows]. split; [exact Hboth |].
    apply orb_true_iff in Hrows as [Hr | Hr]; apply Nat.eqb_eq in Hr; auto.
Qed.

(** ** The interleaved and the sequential semantics agree *)

Lemma turns_halted {A} (n : nat) (p : prog A) w sent :
  halted p = true -> turns n p w sent = (w, sent, p).
Proof.
  intros Hp. induction n as [| n IH]; [done |].
  simpl. destruct p; try done; simpl; exact IH.
Qed.

Lemma turns_settle {A} (p : prog A) w sent (m : nat) :
  (let '(w1, s1, p1) := settle p w sent in turns m p1 w1 s1) = turns m p w sent
  \/ (let '(w1, s1, p1) := settle p w sent in turns m p1 w1 s1) = turns (S m) p w sent.
Proof.
  destruct p as [a | | a k | R q k]; simpl; auto.
Qed.

Lemma turns_adequate {A} (p : prog A) : forall w sent,
  exists n, forall m, (n <= m)%nat ->
    exists w' sent' p',
      turns m p w sent = (w', sent', p')
      /\ halted p' = true
      /\ run p w sent = (w', sent', result p').
Proof.
  induction p as [a | | a k IH | R q k IH]; intros w sent.
  - exists 0%nat. intros m _. rewrite turns_halted by done. by eexists _, _, _.
  - exists 0%nat. intros m _. rewrite turns_halted by done. by eexists _, _, _.
  - destruct (perform a w sent) as [w1 sent1] eqn:Hperf.
    destruct (IH w1 sent1) as [n Hn]. exists (S n). intros [| m] Hm; [lia |].
    simpl. rewrite Hperf.
    destruct (turns_settle k w1 sent1 m) as [-> | ->]; apply Hn; lia.
  - destruct (query q w) as [o w1] eqn:Hq.
    destruct (IH o w1 sent) as [n Hn]. exists (S n). intros [| m] Hm; [lia |].
    simpl. rewrite Hq.
    destruct (turns_settle (k o) w1 sent m) as [-> | ->]; apply Hn; lia.
Qed.

Lemma interleave_first (m : nat) (a b : task) (w : world) :
  interleave (replicate m First) a b w
  = (let '(w', sent', p') := turns m (code a) w (res a) in
     (w', {| code := p'; res := sent' |}, b)).
Proof.
  revert a w. induction m as [| m IH]; intros a w; simpl; [by destruct a |].
  destruct (resume (code a) w (res a)) as [[w1 s1] p1]. by rewrite IH.
Qed.

(** A handler given enough turns while the other waits ends as it does
    when run alone. *)
Lemma interleave_alone (p : prog unit) (b : task) (w : world) :
  exists n, forall m, (n <= m)%nat ->
    exists t,
      interleave (replicate m First) (spawn p) b w = ((run p w []).1.1, t, b)
      /\ finished t = true
      /\ res t = (run p w []).1.2
      /\ result (code t) = (run p w []).2.
Proof.
  destruct (turns_adequate p w []) as [n Hn]. exists n. intros m Hm.
  destruct (Hn m Hm) as (w' & sent' & p' & Hturns & Hhalt & Hrun).
  exists {| code := p'; res := sent' |}.
  rewrite interleave_first. simpl. rewrite Hturns, Hrun. done.
Qed.

(** ** One response per request, and no trace of a refused one *)

Ltac finish_outcome :=
  intros [= <- <- <-]; simpl;
  split; [done |]; eexists; split; [done |];
  first [ left; split; [unfold failure; simpl; auto | split; done]
        | right; split; [unfold success; simpl; auto |];
          eexists; split; [| reflexivity]; unfold domain_event; eauto 10 ].

Lemma put_jobs_id_outcome (w : world) (id : Z) (b : job_patch) w' sent res :
  run (put_jobs_id id b) w [] = (w', sent, res) ->
  res = Some tt
  /\ exists resp, sent = [resp]
     /\ ((failure (res_status resp) /\ database w' = database w /\ wss w' = wss w)
         \/ (success (res_status resp)
             /\ exists m, domain_event m /\ wss w' = broadcast m (wss w))).
Proof.
  unfold put_jobs_id. rewrite run_try_catch. unfold mbind, prog_bind.
  step_query; [finish_outcome |].
  unfold select_by_key.
  destruct (jobs (database w) !! id) as [j |] eqn:Hj; simpl; [| finish_outcome].
  step_query; [finish_outcome |].
  rewrite Hj.
  destruct (includes job_statuses _); simpl; [| finish_outcome].
  destruct (becomes_completed (p_status b) (status j)) eqn:Hb; simpl; [| finish_outcome].
  unfold record_service_history, mbind, prog_bind.
  step_query; [finish_outcome |].
  destruct (select_service_history _ id) as [| h hs] eqn:Hh; simpl; [| finish_outcome].
  step_query; [finish_outcome |].
  rewrite lookup_insert_eq. simpl. finish_outcome.
Qed.

Lemma post_jobs_outcome (w : world) (b : new_job) w' sent res :
  run (post_jobs b) w [] = (w', sent, res) ->
  res = Some tt
  /\ exists resp, sent = [resp]
     /\ ((failure (res_status resp) /\ database w' = database w /\ wss w' = wss w)
         \/ (success (res_status resp)
             /\ exists m, domain_event m /\ wss w' = broadcast m (wss w))).
Proof.
  unfold post_jobs.
  destruct (nj_customer_id b) as [| | customer]; [finish_outcome | finish_outcome |].
  destruct (nj_status b) as [| | st]; [finish_outcome | finish_outcome |].
  destruct (truthy_Z customer && truthy_string st); [| finish_outcome].
  destruct (includes job_statuses st) eqn:Hst; [| finish_outcome].
  rewrite run_try_catch. unfold mbind, prog_bind.
  step_query; [finish_outcome |].
  rewrite Hst. simpl. finish_outcome.
Qed.

Lemma post_jobs_id_invoice_outcome (w : world) id amount st due_at w' sent res :
  run (post_jobs_id_invoice id amount st due_at) w [] = (w', sent, res) ->
  res = Some tt
  /\ exists resp, sent = [resp]
     /\ ((failure (res_status resp) /\ database w' = database w /\ wss w' = wss w)
         \/ (success (res_status resp)
             /\ exists m, domain_event m /\ wss w' = broadcast m (wss w))).
Proof.
  unfold post_jobs_id_invoice.
  destruct amount as [| | amt]; [finish_outcome | finish_outcome |].
  destruct (includes invoice_statuses _) eqn:Hst; [| finish_outcome].
  rewrite run_try_catch. unfold mbind, prog_bind.
  step_query; [finish_outcome |].
  unfold select_by_key.
  destruct (jobs (database w) !! id) as [j |] eqn:Hj; simpl; [| finish_outcome].
  step_query; [finish_outcome |].
  rewrite Hj, Hst. simpl. finish_outcome.
Qed.

Lemma post_invoices_outcome (w : world) job_id amount st due_at w' sent res :
  run (post_invoices job_id amount st due_at) w [] = (w', sent, res) ->
  res = Some tt
  /\ exists resp, sent = [resp]
     /\ ((failure (res_status resp) /\ database w' = database w /\ wss w' = wss w)
         \/ (success (res_status resp)
             /\ exists m, domain_event m /\ wss w' = broadcast m (wss w))).
Proof.
  unfold post_invoices.
  destruct job_id as [| | jid]; [finish_outcome | finish_outcome |].
  destruct amount as [| | amt]; [finish_outcome | finish_outcome |].
  destruct st as [| | s]; [finish_outcome | finish_outcome |].
  destruct (truthy_Z jid && truthy_string s); [| finish_outcome].
  destruct (includes invoice_statuses s) eqn:Hst; [| finish_outcome].
  rewrite run_try_catch. unfold mbind, prog_bind.
  step_query; [finish_outcome |].
  destruct (jobs (database w) !! jid) as [j |] eqn:Hj; simpl; [| finish_outcome].
  rewrite Hst. simpl. finish_outcome.
Qed.

Lemma post_payments_outcome (w : world) invoice_id amount method w' sent res :
  run (post_payments invoice_id amount method) w [] = (w', sent, res) ->
  res = Some tt
  /\ exists resp, sent = [resp]
     /\ ((failure (res_status resp) /\ database w' = database w /\ wss w' = wss w)
         \/ (success (res_status resp)
             /\ exists m, domain_event m /\ wss w' = broadcast m (wss w))).
Proof.
  unfold post_payments.
  destruct invoice_id as [| | iid]; [finish_outcome | finish_outcome |].
  destruct amount as [| | amt]; [finish_outcome | finish_outcome |].
  destruct method as [| | m]; [finish_outcome | finish_outcome |].
  destruct (truthy_Z iid && truthy_string m); [| finish_outcome].
  rewrite run_try_catch. unfold mbind, prog_bind.
  step_query; [finish_outcome |].
  destruct (invoices (database w) !! iid) as [i |] eqn:Hi; simpl; finish_outcome.
Qed.

Lemma calculate_loop_outcome items : forall total breakdown w sent,
  exists w',
    database w' = database w /\ wss w' = wss w /\ console w' = console w
    /\ (run (calculate_loop items total breakdown) w sent = (w', sent, None)
        \/ exists resp,
             run (calculate_loop items total breakdown) w sent
             = (w', sent ++ [resp], Some tt)
             /\ (res_status resp = 200 \/ res_status resp = 400)).
Proof.
  induction items as [| entry rest IH]; intros total breakdown w sent.
  - exists w. repeat (split; [done |]). right. eexists. split; [done |]. by left.
  - simpl. destruct (line_fields entry) as [[id q] |] eqn:Hfields.
    2:{ exists w. repeat (split; [done |]). right. eexists. split; [done |]. by right. }
    rewrite run_Await.
    destruct (query_cases (SelectPricebookItem id) w) as [-> | ->]; simpl.
    { eexists. split; [| split; [| split; [| by left]]]; done. }
    unfold select_by_key.
    destruct (pricebook_items (database w) !! id) as [pbItem |] eqn:Hitem; simpl.
    2:{ eexists. split; [| split; [| split; [| right; eexists; split; [done |]; by right]]]; done. }
    rewrite ?run_Await.
    match goal with |- context [query ?q ?w1] =>
      destruct (query_cases q w1) as [-> | ->] end; simpl.
    { eexists. split; [| split; [| split; [| by left]]]; done. }
    match goal with |- context [run (calculate_loop rest ?t ?b) ?w1 sent] =>
      destruct (IH t b w1 sent) as (w' & Hdb & Hwss & Hcon & Hrun) end.
    exists w'. repeat (split; [done |]). exact Hrun.
Qed.

Lemma estimate_loop_outcome job_id items : forall total breakdown w sent,
  exists w',
    database w' = database w /\ wss w' = wss w /\ console w' = console w
    /\ (run (estimate_loop job_id items total breakdown) w sent = (w', sent, None)
        \/ exists resp,
             run (estimate_loop job_id items total breakdown) w sent
             = (w', sent ++ [resp], Some tt)
             /\ (res_status resp = 200 \/ res_status resp = 400)).
Proof.
  induction items as [| entry rest IH]; intros total breakdown w sent.
  - exists w. repeat (split; [done |]). right. eexists. split; [done |]. by left.
  - simpl. destruct (line_fields entry) as [[id q] |] eqn:Hfields.
    2:{ exists w. repeat (split; [done |]). right. eexists. split; [done |]. by right. }
    rewrite run_Await.
    destruct (query_cases (SelectPricebookItem id) w) as [-> | ->]; simpl.
    { eexists. split; [| split; [| split; [| by left]]]; done. }
    unfold select_by_key.
    destruct (pricebook_items (database w) !! id) as [pbItem |] eqn:Hitem; simpl.
    2:{ eexists. split; [| split; [| split; [| right; eexists; split; [done |]; by right]]]; done. }
    match goal with |- context [run (estimate_loop job_id rest ?t ?b) ?w1 sent] =>
      destruct (IH t b w1 sent) as (w' & Hdb & Hwss & Hcon & Hrun) end.
    exists w'. repeat (split; [done |]). exact Hrun.
Qed.

Lemma post_pricebook_calculate_outcome (items : option (list line)) (w : world) :
  exists w' resp,
    run (post_pricebook_calculate items) w [] = (w', [resp], Some tt)
    /\ database w' = database w /\ wss w' = wss w
    /\ (res_status resp = 200 \/ failure (res_status resp)).
Proof.
  destruct items as [[| entry rest] |].
  - eexists _, _. split; [reflexivity |]. repeat (split; [done |]).
    right. by left.
  - unfold post_pricebook_calculate. rewrite run_try_catch.
    destruct (calculate_loop_outcome (entry :: rest) 0%float [] w [])
      as (w' & Hdb & Hwss & Hcon & [-> | (resp & -> & Hst)]).
    + eexists _, _. split; [reflexivity |]. simpl. repeat (split; [done |]).
      right. right. by right.
    + exists w', resp. split; [done |]. repeat (split; [done |]).
      destruct Hst as [-> | ->]; [by left | right; by left].
  - eexists _, _. split; [reflexivity |]. repeat (split; [done |]).
    right. by left.
Qed.

Lemma post_jobs_id_estimate_outcome (id : Z) (items : option (list line)) (w : world) :
  exists w' resp,
    run (post_jobs_id_estimate id items) w [] = (w', [resp], Some tt)
    /\ database w' = database w /\ wss w' = wss w
    /\ (res_status resp = 200 \/ failure (res_status resp)).
Proof.
  destruct items as [[| entry rest] |].
  - eexists _, _. split; [reflexivity |]. repeat (split; [done |]).
    right. by left.
  - unfold post_jobs_id_estimate. rewrite run_try_catch.
    unfold mbind, prog_bind. rewrite run_bind, run_await.
    remember (estimate_loop id (entry :: rest) 0%float []) as loop eqn:Hloop.
    destruct (query_cases (SelectJob id) w) as [-> | ->]; simpl.
    + eexists _, _. split; [reflexivity |]. simpl. repeat (split; [done |]).
      right. right. by right.
    + unfold select_by_key.
      destruct (jobs (database w) !! id) as [j |] eqn:Hj; simpl.
      * subst loop.
        match goal with |- context [run (estimate_loop id ?l ?t ?b) ?w1 []] =>
          destruct (estimate_loop_outcome id l t b w1 [])
            as (w' & Hdb & Hwss & Hcon & [Hrun | (resp & Hrun & Hst)]) end;
          rewrite Hrun.
        -- eexists _, _. split; [reflexivity |]. simpl. repeat (split; [done |]).
           right. right. by right.
        -- exists w', resp. split; [done |]. repeat (split; [done |]).
           destruct Hst as [-> | ->]; [by left | right; by left].
      * eexists _, _. split; [reflexivity |]. repeat (split; [done |]).
        right. right. by left.
  - eexists _, _. split; [reflexivity |]. repeat (split; [done |]).
    right. by left.
Qed.

Lemma handle_outcome (r : request) (w : world) w' sent res :
  run (handle r) w [] = (w', sent, res) ->
  res = Some tt
  /\ exists resp, sent = [resp]
     /\ ((failure (res_status resp) /\ database w' = database w /\ wss w' = wss w)
         \/ (success (res_status resp)
             /\ exists m, domain_event m /\ wss w' = broadcast m (wss w))).
Proof.
  destruct r; unfold handle.
  - apply post_jobs_outcome.
  - apply put_jobs_id_outcome.
  - apply post_jobs_id_invoice_outcome.
  - apply post_invoices_outcome.
  - apply post_payments_outcome.
Qed.

Lemma success_not_failure (s : Z) : success s -> failure s -> False.
Proof. unfold success, failure. lia. Qed.

(** X1. Each of the seven routes ([POST /jobs], [PUT /jobs/:id],
    [POST /jobs/:id/invoice], [POST /invoices], [POST /payments],
    [POST /pricebook/calculate] and [POST /jobs/:id/estimate]), on every
    input and whatever the database rejects, ends without an uncaught
    exception and writes exactly one response, with status 200, 201, 400,
    404 or 500. *)
Theorem every_request_is_answered_once (r : route) (w : world) :
  exists w' resp,
    run (serve_route r) w [] = (w', [resp], Some tt)
    /\ (success (res_status resp) \/ failure (res_status resp)).
Proof.
  destruct r as [r | items | id items]; simpl.
  - destruct (run (handle r) w []) as [[w' sent] res] eqn:Hrun.
    destruct (handle_outcome r w w' sent res Hrun)
      as (-> & resp & -> & [(Hf & _) | (Hs & _)]); exists w', resp; auto.
  - destruct (post_pricebook_calculate_outcome items w)
      as (w' & resp & Hrun & _ & _ & [Hs | Hf]); exists w', resp.
    + split; [done |]. left. by left.
    + split; [done |]. by right.
  - destruct (post_jobs_id_estimate_outcome id items w)
      as (w' & resp & Hrun & _ & _ & [Hs | Hf]); exists w', resp.
    + split; [done |]. left. by left.
    + split; [done |]. by right.
Qed.

(** X2. A request to one of these seven routes that is answered with 400,
    404 or 500 has changed no table and has sent nothing to the observers. *)
Theorem refused_request_leaves_no_trace (r : route) (w w' : world)
    (resp : response) (res : option unit)
    (Hrun : run (serve_route r) w [] = (w', [resp], res))
    (Hrefused : failure (res_status resp)) :
  database w' = database w /\ wss w' = wss w.
Proof.
  destruct r as [r | items | id items]; simpl in Hrun.
  - destruct (handle_outcome r w w' [resp] res Hrun)
      as (_ & resp' & [= <-] & [(_ & Hdb & Hwss) | (Hs & _)]); [done |].
    exfalso. by eapply success_not_failure.
  - destruct (post_pricebook_calculate_outcome items w)
      as (w1 & resp1 & Hrun1 & Hdb & Hwss & _).
    rewrite Hrun1 in Hrun. by injection Hrun as <- <- <-.
  - destruct (post_jobs_id_estimate_outcome id items w)
      as (w1 & resp1 & Hrun1 & Hdb & Hwss & _).
    rewrite Hrun1 in Hrun. by injection Hrun as <- <- <-.
Qed.

Lemma refused_request_leaves_no_trace_witness :
  database (run (put_jobs_id 99 complete) (at_time sample_db 100) []).1.1 = sample_db.
Proof.
  apply (refused_request_leaves_no_trace (Writing (PutJobsId 99 complete))
           (at_time sample_db 100) _
           {| res_status := 404; res_body := BError "Job not found" |} (Some tt)).
  - vm_compute. reflexivity.
  - right. by left.
Defined.

(** X3. The two pricing routes only read: whatever the input and the
    faults, they change no table and send nothing to the observers. *)
Theorem pricing_routes_only_read (w : world) (items : option (list line)) (id : Z) :
  let c := (run (post_pricebook_calculate items) w []).1.1 in
  let e := (run (post_jobs_id_estimate id items) w []).1.1 in
  database c = database w /\ wss c = wss w
  /\ database e = database w /\ wss e = wss w.
Proof.
  destruct (post_pricebook_calculate_outcome items w) as (w1 & r1 & -> & Hd1 & Hw1 & _).
  destruct (post_jobs_id_estimate_outcome id items w) as (w2 & r2 & -> & Hd2 & Hw2 & _).
  done.
Qed.

(** X4. A writing route that answers 200 or 201 has announced it with
    exactly one event to the open sockets, and one that answers anything
    else has announced nothing. *)
Theorem write_announced_iff_success (r : request) (w : world) (clients : list client)
    (Hwss : wss w = Some clients) :
  exists w' resp,
    run (handle r) w [] = (w', [resp], Some tt)
    /\ ((success (res_status resp)
         /\ exists m, domain_event m /\ wss w' = Some (deliver m clients))
        \/ (failure (res_status resp) /\ wss w' = Some clients)).
Proof.
  destruct (run (handle r) w []) as [[w' sent] res] eqn:Hrun.
  destruct (handle_outcome r w w' sent res Hrun)
    as (-> & resp & -> & [(Hf & _ & Hsame) | (Hs & m & Hm & Hsent)]);
    exists w', resp; (split; [done |]).
  - right. split; [done |]. by rewrite Hsame.
  - left. split; [done |]. exists m. split; [done |].
    rewrite Hsent, Hwss. by apply broadcast_domain_event.
Qed.

Lemma write_announced_iff_success_witness :
  exists w' resp,
    run (handle (PutJobsId 1 complete)) observed [] = (w', [resp], Some tt)
    /\ ((success (res_status resp)
         /\ exists m, domain_event m
              /\ wss w' = Some (deliver m [send (JSON_stringify welcome)
                                             {| readyState := OPEN; received := [] |}]))
        \/ (failure (res_status resp)
            /\ wss w' = Some [send (JSON_stringify welcome)
                                {| readyState := OPEN; received := [] |}])).
Proof. apply (write_announced_iff_success (PutJobsId 1 complete) observed _ eq_refl). Defined.

(** ** Estimates *)

Lemma run_estimate_loop w job_id items lines total breakdown sent :
  faults w = [] ->
  Forall2 (estimated (database w)) items lines ->
  run (estimate_loop job_id items total breakdown) w sent
  = (w, sent ++ [{| res_status := 200;
                    res_body := BEstimate job_id
                      (fold_left (fun t l => PrimFloat.add t (el_total_price l)) lines total)
                      (breakdown ++ lines) |}], Some tt).
Proof.
  intros Hf Hlines. revert total breakdown.
  induction Hlines as [| entry l items lines Hl _ IH]; intros total breakdown.
  - simpl. by rewrite app_nil_r.
  - destruct Hl as (id & q & pbItem & Hfields & Hitem & ->). simpl. rewrite Hfields.
    rewrite run_Await, query_select_item by done.
    unfold select_by_key. rewrite Hitem. simpl.
    unfold estimate_entry in IH |- *. rewrite IH. by rewrite <- app_assoc.
Qed.

(** X5. For an existing job and a non-empty list of lines that all carry
    [item_id] and [quantity] and name existing items, against a healthy
    database, [POST /jobs/:id/estimate] answers 200 with the job id, one
    entry per line priced at the item's own labour rate plus parts cost
    (no tier, no markup, no rate version), and the line totals added in order
    from 0; it changes nothing. *)
Theorem estimate_job_totals (w : world) (id : Z) (j : job) (entry : line)
    (rest : list line) (lines : list estimate_line)
    (Hfaults : faults w = [])
    (Hjob : jobs (database w) !! id = Some j)
    (Hlines : Forall2 (estimated (database w)) (entry :: rest) lines) :
  run (post_jobs_id_estimate id (Some (entry :: rest))) w []
  = (w, [{| res_status := 200;
            res_body := BEstimate id (sum_estimates lines) lines |}], Some tt).
Proof.
  unfold post_jobs_id_estimate. rewrite run_try_catch.
  unfold mbind, prog_bind. rewrite run_bind, run_await, query_select_job by done.
  unfold select_by_key. rewrite Hjob.
  by rewrite (run_estimate_loop w id (entry :: rest) lines).
Qed.

Lemma estimate_job_totals_witness :
  run (post_jobs_id_estimate 1 (Some [two_drains])) (at_time versioned_db 25) []
  = (at_time versioned_db 25,
     [{| res_status := 200;
         res_body := BEstimate 1 (sum_estimates
           [{| el_item_id := 1; el_name := "Drain cleaning"; el_quantity := 2%float;
               el_unit_price := 100%float; el_total_price := 200%float |}])
           [{| el_item_id := 1; el_name := "Drain cleaning"; el_quantity := 2%float;
               el_unit_price := 100%float; el_total_price := 200%float |}] |}],
     Some tt).
Proof.
  apply (estimate_job_totals (at_time versioned_db 25) 1 scheduled_job two_drains []).
  - reflexivity.
  - reflexivity.
  - constructor; [| constructor].
    exists 1, 2%float, drain_cleaning. repeat split; vm_compute; reflexivity.
Defined.

(** X6. [POST /jobs/:id/estimate] refuses a missing or empty list of lines
    with 400 before it looks at anything else, and with a healthy database
    refuses a job that does not exist with 404 "Job not found" whatever the
    lines contain. *)
Theorem estimate_job_refusals (w : world) (id : Z) :
  run (post_jobs_id_estimate id None) w []
  = (w, [{| res_status := 400; res_body := BError "items array is required" |}], Some tt)
  /\ run (post_jobs_id_estimate id (Some [])) w []
     = (w, [{| res_status := 400; res_body := BError "items array is required" |}], Some tt)
  /\ (faults w = [] -> jobs (database w) !! id = None ->
      forall entry rest,
        run (post_jobs_id_estimate id (Some (entry :: rest))) w []
        = (w, [{| res_status := 404; res_body := BError "Job not found" |}], Some tt)).
Proof.
  split; [done |]. split; [done |].
  intros Hf Hjob entry rest.
  unfold post_jobs_id_estimate. rewrite run_try_catch.
  unfold mbind, prog_bind. rewrite run_bind, run_await, query_select_job by done.
  unfold select_by_key. by rewrite Hjob.
Qed.

Lemma estimate_job_refusals_witness :
  run (post_jobs_id_estimate 99 (Some [missing_item])) (at_time sample_db 100) []
  = (at_time sample_db 100,
     [{| res_status := 404; res_body := BError "Job not found" |}], Some tt).
Proof.
  apply (proj2 (proj2 (estimate_job_refusals (at_time sample_db 100) 99))); reflexivity.
Defined.

(** ** Status changes *)

Lemma includes_true (l : list string) (s : string) : s ∈ l -> includes l s = true.
Proof. intros Hs. unfold includes. by apply bool_decide_eq_true_2. Qed.

Lemma includes_false (l : list string) (s : string) : s ∉ l -> includes l s = false.
Proof. intros Hs. unfold includes. by apply bool_decide_eq_false_2. Qed.

(** X7. [PUT /jobs/:id] imposes no order on the statuses: with a healthy
    database, a patch whose status is one of the four is accepted on an
    existing job whatever its current status, and the job then has that
    status.  A patch whose status is any other text is not refused by the
    handler but rejected by the table's [CHECK]: the answer is 500 and the
    job is unchanged, where [POST /jobs] answers 400 for the same text. *)
Theorem job_status_any_to_any (w : world) (id : Z) (b : job_patch) (j : job) (s : string)
    (Hfaults : faults w = [])
    (Hjob : jobs (database w) !! id = Some j)
    (Hstatus : p_status b = Val s) :
  (s ∈ job_statuses ->
   exists j',
     responses (put_jobs_id id b) w
     = [{| res_status := 200; res_body := BJob (Some (id, j')) |}]
     /\ status j' = s
     /\ jobs (database (run (put_jobs_id id b) w []).1.1) !! id = Some j')
  /\ (s ∉ job_statuses ->
      run (put_jobs_id id b) w []
      = (logged_error w,
         [{| res_status := 500; res_body := BError "Internal server error" |}], Some tt)
      /\ forall nb, nj_status nb = Val s ->
           exists e, run (post_jobs nb) w []
                     = (w, [{| res_status := 400; res_body := BError e |}], Some tt)).
Proof.
  split.
  - intros Hs. exists (update_job_row (now w) (update_params b) j).
    assert (includes job_statuses (status (update_job_row (now w) (update_params b) j))
            = true) as Hcheck.
    { simpl. rewrite Hstatus. simpl. by apply includes_true. }
    unfold responses. rewrite (run_put_jobs_id_healthy w id b j Hfaults Hjob Hcheck).
    simpl. split; [done |]. split; [by rewrite Hstatus |].
    unfold tables_after_put. repeat case_match; simpl; by rewrite lookup_insert_eq.
  - intros Hs. split.
    + unfold put_jobs_id. rewrite run_try_catch. unfold mbind, prog_bind.
      rewrite run_bind, run_await, query_select_job by done.
      unfold select_by_key. rewrite Hjob. simpl.
      rewrite ?run_Await, ?run_bind, ?run_await. rewrite query_healthy by done. simpl.
      rewrite Hjob, Hstatus. simpl. rewrite includes_false by done. simpl.
      unfold logged_error. simpl. by rewrite Hfaults.
    + intros nb Hnb. unfold post_jobs. rewrite Hnb.
      destruct (nj_customer_id nb) as [| | c]; [by eexists | by eexists |].
      destruct (truthy_Z c && truthy_string s); [| by eexists].
      rewrite includes_false by done. by eexists.
Qed.

Lemma job_status_any_to_any_witness :
  exists j',
    responses (put_jobs_id 1 (only_status "cancelled")) (at_time sample_db 100)
    = [{| res_status := 200; res_body := BJob (Some (1, j')) |}]
    /\ status j' = "cancelled"
    /\ jobs (database (run (put_jobs_id 1 (only_status "cancelled"))
                         (at_time sample_db 100) []).1.1) !! 1 = Some j'.
Proof.
  apply (proj1 (job_status_any_to_any (at_time sample_db 100) 1 (only_status "cancelled")
                  scheduled_job "cancelled" eq_refl eq_refl eq_refl)).
  unfold job_statuses. set_solver.
Defined.

(** ** Creating jobs, invoices and payments *)

Lemma or_null_Z_spec (x : field Z) :
  or_null_Z x = match x with
                | Val t => if decide (t = 0) then None else Some t
                | _ => None
                end.
Proof.
  destruct x as [| | t]; simpl; try done. unfold truthy_Z.
  destruct (decide (t = 0)) as [-> | Hne]; [done |].
  by destruct (Z.eqb_spec t 0).
Qed.

(** X8. [POST /jobs] with a non-zero customer and a status among the four
    sends one [INSERT], and the answer of the store decides.  When the store
    accepts it, which PostgreSQL does only for a customer, and a technician
    when one is given, that exist, the route answers 201 with the new row: it
    is stored under the next id of the sequence with the given customer,
    status and scheduled time, technician [0] and empty notes as [NULL], no
    start or end time, and both timestamps at the current time; when that id
    is not in use, every job that existed is still there unchanged, and the
    new job can be read back by its id.  When the store rejects it, as it
    does for a [customer_id] or [technician_id] that names no row, the route
    answers 500 "Internal server error", stores no job and sends nothing to
    the observers. *)
Theorem create_job_stores_row (w : world) (b : new_job) (customer : Z) (st : string)
    (Hcustomer : nj_customer_id b = Val customer)
    (Hnonzero : customer <> 0)
    (Hstatus : nj_status b = Val st)
    (Hvalid : st ∈ job_statuses) :
  let id := jobs_id_seq (database w) in
  let j := created_job (now w) customer st b in
  let w' := (run (post_jobs b) w []).1.1 in
  (head (faults w) <> Some true ->
   responses (post_jobs b) w = [{| res_status := 201; res_body := BJob (Some (id, j)) |}]
   /\ select_by_key (jobs (database w')) id = [(id, j)]
   /\ jobs_id_seq (database w') = id + 1
   /\ (jobs (database w) !! id = None ->
       forall id' j', jobs (database w) !! id' = Some j' ->
                      jobs (database w') !! id' = Some j'))
  /\ (head (faults w) = Some true ->
      responses (post_jobs b) w
      = [{| res_status := 500; res_body := BError "Internal server error" |}]
      /\ database w' = database w
      /\ wss w' = wss w).
Proof.
  intros id j w'. subst w'. unfold responses.
  assert (run (post_jobs b) w []
          = run (try_catch
                   (result ← await (InsertJob customer (or_null_Z (nj_technician_id b)) st
                                      (or_null_timestamp (nj_scheduled_time b))
                                      (or_null (nj_notes b)));
                    _ ← res_json 201 (BJob (head result));
                    do_broadcast (job_created (head result)))
                   internal_error) w []) as ->.
  { unfold post_jobs. rewrite Hcustomer, Hstatus.
    assert (truthy_Z customer && truthy_string st = true) as ->.
    { apply andb_true_iff. split.
      - unfold truthy_Z. by destruct (Z.eqb_spec customer 0).
      - unfold truthy_string. destruct (decide (st = "")) as [-> | _]; [| done].
        exfalso. unfold job_statuses in Hvalid.
        repeat (apply elem_of_cons in Hvalid as [Hvalid | Hvalid]; [discriminate |]).
        by apply elem_of_nil in Hvalid. }
    by rewrite includes_true by done. }
  rewrite run_try_catch. unfold mbind, prog_bind. rewrite run_bind, run_await.
  split.
  - intros Haccepted.
    assert (query (InsertJob customer (or_null_Z (nj_technician_id b)) st
                     (or_null_timestamp (nj_scheduled_time b)) (or_null (nj_notes b))) w
            = (Resolved [(id, j)],
               set_database w
                 (set_jobs (database w) (<[id := j]> (jobs (database w))) (id + 1))
                 (tail (faults w)))) as ->.
    { unfold query.
      assert (exec (InsertJob customer (or_null_Z (nj_technician_id b)) st
                      (or_null_timestamp (nj_scheduled_time b)) (or_null (nj_notes b)))
                (now w) (database w)
              = (Resolved [(id, j)],
                 set_jobs (database w) (<[id := j]> (jobs (database w))) (id + 1)))
        as Hexec.
      { simpl. rewrite includes_true by done. subst id j. unfold created_job.
        by rewrite or_null_Z_spec, or_null_given. }
      destruct (faults w) as [| [|] fs]; [| done |]; by rewrite Hexec. }
    simpl. split; [done |]. split.
    { unfold select_by_key. by rewrite lookup_insert_eq. }
    split; [done |].
    intros Hfresh id' j' Hj'. rewrite lookup_insert_ne; [done |].
    intros <-. by rewrite Hfresh in Hj'.
  - intros Hrejected. unfold query.
    destruct (faults w) as [| [|] fs]; try done.
Qed.

Lemma create_job_stores_row_witness :
  responses (post_jobs new_scheduled_job) (at_time sample_db 100)
  = [{| res_status := 201;
        res_body := BJob (Some (2, {| customer_id := 8; technician_id := None;
                                      status := "scheduled"; scheduled_time := Some 120;
                                      start_time := None; end_time := None;
                                      notes := None; created_at := 100;
                                      updated_at := 100 |})) |}].
Proof.
  apply (proj1 (create_job_stores_row (at_time sample_db 100) new_scheduled_job 8
                  "scheduled" eq_refl ltac:(discriminate) eq_refl
                  ltac:(unfold job_statuses; set_solver))).
  discriminate.
Defined.

(** X9. With a healthy database and an existing job, [POST /jobs/:id/invoice]
    with an amount and no status (missing, [null] or empty) answers 201 with
    an invoice of status "draft" for that job, issued at the current time and
    stored under the next id of the sequence; [POST /invoices] refuses the
    same missing status with 400 and stores nothing. *)
Theorem job_invoice_defaults_to_draft (w : world) (id amount : Z) (st : field string)
    (due_at : field Z) (j : job)
    (Hfaults : faults w = [])
    (Hjob : jobs (database w) !! id = Some j)
    (Hstatus : no_status st) :
  let i := created_invoice (now w) id amount "draft" due_at in
  let w' := (run (post_jobs_id_invoice id (Val amount) st due_at) w []).1.1 in
  responses (post_jobs_id_invoice id (Val amount) st due_at) w
  = [{| res_status := 201;
        res_body := BInvoice (Some (invoices_id_seq (database w), i)) |}]
  /\ invoices (database w') !! invoices_id_seq (database w) = Some i
  /\ run (post_invoices (Val id) (Val amount) st due_at) w []
     = (w, [{| res_status := 400;
               res_body := BError "job_id, amount and status are required" |}], Some tt).
Proof.
  intros i w'. subst w'. unfold responses.
  assert (or_literal (to_sql st) "draft" = "draft") as Hdraft.
  { destruct st as [| | s]; simpl in *; [done | done |]. by subst s. }
  assert (run (post_jobs_id_invoice id (Val amount) st due_at) w []
          = ({| database := set_invoices (database w)
                              (<[invoices_id_seq (database w) := i]> (invoices (database w)))
                              (invoices_id_seq (database w) + 1);
                now := now w; faults := []; console := console w;
                wss := broadcast (invoice_created (Some (invoices_id_seq (database w), i)))
                         (wss w) |},
             [{| res_status := 201;
                 res_body := BInvoice (Some (invoices_id_seq (database w), i)) |}],
             Some tt)) as ->.
  { unfold post_jobs_id_invoice. rewrite Hdraft.
    assert (includes invoice_statuses "draft" = true) as -> by reflexivity.
    rewrite run_try_catch. unfold mbind, prog_bind.
    rewrite run_bind, run_await, query_select_job by done.
    unfold select_by_key. rewrite Hjob. simpl.
    rewrite ?run_Await, ?run_bind, ?run_await. rewrite query_healthy by done. simpl.
    by rewrite Hjob. }
  simpl. split; [done |]. split; [by rewrite lookup_insert_eq |].
  unfold post_invoices.
  destruct st as [| | s]; simpl in *; [done | done |]. subst s.
  by rewrite andb_false_r.
Qed.

Lemma job_invoice_defaults_to_draft_witness :
  responses (post_jobs_id_invoice 1 (Val 23000) Undefined Undefined) (at_time sample_db 100)
  = [{| res_status := 201;
        res_body := BInvoice (Some (1, {| inv_job_id := 1; inv_amount := 23000;
                                          inv_status := "draft"; inv_issued_at := 100;
                                          inv_due_at := None; inv_created_at := 100;
                                          inv_updated_at := 100 |})) |}].
Proof.
  apply (job_invoice_defaults_to_draft (at_time sample_db 100) 1 23000 Undefined Undefined
           scheduled_job eq_refl eq_refl I).
Defined.

(** X10. For a job that does not exist, with a healthy database,
    [POST /jobs/:id/invoice] answers 404 "Job not found" while
    [POST /invoices] with a valid status lets the foreign key reject the
    insert and answers 500; neither stores an invoice. *)
Theorem invoice_for_missing_job (w : world) (id amount : Z) (st : string)
    (due_at : field Z)
    (Hfaults : faults w = [])
    (Hjob : jobs (database w) !! id = None)
    (Hid : id <> 0)
    (Hvalid : st ∈ invoice_statuses) :
  run (post_jobs_id_invoice id (Val amount) (Val st) due_at) w []
  = (w, [{| res_status := 404; res_body := BError "Job not found" |}], Some tt)
  /\ run (post_invoices (Val id) (Val amount) (Val st) due_at) w []
     = (logged_error w,
        [{| res_status := 500; res_body := BError "Internal server error" |}], Some tt).
Proof.
  assert (truthy_string st = true) as Hst.
  { unfold truthy_string. destruct (decide (st = "")) as [-> | _]; [| done].
    exfalso. unfold invoice_statuses in Hvalid.
    repeat (apply elem_of_cons in Hvalid as [Hvalid | Hvalid]; [discriminate |]).
    by apply elem_of_nil in Hvalid. }
  split.
  - unfold post_jobs_id_invoice.
    assert (or_literal (to_sql (Val st)) "draft" = st) as ->
      by (simpl; unfold or_literal; by rewrite Hst).
    rewrite includes_true by done.
    rewrite run_try_catch. unfold mbind, prog_bind.
    rewrite run_bind, run_await, query_select_job by done.
    unfold select_by_key. by rewrite Hjob.
  - unfold post_invoices. rewrite Hst.
    assert (truthy_Z id = true) as -> by (unfold truthy_Z; by destruct (Z.eqb_spec id 0)).
    cbn [andb]. rewrite includes_true by done.
    rewrite run_try_catch. unfold mbind, prog_bind.
    rewrite run_bind, run_await, query_healthy by done. simpl.
    rewrite Hjob. simpl. unfold logged_error. simpl. by rewrite Hfaults.
Qed.

Lemma invoice_for_missing_job_witness :
  run (post_invoices (Val 99) (Val 5000) (Val "sent") Undefined) (at_time sample_db 100) []
  = (logged_error (at_time sample_db 100),
     [{| res_status := 500; res_body := BError "Internal server error" |}], Some tt).
Proof.
  apply (proj2 (invoice_for_missing_job (at_time sample_db 100) 99 5000 "sent" Undefined
                  eq_refl eq_refl ltac:(discriminate) ltac:(unfold invoice_statuses; set_solver))).
Defined.

Ltac finish_payment :=
  intros [= <- <- <-]; simpl;
  repeat (split; [done |]);
  first [ by left | right; eexists; split; [reflexivity |]; done ].

(** X11. Recording a payment never touches the invoice it pays, nor any
    job or history row: in every run of [POST /payments] the [invoices],
    [jobs] and [service_history] tables are as before, and [payments] is
    either unchanged or has gained one row, paid at the current time, for an
    invoice that exists. *)
Theorem payment_leaves_invoice_alone (w : world) (invoice_id amount : field Z)
    (method : field string) :
  let w' := (run (post_payments invoice_id amount method) w []).1.1 in
  invoices (database w') = invoices (database w)
  /\ jobs (database w') = jobs (database w)
  /\ service_history (database w') = service_history (database w)
  /\ (payments (database w') = payments (database w)
      \/ exists p,
           payments (database w') = payments (database w) ++ [p]
           /\ pay_paid_at p = now w
           /\ pay_id p = payments_id_seq (database w)
           /\ is_Some (invoices (database w) !! pay_invoice_id p)).
Proof.
  intros w'. subst w'.
  destruct (run (post_payments invoice_id amount method) w []) as [[w' sent] res] eqn:Hrun.
  simpl. revert Hrun. unfold post_payments.
  destruct invoice_id as [| | iid]; [finish_payment | finish_payment |].
  destruct amount as [| | amt]; [finish_payment | finish_payment |].
  destruct method as [| | m]; [finish_payment | finish_payment |].
  destruct (truthy_Z iid && truthy_string m); [| finish_payment].
  rewrite run_try_catch. unfold mbind, prog_bind.
  step_query; [finish_payment |].
  destruct (invoices (database w) !! iid) as [i |] eqn:Hi; simpl; [| finish_payment].
  intros [= <- <- <-]. simpl. repeat (split; [done |]).
  right. eexists. split; [reflexivity |]. simpl. by rewrite Hi.
Qed.

(** ** Repeating an update *)

Lemma COALESCE_twice {A} (p x : option A) : COALESCE p (COALESCE p x) = COALESCE p x.
Proof. by destruct p. Qed.

Lemma COALESCE_not_null_twice {A} (p : option A) (x : A) :
  COALESCE_not_null p (COALESCE_not_null p x) = COALESCE_not_null p x.
Proof. by destruct p. Qed.

Lemma update_job_row_twice (t1 t2 : Z) (p : job_params) (j : job) :
  update_job_row t2 p (update_job_row t1 p j) = update_job_row t2 p j.
Proof.
  unfold update_job_row. simpl.
  by rewrite !COALESCE_twice, !COALESCE_not_null_twice.
Qed.

Lemma becomes_completed_after (b : job_patch) (t : Z) (j : job) :
  becomes_completed (p_status b) (status (update_job_row t (update_params b) j)) = false.
Proof.
  unfold becomes_completed. simpl.
  destruct (p_status b) as [| | s]; simpl; try done.
  destruct (truthy_string s); simpl; [| done].
  destruct (bool_decide (s = "completed")) eqn:Hs; simpl; [| done].
  apply bool_decide_eq_true_1 in Hs. by subst s.
Qed.

(** X12. Sending the same [PUT /jobs/:id] again is harmless: with a
    healthy database, after the patch has been applied once, applying it
    again at a later time answers 200 with the same row but for
    [updated_at], leaves the job as one application at that later time would,
    and adds no history row. *)
Theorem repeated_update_is_idempotent (w : world) (id : Z) (b : job_patch) (j : job)
    (t2 : Z)
    (Hfaults : faults w = [])
    (Hjob : jobs (database w) !! id = Some j)
    (Hcheck : includes job_statuses
                (status (update_job_row (now w) (update_params b) j)) = true) :
  let w1 := (run (put_jobs_id id b) w []).1.1 in
  let w2 := (run (put_jobs_id id b) (at_now w1 t2) []).1.1 in
  responses (put_jobs_id id b) (at_now w1 t2)
  = [{| res_status := 200;
        res_body := BJob (Some (id, update_job_row t2 (update_params b) j)) |}]
  /\ jobs (database w2) = <[id := update_job_row t2 (update_params b) j]> (jobs (database w))
  /\ service_history (database w2) = service_history (database w1).
Proof.
  intros w1 w2. subst w2 w1. unfold responses.
  rewrite (run_put_jobs_id_healthy w id b j Hfaults Hjob Hcheck). cbn [fst snd].
  set (j1 := update_job_row (now w) (update_params b) j).
  set (d1 := tables_after_put (database w) (now w) id b j).
  assert (jobs d1 = <[id := j1]> (jobs (database w))) as Hjobs1.
  { subst d1. unfold tables_after_put. by repeat case_match. }
  assert (jobs d1 !! id = Some j1) as Hj1 by (rewrite Hjobs1; apply lookup_insert_eq).
  assert (includes job_statuses (status (update_job_row t2 (update_params b) j1)) = true)
    as Hcheck2.
  { subst j1. rewrite update_job_row_twice. exact Hcheck. }
  match goal with |- context [run (put_jobs_id id b) ?w1 []] =>
    rewrite (run_put_jobs_id_healthy w1 id b j1 eq_refl Hj1 Hcheck2) end.
  simpl. subst j1. rewrite update_job_row_twice. split; [done |].
  clearbody d1. unfold tables_after_put. rewrite becomes_completed_after. simpl.
  rewrite update_job_row_twice, Hjobs1. split; [| done].
  apply insert_insert_eq.
Qed.

Lemma repeated_update_is_idempotent_witness :
  let w1 := (run (put_jobs_id 1 complete) (at_time sample_db 100) []).1.1 in
  let w2 := (run (put_jobs_id 1 complete) (at_now w1 130) []).1.1 in
  service_history (database w2) = service_history (database w1).
Proof.
  apply (repeated_update_is_idempotent (at_time sample_db 100) 1 complete scheduled_job 130
           eq_refl eq_refl eq_refl).
Defined.

(** ** What an observer sees of a sequence of requests *)

Ltac finish_announcement :=
  intros [= <- <- <-]; simpl;
  eexists; split; [reflexivity |]; split; [reflexivity |]; split;
  [ intros m0 Hm0; vm_compute in Hm0;
    first [ discriminate Hm0
          | injection Hm0 as <-; unfold domain_event; eauto 10 ]
  | intros Hnone; vm_compute in Hnone;
    first [ discriminate Hnone
          | intros Hs; unfold success in Hs; simpl in Hs; lia ] ].

Lemma put_jobs_id_announcement (w : world) (id : Z) (b : job_patch) w' sent res :
  run (put_jobs_id id b) w [] = (w', sent, res) ->
  exists resp,
    sent = [resp]
    /\ wss w' = announce (announcement (PutJobsId id b) resp) (wss w)
    /\ (forall m, announcement (PutJobsId id b) resp = Some m -> domain_event m)
    /\ (announcement (PutJobsId id b) resp = None -> ~ success (res_status resp)).
Proof.
  unfold put_jobs_id. rewrite run_try_catch. unfold mbind, prog_bind.
  step_query; [finish_announcement |].
  unfold select_by_key.
  destruct (jobs (database w) !! id) as [j |] eqn:Hj; simpl; [| finish_announcement].
  step_query; [finish_announcement |].
  rewrite Hj.
  destruct (includes job_statuses _); simpl; [| finish_announcement].
  destruct (becomes_completed (p_status b) (status j)) eqn:Hb; simpl;
    [| finish_announcement].
  unfold record_service_history, mbind, prog_bind.
  step_query; [finish_announcement |].
  destruct (select_service_history _ id) as [| h hs] eqn:Hh; simpl;
    [| finish_announcement].
  step_query; [finish_announcement |].
  rewrite lookup_insert_eq. simpl. finish_announcement.
Qed.

Lemma post_jobs_announcement (w : world) (b : new_job) w' sent res :
  run (post_jobs b) w [] = (w', sent, res) ->
  exists resp,
    sent = [resp]
    /\ wss w' = announce (announcement (PostJobs b) resp) (wss w)
    /\ (forall m, announcement (PostJobs b) resp = Some m -> domain_event m)
    /\ (announcement (PostJobs b) resp = None -> ~ success (res_status resp)).
Proof.
  unfold post_jobs.
  destruct (nj_customer_id b) as [| | customer];
    [finish_announcement | finish_announcement |].
  destruct (nj_status b) as [| | st]; [finish_announcement | finish_announcement |].
  destruct (truthy_Z customer && truthy_string st); [| finish_announcement].
  destruct (includes job_statuses st) eqn:Hst; [| finish_announcement].
  rewrite run_try_catch. unfold mbind, prog_bind.
  step_query; [finish_announcement |].
  rewrite Hst. simpl. finish_announcement.
Qed.

Lemma post_jobs_id_invoice_announcement (w : world) id amount st due_at w' sent res :
  run (post_jobs_id_invoice id amount st due_at) w [] = (w', sent, res) ->
  exists resp,
    sent = [resp]
    /\ wss w' = announce (announcement (PostJobsIdInvoice id amount st due_at) resp) (wss w)
    /\ (forall m, announcement (PostJobsIdInvoice id amount st due_at) resp = Some m ->
                 domain_event m)
    /\ (announcement (PostJobsIdInvoice id amount st due_at) resp = None -> ~ success (res_status resp)).
Proof.
  unfold post_jobs_id_invoice.
  destruct amount as [| | amt]; [finish_announcement | finish_announcement |].
  destruct (includes invoice_statuses _) eqn:Hst; [| finish_announcement].
  rewrite run_try_catch. unfold mbind, prog_bind.
  step_query; [finish_announcement |].
  unfold select_by_key.
  destruct (jobs (database w) !! id) as [j |] eqn:Hj; simpl; [| finish_announcement].
  step_query; [finish_announcement |].
  rewrite Hj, Hst. simpl. finish_announcement.
Qed.

Lemma post_invoices_announcement (w : world) job_id amount st due_at w' sent res :
  run (post_invoices job_id amount st due_at) w [] = (w', sent, res) ->
  exists resp,
    sent = [resp]
    /\ wss w' = announce (announcement (PostInvoices job_id amount st due_at) resp) (wss w)
    /\ (forall m, announcement (PostInvoices job_id amount st due_at) resp = Some m ->
                 domain_event m)
    /\ (announcement (PostInvoices job_id amount st due_at) resp = None -> ~ success (res_status resp)).
Proof.
  unfold post_invoices.
  destruct job_id as [| | jid]; [finish_announcement | finish_announcement |].
  destruct amount as [| | amt]; [finish_announcement | finish_announcement |].
  destruct st as [| | s]; [finish_announcement | finish_announcement |].
  destruct (truthy_Z jid && truthy_string s); [| finish_announcement].
  destruct (includes invoice_statuses s) eqn:Hst; [| finish_announcement].
  rewrite run_try_catch. unfold mbind, prog_bind.
  step_query; [finish_announcement |].
  destruct (jobs (database w) !! jid) as [j |] eqn:Hj; simpl; [| finish_announcement].
  rewrite Hst. simpl. finish_announcement.
Qed.

Lemma post_payments_announcement (w : world) invoice_id amount method w' sent res :
  run (post_payments invoice_id amount method) w [] = (w', sent, res) ->
  exists resp,
    sent = [resp]
    /\ wss w' = announce (announcement (PostPayments invoice_id amount method) resp) (wss w)
    /\ (forall m, announcement (PostPayments invoice_id amount method) resp = Some m ->
                 domain_event m)
    /\ (announcement (PostPayments invoice_id amount method) resp = None -> ~ success (res_status resp)).
Proof.
  unfold post_payments.
  destruct invoice_id as [| | iid]; [finish_announcement | finish_announcement |].
  destruct amount as [| | amt]; [finish_announcement | finish_announcement |].
  destruct method as [| | m]; [finish_announcement | finish_announcement |].
  destruct (truthy_Z iid && truthy_string m); [| finish_announcement].
  rewrite run_try_catch. unfold mbind, prog_bind.
  step_query; [finish_announcement |].
  destruct (invoices (database w) !! iid) as [i |] eqn:Hi; simpl; finish_announcement.
Qed.

Lemma handle_announcement (r : request) (w : world) :
  exists w' resp,
    run (handle r) w [] = (w', [resp], Some tt)
    /\ wss w' = announce (announcement r resp) (wss w)
    /\ (forall m, announcement r resp = Some m -> domain_event m)
    /\ (announcement r resp = None -> ~ success (res_status resp)).
Proof.
  destruct (run (handle r) w []) as [[w' sent] res] eqn:Hrun.
  destruct (handle_outcome r w w' sent res Hrun) as (-> & resp0 & -> & _).
  assert (exists resp,
            [resp0] = [resp]
            /\ wss w' = announce (announcement r resp) (wss w)
            /\ (forall m, announcement r resp = Some m -> domain_event m)
            /\ (announcement r resp = None -> ~ success (res_status resp)))
    as (resp & [= <-] & Hwss & Hm & Hnone).
  { destruct r; unfold handle in Hrun.
    - by eapply post_jobs_announcement.
    - by eapply put_jobs_id_announcement.
    - by eapply post_jobs_id_invoice_announcement.
    - by eapply post_invoices_announcement.
    - by eapply post_payments_announcement. }
  by exists w', resp0.
Qed.

Lemma announcement_success (r : request) (resp : response) (m : message) :
  announcement r resp = Some m -> success (res_status resp).
Proof. unfold announcement. by destruct (decide (success (res_status resp))). Qed.

(** X13. Over any sequence of requests to the writing routes, served one
    after the other at any times and with any faults, every request gets one
    response, and the observers see the successful ones in order: an open
    socket has received, after what it had, exactly the events of the
    requests answered 200 or 201, in the order of the requests, each being
    the event of its route with the very row the request was answered with,
    and nothing for the other requests; a socket that is not open has
    received nothing. *)
Theorem observers_see_successes_in_order (arrivals : list arrival) :
  forall (w : world) (clients : list client),
    wss w = Some clients ->
    let sent := (serve_arrivals w arrivals).2 in
    let events := announcements (map a_request arrivals) sent in
    length sent = length arrivals
    /\ wss (serve_arrivals w arrivals).1 = Some (map (after_events events) clients)
    /\ Forall domain_event events
    /\ length events = length (filter (fun r => success (res_status r)) sent).
Proof.
  induction arrivals as [| a rest IH]; intros w clients Hwss; cbv zeta.
  - simpl. rewrite Hwss. split; [done |]. split; [| done].
    f_equal. rewrite <- (map_id clients) at 1. apply map_ext. intros c.
    by rewrite after_events_nil.
  - simpl. unfold serve_arrival.
    match goal with |- context [run (handle ?r) ?w0 []] =>
      destruct (handle_announcement r w0) as (w1 & resp & -> & Hsent & Hevent & Hnone) end.
    cbn [fst snd] in *. cbn [wss] in Hsent. rewrite Hwss in Hsent.
    unfold announcements.
    destruct (announcement (a_request a) resp) as [m |] eqn:Hann.
    + pose proof (announcement_success _ _ _ Hann) as Hs.
      specialize (Hevent m eq_refl).
      cbn [announce] in Hsent. rewrite (broadcast_domain_event m clients Hevent) in Hsent.
      destruct (IH w1 (deliver m clients) Hsent) as (Hlen & Hw & He & Hcount).
      destruct (serve_arrivals w1 rest) as [w2 sent2]. cbn [fst snd] in *.
      cbn [app length zip zip_with omap list_omap fst snd]. rewrite Hann.
      split; [by rewrite Hlen |]. split.
      { rewrite Hw, deliver_after_events, map_map. f_equal. apply map_ext. intros c.
        by rewrite after_events_app. }
      split; [by constructor |].
      rewrite filter_cons, decide_True by done. simpl. by rewrite <- Hcount.
    + pose proof (Hnone eq_refl) as Hn.
      cbn [announce] in Hsent.
      destruct (IH w1 clients Hsent) as (Hlen & Hw & He & Hcount).
      destruct (serve_arrivals w1 rest) as [w2 sent2]. cbn [fst snd] in *.
      cbn [app length zip zip_with omap list_omap fst snd]. rewrite Hann.
      split; [by rewrite Hlen |]. split; [done |]. split; [done |].
      rewrite filter_cons, decide_False by done. by rewrite <- Hcount.
Qed.

Lemma observers_see_successes_in_order_witness :
  let sent := (serve_arrivals observed two_arrivals).2 in
  let events := announcements (map a_request two_arrivals) sent in
  length sent = length two_arrivals
  /\ wss (serve_arrivals observed two_arrivals).1
     = Some (map (after_events events)
               [send (JSON_stringify welcome) {| readyState := OPEN; received := [] |}])
  /\ Forall domain_event events
  /\ length events = length (filter (fun r => success (res_status r)) sent).
Proof. apply (observers_see_successes_in_order two_arrivals observed _ eq_refl). Defined.

(** ** Reading CSV lines *)

Lemma append_cons (c : Ascii.ascii) (s t : string) :
  String c s +:+ t = String c (s +:+ t).
Proof. reflexivity. Qed.

Lemma append_nil_r (s : string) : s +:+ EmptyString = s.
Proof. induction s as [| c s IH]; [done |]. by rewrite append_cons, IH. Qed.

Lemma append_assoc (a b c : string) :
  String.append (a +:+ b) c = a +:+ (b +:+ c).
Proof. induction a as [| x a IH]; [done |]. by rewrite !append_cons, IH. Qed.

Lemma chars_append (a b : string) : chars (a +:+ b) = chars a ++ chars b.
Proof. induction a as [| x a IH]; [done |]. rewrite append_cons. simpl. by f_equal. Qed.

Lemma parse_fields_result (line : string) : forall field inQuotes result,
  parse_fields line field inQuotes result = result ++ parse_fields line field inQuotes [].
Proof.
  assert (forall n line, (String.length line <= n)%nat ->
            forall field inQuotes result,
              parse_fields line field inQuotes result
              = result ++ parse_fields line field inQuotes []) as Hall.
  { clear line. induction n as [| n IH]; intros line Hlen field inQuotes result.
    - destruct line; [done | simpl in Hlen; lia].
    - destruct line as [| char rest]; simpl; [done |]. simpl in Hlen.
      destruct (decide (char = dquote)) as [-> | Hq].
      + destruct rest as [| next rest']; [done |]. simpl in Hlen.
        destruct (inQuotes && bool_decide (next = dquote)); apply IH; simpl; lia.
      + destruct (bool_decide (char = comma) && negb inQuotes).
        * rewrite (IH rest) by lia.
          rewrite (IH rest ltac:(lia) _ _ ([] ++ [field])).
          by rewrite app_assoc.
        * apply IH. lia. }
  intros. by eapply Hall.
Qed.

Lemma parse_fields_not_nil (line field : string) (inQuotes : bool) :
  parse_fields line field inQuotes [] <> [].
Proof.
  revert field inQuotes.
  assert (forall n line, (String.length line <= n)%nat ->
            forall field inQuotes, parse_fields line field inQuotes [] <> []) as Hall.
  { clear line. induction n as [| n IH]; intros line Hlen field inQuotes.
    - destruct line; [done | simpl in Hlen; lia].
    - destruct line as [| char rest]; simpl; [done |]. simpl in Hlen.
      destruct (decide (char = dquote)) as [-> | Hq].
      + destruct rest as [| next rest']; [done |]. simpl in Hlen.
        destruct (inQuotes && bool_decide (next = dquote)); apply IH; simpl; lia.
      + destruct (bool_decide (char = comma) && negb inQuotes).
        * rewrite parse_fields_result. done.
        * apply IH. lia. }
  intros. by eapply Hall.
Qed.

Lemma parse_fields_open_quote (rest field : string) (result : list string) :
  parse_fields (String dquote rest) field false result
  = parse_fields rest field true result.
Proof. simpl. by destruct rest. Qed.

Lemma parse_fields_comma (rest field : string) (result : list string) :
  parse_fields (String comma rest) field false result
  = parse_fields rest EmptyString false (result ++ [field]).
Proof. reflexivity. Qed.

Lemma parse_fields_plain (f : string) : forall rest field result,
  plain f ->
  parse_fields (f +:+ rest) field false result
  = parse_fields rest (field +:+ f) false result.
Proof.
  induction f as [| c f IH]; intros rest field result [Hq Hc].
  - by rewrite append_nil_r.
  - simpl in Hq, Hc. apply not_elem_of_cons in Hq as [Hq Hq'].
    apply not_elem_of_cons in Hc as [Hc Hc'].
    rewrite append_cons. simpl.
    rewrite decide_False by done. rewrite bool_decide_eq_false_2 by done. simpl.
    rewrite IH by done. by rewrite append_assoc.
Qed.

Lemma parse_fields_quoted (f : string) : forall rest field result,
  (rest = EmptyString \/ exists c r, rest = String c r /\ c <> dquote) ->
  parse_fields (doubled f +:+ String dquote rest) field true result
  = parse_fields rest (field +:+ f) false result.
Proof.
  induction f as [| c f IH]; intros rest field result Hrest.
  - rewrite append_nil_r. simpl.
    destruct Hrest as [-> | (c & r & -> & Hc)]; [done |].
    by rewrite bool_decide_eq_false_2.
  - simpl. destruct (decide (c = dquote)) as [-> | Hc].
    + rewrite !append_cons. simpl.
      rewrite IH by done. by rewrite append_assoc.
    + rewrite append_cons. simpl.
      rewrite decide_False by done. rewrite andb_false_r.
      rewrite IH by done. by rewrite append_assoc.
Qed.

Lemma parse_fields_written (e f rest : string) (result : list string) :
  written e f ->
  (rest = EmptyString \/ exists c r, rest = String c r /\ c <> dquote) ->
  parse_fields (e +:+ rest) EmptyString false result
  = parse_fields rest f false result.
Proof.
  intros [-> | [-> Hplain]] Hrest.
  - unfold quoted. rewrite append_cons, parse_fields_open_quote.
    rewrite append_assoc, append_cons. simpl String.append at 2.
    by rewrite parse_fields_quoted.
  - by rewrite parse_fields_plain.
Qed.

(** X14. [parseCSVLine] reads back what a CSV writer wrote: for a
    non-empty list of fields, each written either between quotes with its
    quotes doubled or, when it has neither quote nor comma, as it is, the
    line made of the written fields joined by commas parses to exactly those
    fields. *)
Theorem parseCSVLine_reads_written_fields (encoded fields : list string)
    (Hwritten : Forall2 written encoded fields)
    (Hsome : fields <> []) :
  parseCSVLine (String.concat "," encoded) = fields.
Proof.
  unfold parseCSVLine.
  assert (forall result, fields <> [] ->
            parse_fields (String.concat "," encoded) EmptyString false result
            = result ++ fields) as Hall.
  { clear Hsome.
    induction Hwritten as [| e f es fs He Hes IH]; intros result Hne; [done |].
    destruct Hes as [| e2 f2 es' fs' He2 Hes'].
    - simpl. rewrite <- (append_nil_r e).
      rewrite (parse_fields_written e f) by (done || by left). done.
    - change (String.concat "," (e :: e2 :: es'))
        with (e +:+ String comma (String.concat "," (e2 :: es'))).
      rewrite (parse_fields_written e f).
      + rewrite parse_fields_comma, IH by done. by rewrite <- app_assoc.
      + done.
      + right. eexists _, _. split; [done |]. done. }
  by rewrite Hall.
Qed.

Lemma parseCSVLine_reads_written_fields_witness :
  parseCSVLine (String.concat "," [quoted "Drain, kitchen"; "80"])
  = ["Drain, kitchen"; "80"].
Proof.
  apply parseCSVLine_reads_written_fields; [| discriminate].
  constructor; [by left |]. constructor; [| constructor].
  right. split; [done |].
  split; apply (bool_decide_unpack _); vm_compute; exact I.
Defined.

Lemma concat_cons_cons (sep a : string) (l : list string) :
  l <> [] -> String.concat sep (a :: l) = a +:+ sep +:+ String.concat sep l.
Proof. by destruct l. Qed.

Lemma parse_fields_no_quotes (line : string) : forall field,
  dquote ∉ chars line ->
  String.concat "," (parse_fields line field false []) = field +:+ line
  /\ (comma ∉ chars field ->
      Forall (fun f => comma ∉ chars f) (parse_fields line field false []))
  /\ length (parse_fields line field false [])
     = S (length (filter (fun c => c = comma) (chars line))).
Proof.
  induction line as [| c rest IH]; intros field Hq.
  - simpl. rewrite append_nil_r. split; [done |]. split; [| done].
    intros Hc. by constructor.
  - simpl in Hq. apply not_elem_of_cons in Hq as [Hc Hq].
    change (chars (String c rest)) with (c :: chars rest). rewrite filter_cons.
    cbn [parse_fields]. rewrite (decide_False (P := c = dquote)) by done.
    destruct (decide (c = comma)) as [-> | Hcomma].
    + rewrite bool_decide_eq_true_2 by done. simpl.
      rewrite parse_fields_result.
      destruct (IH EmptyString Hq) as (Hcat & Hfree & Hlen).
      split; [| split].
      * simpl app. rewrite concat_cons_cons by apply parse_fields_not_nil.
        by rewrite Hcat.
      * intros Hfield. constructor; [done |]. apply Hfree. simpl. apply not_elem_of_nil.
      * rewrite length_app. simpl. by rewrite Hlen.
    + rewrite bool_decide_eq_false_2 by done. simpl.
      destruct (IH (field +:+ String c EmptyString) Hq) as (Hcat & Hfree & Hlen).
      split; [| split].
      * by rewrite Hcat, append_assoc.
      * intros Hfield. apply Hfree. rewrite chars_append. simpl.
        intros Hin. apply elem_of_app in Hin as [Hin | Hin]; [done |].
        apply elem_of_cons in Hin as [Hin | Hin]; [done |]. by apply elem_of_nil in Hin.
      * done.
Qed.

(** X15. On a line without any quote, [parseCSVLine] cuts at the commas
    and loses nothing: there is one field more than there are commas, no
    field contains a comma, and the fields joined by commas are the line
    again. *)
Theorem parseCSVLine_cuts_at_commas (line : string)
    (Hquotes : dquote ∉ chars line) :
  String.concat "," (parseCSVLine line) = line
  /\ Forall (fun f => comma ∉ chars f) (parseCSVLine line)
  /\ length (parseCSVLine line) = S (length (filter (fun c => c = comma) (chars line))).
Proof.
  destruct (parse_fields_no_quotes line EmptyString Hquotes) as (Hcat & Hfree & Hlen).
  split; [done |]. split; [| done]. apply Hfree. simpl. apply not_elem_of_nil.
Qed.

Lemma parseCSVLine_cuts_at_commas_witness :
  String.concat "," (parseCSVLine "Plumbing,,Drain cleaning,$80.00")
  = "Plumbing,,Drain cleaning,$80.00".
Proof.
  apply parseCSVLine_cuts_at_commas.
  apply (bool_decide_unpack _). vm_compute. exact I.
Defined.

(** ** Tokens and passwords *)

Lemma split_from_no_separator (sep : Ascii.ascii) (s : string) : forall piece,
  sep ∉ chars s -> split_from sep s piece = [piece +:+ s].
Proof.
  induction s as [| c s IH]; intros piece Hs.
  - simpl. by rewrite append_nil_r.
  - simpl in Hs. apply not_elem_of_cons in Hs as [Hc Hs]. simpl.
    rewrite decide_False by done. rewrite IH by done. by rewrite append_assoc.
Qed.

Lemma split_from_first (sep : Ascii.ascii) (a rest : string) : forall piece,
  sep ∉ chars a ->
  split_from sep (a +:+ String sep rest) piece
  = (piece +:+ a) :: split_from sep rest EmptyString.
Proof.
  induction a as [| c a IH]; intros piece Ha.
  - simpl. rewrite decide_True by done. by rewrite append_nil_r.
  - simpl in Ha. apply not_elem_of_cons in Ha as [Hc Ha]. rewrite append_cons. simpl.
    rewrite decide_False by done. rewrite IH by done. by rewrite append_assoc.
Qed.

Lemma split_from_head (sep : Ascii.ascii) (s piece : string) :
  exists first pieces, split_from sep s piece = first :: pieces.
Proof.
  revert piece. induction s as [| c s IH]; intros piece; simpl; [by eexists _, _ |].
  destruct (decide (c = sep)); [by eexists _, _ | apply IH].
Qed.

(** X16. [authenticateToken] looks only at the second word of the
    [Authorization] header: with no header, or a header without a space, or
    with nothing between its first and second space, the request ends with
    401 and the token is not verified; otherwise the word between the first
    and the second space is verified whatever the first word is, and the
    request ends with 403 when it does not verify and goes on with the
    token's user when it does. *)
Theorem authenticate_reads_second_word (jwt_verify : string -> option token_user) :
  authenticateToken jwt_verify None = SendStatus 401
  /\ (forall h, space ∉ chars h -> authenticateToken jwt_verify (Some h) = SendStatus 401)
  /\ (forall scheme rest, space ∉ chars scheme ->
        authenticateToken jwt_verify (Some (scheme +:+ String space (String space rest)))
        = SendStatus 401)
  /\ (forall scheme token rest,
        space ∉ chars scheme -> space ∉ chars token -> token <> EmptyString ->
        rest = EmptyString \/ (exists r, rest = String space r) ->
        authenticateToken jwt_verify (Some (scheme +:+ String space (token +:+ rest)))
        = match jwt_verify token with
          | Some user => Next user
          | None => SendStatus 403
          end).
Proof.
  split; [done |]. split; [| split].
  - intros h Hh. unfold authenticateToken, header_token.
    destruct (truthy_string h) eqn:Htruthy.
    + unfold split. rewrite split_from_no_separator by done. done.
    + by rewrite Htruthy.
  - intros scheme rest Hs. unfold authenticateToken, header_token.
    assert (truthy_string (scheme +:+ String space (String space rest)) = true) as ->.
    { unfold truthy_string. rewrite decide_False; [done |]. by destruct scheme. }
    unfold split. rewrite split_from_first by done. simpl.
    rewrite ?decide_True by done. done.
  - intros scheme token rest Hs Ht Hne Hrest. unfold authenticateToken, header_token.
    assert (truthy_string (scheme +:+ String space (token +:+ rest)) = true) as ->.
    { unfold truthy_string. rewrite decide_False; [done |]. by destruct scheme. }
    unfold split. rewrite split_from_first by done.
    assert (exists pieces, split_from space (token +:+ rest) EmptyString = token :: pieces)
      as [pieces ->].
    { destruct Hrest as [-> | [r ->]].
      - rewrite append_nil_r, split_from_no_separator by done. by eexists.
      - rewrite split_from_first by done. by eexists. }
    simpl. unfold truthy_string. by rewrite decide_False.
Qed.

(** X17. A password verifies against its own hash: when the salt and the
    hexadecimal digest contain no colon, [verifyPassword] accepts the password
    [hashPassword] was given, and accepts another password exactly when it
    has the same digest under that salt. *)
Theorem password_hash_round_trip (pbkdf2_hex : string -> string -> string)
    (salt password : string)
    (Hsalt : colon ∉ chars salt)
    (Hdigest : colon ∉ chars (pbkdf2_hex password salt)) :
  verifyPassword pbkdf2_hex password (hashPassword pbkdf2_hex salt password) = true
  /\ forall other,
       verifyPassword pbkdf2_hex other (hashPassword pbkdf2_hex salt password) = true
       <-> pbkdf2_hex other salt = pbkdf2_hex password salt.
Proof.
  assert (forall other,
            verifyPassword pbkdf2_hex other (hashPassword pbkdf2_hex salt password)
            = bool_decide (Some (pbkdf2_hex password salt) = Some (pbkdf2_hex other salt)))
    as Hverify.
  { intros other. unfold verifyPassword, hashPassword, split.
    rewrite split_from_first by done. rewrite split_from_no_separator by done. done. }
  split.
  - rewrite Hverify. by apply bool_decide_eq_true_2.
  - intros other. rewrite Hverify. rewrite bool_decide_eq_true. split; congruence.
Qed.

Lemma password_hash_round_trip_witness :
  verifyPassword (fun password salt => "5e" +:+ salt) "secret"
    (hashPassword (fun password salt => "5e" +:+ salt) "a1b2" "secret") = true.
Proof.
  destruct (password_hash_round_trip (fun password salt => "5e" +:+ salt) "a1b2" "secret")
    as [Hown _].
  - apply (bool_decide_unpack _). vm_compute. exact I.
  - apply (bool_decide_unpack _). vm_compute. exact I.
  - exact Hown.
Defined.

Lemma authenticate_reads_second_word_witness :
  authenticateToken only_abc (Some ("Basic" +:+ String space ("abc" +:+ EmptyString)))
  = Next ada.
Proof.
  rewrite (proj2 (proj2 (proj2 (authenticate_reads_second_word only_abc)))
             "Basic" "abc" EmptyString).
  - reflexivity.
  - apply (bool_decide_unpack _). vm_compute. exact I.
  - apply (bool_decide_unpack _). vm_compute. exact I.
  - discriminate.
  - by left.
Defined.

(** X18. A route registered behind [authenticateToken] and
    [authorizeRoles('admin')] is reached exactly by a request whose header
    token is not empty and verifies to a user of role "admin"; a token that
    verifies to a user of any other role ends with 403 "Forbidden". *)
Theorem admin_routes_need_admin_token (jwt_verify : string -> option token_user)
    (authorization : option string) :
  (forall user,
     guarded jwt_verify ["admin"] authorization = Next user
     <-> exists token,
           header_token authorization = Some token
           /\ token <> EmptyString
           /\ jwt_verify token = Some user
           /\ tu_role user = "admin")
  /\ (forall token user,
        header_token authorization = Some token -> token <> EmptyString ->
        jwt_verify token = Some user -> tu_role user <> "admin" ->
        guarded jwt_verify ["admin"] authorization = SendMessage 403 "Forbidden").
Proof.
  unfold guarded, authenticateToken, authorizeRoles, truthy_string.
  split.
  - intros user. split.
    + destruct (header_token authorization) as [token |]; [| done].
      destruct (decide (token = "")) as [-> | Hne]; [done |].
      destruct (jwt_verify token) as [u |] eqn:Hu; [| done].
      destruct (includes ["admin"] (tu_role u)) eqn:Hrole; [| done].
      intros [= <-]. exists token. repeat (split; [done |]).
      unfold includes in Hrole. apply bool_decide_eq_true_1 in Hrole.
      apply elem_of_cons in Hrole as [Hrole | Hrole]; [done |].
      by apply elem_of_nil in Hrole.
    + intros (token & -> & Hne & -> & Hrole).
      rewrite decide_False by done. rewrite Hrole. done.
  - intros token user -> Hne -> Hrole.
    rewrite decide_False by done. rewrite includes_false; [done |].
    intros Hin. apply elem_of_cons in Hin as [Hin | Hin]; [done |].
    by apply elem_of_nil in Hin.
Qed.

Lemma admin_routes_need_admin_token_witness :
  guarded only_abc ["admin"] (Some "Bearer abc") = Next ada.
Proof.
  apply (proj1 (admin_routes_need_admin_token only_abc (Some "Bearer abc")) ada).
  exists "abc". repeat split; discriminate.
Defined.

(** ** Invariants carried by every statement *)

Lemma exec_references_hold {R} (q : sql R) (now : Z) (d : db) :
  references_hold d -> references_hold (exec q now d).2.
Proof.
  intros (Hv & Hh & Hi & Hp).
  destruct q; simpl; try done.
  - destruct (includes job_statuses st); [| done]. simpl.
    split; [done |]. split; [| split]; [| | done].
    + eapply Forall_impl; [exact Hh |]. intros r [j Hj]; simpl.
      destruct (decide (sh_job_id r = jobs_id_seq d)) as [-> | Hne].
      * rewrite lookup_insert_eq. by eexists.
      * rewrite lookup_insert_ne by done. by eexists.
    + intros id i Hid. destruct (Hi id i Hid) as [j Hj]. simpl in *.
      destruct (decide (inv_job_id i = jobs_id_seq d)) as [-> | Hne].
      * rewrite lookup_insert_eq. by eexists.
      * rewrite lookup_insert_ne by done. by eexists.
  - destruct (jobs d !! id) as [j |] eqn:Hj; [| done].
    destruct (includes job_statuses _); [| done]. simpl.
    split; [done |]. split; [| split]; [| | done].
    + eapply Forall_impl; [exact Hh |]. intros r [j0 Hj0]; simpl.
      destruct (decide (sh_job_id r = id)) as [-> | Hne].
      * rewrite lookup_insert_eq. by eexists.
      * rewrite lookup_insert_ne by done. by eexists.
    + intros id' i Hid. destruct (Hi id' i Hid) as [j0 Hj0]. simpl in *.
      destruct (decide (inv_job_id i = id)) as [-> | Hne].
      * rewrite lookup_insert_eq. by eexists.
      * rewrite lookup_insert_ne by done. by eexists.
  - destruct (jobs d !! job_id) as [j |] eqn:Hj; [| done]. simpl.
    split; [done |]. split; [| done]. apply Forall_app. split; [done |].
    apply Forall_singleton. simpl. by eexists.
  - destruct (jobs d !! job_id) as [j |] eqn:Hj; [| done].
    destruct (includes invoice_statuses st); [| done]. simpl.
    split; [done |]. split; [done |]. split.
    + apply map_Forall_insert_2; [simpl; by eexists | done].
    + eapply Forall_impl; [exact Hp |]. intros p [i Hi']; simpl.
      destruct (decide (pay_invoice_id p = invoices_id_seq d)) as [-> | Hne].
      * rewrite lookup_insert_eq. by eexists.
      * rewrite lookup_insert_ne by done. by eexists.
  - destruct (invoices d !! invoice_id) as [i |] eqn:Hi'; [| done]. simpl.
    split; [done |]. split; [done |]. split; [done |]. apply Forall_app. split; [done |].
    apply Forall_singleton. simpl. by eexists.
Qed.

Lemma exec_sequences_ahead {R} (q : sql R) (now : Z) (d : db) :
  sequences_ahead d -> sequences_ahead (exec q now d).2.
Proof.
  intros (Hj & Hh & Hi & Hp).
  destruct q; simpl; try done.
  - destruct (includes job_statuses st); [| done]. simpl.
    split; [| done]. apply map_Forall_insert_2; [simpl; lia |].
    intros id j Hid. specialize (Hj id j Hid). simpl in *. lia.
  - destruct (jobs d !! id) as [j |] eqn:Hid; [| done].
    destruct (includes job_statuses _); [| done]. simpl.
    split; [| done]. apply map_Forall_insert_2; [| done].
    exact (Hj id j Hid).
  - destruct (jobs d !! job_id) as [j |] eqn:Hid; [| done]. simpl.
    split; [done |]. split; [| done]. apply Forall_app. split.
    + eapply Forall_impl; [exact Hh |]. simpl. intros; lia.
    + apply Forall_singleton. simpl. lia.
  - destruct (jobs d !! job_id) as [j |] eqn:Hid; [| done].
    destruct (includes invoice_statuses st); [| done]. simpl.
    split; [done |]. split; [done |]. split; [| done].
    apply map_Forall_insert_2; [simpl; lia |].
    intros id i Hid'. specialize (Hi id i Hid'). simpl in *. lia.
  - destruct (invoices d !! invoice_id) as [i |] eqn:Hid; [| done]. simpl.
    split; [done |]. split; [done |]. split; [done |]. apply Forall_app. split.
    + eapply Forall_impl; [exact Hp |]. simpl. intros; lia.
    + apply Forall_singleton. simpl. lia.
Qed.

Section Invariant.

Variable P : db -> Prop.
Hypothesis exec_keeps : forall R (q : sql R) now d, P d -> P (exec q now d).2.

Lemma query_keeps {R} (q : sql R) (w : world) :
  P (database w) -> P (database (query q w).2).
Proof.
  intros HP. unfold query.
  destruct (faults w) as [| [|] fs]; simpl; try done.
  - specialize (exec_keeps R q (now w) (database w) HP).
    by destruct (exec q (now w) (database w)).
  - specialize (exec_keeps R q (now w) (database w) HP).
    by destruct (exec q (now w) (database w)).
Qed.

Lemma perform_keeps (a : action) (w : world) (sent : list response) :
  P (database w) -> P (database (perform a w sent).1).
Proof. by destruct a. Qed.

Lemma run_keeps {A} (p : prog A) (w : world) (sent : list response) :
  P (database w) -> P (database (run p w sent).1.1).
Proof.
  revert w sent. induction p as [a | | a k IH | R q k IH]; intros w sent HP; simpl; try done.
  - pose proof (perform_keeps a w sent HP) as HP'.
    destruct (perform a w sent) as [w' sent']. by apply IH.
  - pose proof (query_keeps q w HP) as HP'.
    destruct (query q w) as [o w']. by apply IH.
Qed.

Lemma settle_keeps {A} (p : prog A) (w : world) (sent : list response) :
  P (database w) -> P (database (settle p w sent).1.1).
Proof.
  revert w sent. induction p as [a | | a k IH | R q k IH]; intros w sent HP; simpl; try done.
  pose proof (perform_keeps a w sent HP) as HP'.
  destruct (perform a w sent) as [w' sent']. by apply IH.
Qed.

Lemma resume_keeps {A} (p : prog A) (w : world) (sent : list response) :
  P (database w) -> P (database (resume p w sent).1.1).
Proof.
  intros HP. destruct p as [a | | a k | R q k]; try by apply settle_keeps.
  simpl. pose proof (query_keeps q w HP) as HP'.
  destruct (query q w) as [o w']. by apply settle_keeps.
Qed.

Lemma interleave_keeps (schedule : list turn) (a b : task) (w : world) :
  P (database w) -> P (database (interleave schedule a b w).1.1).
Proof.
  revert a b w. induction schedule as [| [|] s IH]; intros a b w HP; simpl; try done.
  - pose proof (resume_keeps (code a) w (res a) HP) as HP'.
    destruct (resume (code a) w (res a)) as [[w' sent] p]. by apply IH.
  - pose proof (resume_keeps (code b) w (res b) HP) as HP'.
    destruct (resume (code b) w (res b)) as [[w' sent] p]. by apply IH.
Qed.

End Invariant.
(** ** Running the routes beside the core *)

Lemma carry_out_and_then {A B} (p : routine A) (f : A -> routine B) s sent :
  carry_out (and_then p f) s sent
  = match carry_out p s sent with
    | (s', sent', Some a) => carry_out (f a) s' sent'
    | (s', sent', None) => (s', sent', None)
    end.
Proof.
  revert s sent. induction p as [a | | [line | r] k IH | R q k IH]; intros s sent; simpl; try done.
  destruct (submit q s) as [o s']. apply IH.
Qed.

Lemma carry_out_guard {A} (p h : routine A) s sent :
  carry_out (guard p h) s sent
  = match carry_out p s sent with
    | (s', sent', Some a) => (s', sent', Some a)
    | (s', sent', None) => carry_out h s' sent'
    end.
Proof.
  revert s sent. induction p as [a | | [line | r] k IH | R q k IH]; intros s sent; simpl; try done.
  destruct (submit q s) as [o s']. apply IH.
Qed.

Lemma carry_out_awaited {R} (q : statement R) s sent :
  carry_out (awaited q) s sent
  = match submit q s with
    | (Resolved r, s') => (s', sent, Some r)
    | (Rejected, s') => (s', sent, None)
    end.
Proof. simpl. by destruct (submit q s) as [[r |] s']. Qed.

Lemma submit_healthy {R} (q : statement R) s :
  faults (process s) = [] -> submit q s = execute q s.
Proof. unfold submit. by intros ->. Qed.

Lemma execute_references_hold {R} (q : statement R) (s : site) :
  references_hold (database (process s)) ->
  references_hold (database (process (execute q s).2)).
Proof.
  intros (Hv & Hh & Hi & Hp). pose proof Hh as Hh'. pose proof Hp as Hp'.
  pose proof Hv as Hv'.
  rewrite Forall_forall in Hh'. rewrite Forall_forall in Hp'.
  rewrite Forall_forall in Hv'.
  destruct q; simpl; try done.
  - destruct (pricebook_items _ !! _) eqn:Hitem; [| done].
    destruct (price_tier_allowed tier); [| done]. simpl.
    split; [| done]. apply Forall_app. split; [done |].
    apply Forall_singleton. simpl. by eexists.
  - destruct (pricebook_items _ !! id) eqn:Hitem; [| done]. simpl.
    split; [| done].
    apply Forall_forall. intros v [Hne Hin]%list_elem_of_filter.
    simpl. rewrite lookup_delete_ne by done. by apply Hv'.
  - destruct (jobs _ !! id) as [j |] eqn:Hj; [| done]. simpl.
    split; [done |]. split; [| split].
    + apply Forall_forall. intros r [Hne Hr]%list_elem_of_filter.
      simpl. rewrite lookup_delete_ne by done. by apply Hh'.
    + intros k i [Hk Hne]%map_lookup_filter_Some. simpl in *.
      rewrite lookup_delete_ne by done. by apply (Hi k i).
    + apply Forall_forall. intros p [Hnot Hin]%list_elem_of_filter.
      simpl. destruct (Hp' p Hin) as [i Hi'].
      exists i. apply map_lookup_filter_Some. split; [done |]. simpl.
      intros Heq. apply Hnot. unfold paid_for_job. by rewrite Hi'.
  - destruct (jobs _ !! job_id) as [j |] eqn:Hj; [| done]. simpl.
    split; [done |]. split; [| done]. apply Forall_app. split; [done |].
    apply Forall_singleton. simpl. by eexists.
  - destruct e as [e |]; [| done].
    simpl; destruct (filter _ (map_to_list _)); [| done].
    by destruct (includes user_roles r).
Qed.

Lemma execute_sequences_ahead {R} (q : statement R) (s : site) :
  site_sequences_ahead s -> site_sequences_ahead (execute q s).2.
Proof.
  intros ((Hj & Hh & Hi & Hp) & Hv & Hu).
  destruct q; simpl; try done.
  - destruct (pricebook_items _ !! _); [| done].
    destruct (price_tier_allowed tier); [| done].
    split; [done |]. split; [| done]. simpl. apply Forall_app. split.
    + eapply Forall_impl; [exact Hv |]. simpl. intros; lia.
    + apply Forall_singleton. simpl. lia.
  - destruct (pricebook_items _ !! id); [| done].
    split; [done |]. split; [| done]. simpl.
    apply Forall_forall. intros v [_ Hin]%list_elem_of_filter.
    rewrite Forall_forall in Hv. by apply Hv.
  - destruct (jobs _ !! id) as [j |] eqn:Hid; [| done].
    split; [| done]. simpl. split; [| split; [| split]]; simpl.
    + intros k j' Hk. apply (Hj k j').
      destruct (decide (k = id)) as [-> | Hne];
        [by rewrite lookup_delete_eq in Hk | by rewrite lookup_delete_ne in Hk].
    + apply Forall_forall. intros r [_ Hin]%list_elem_of_filter.
      rewrite Forall_forall in Hh. by apply Hh.
    + intros k i [Hk _]%map_lookup_filter_Some. by apply (Hi k i).
    + apply Forall_forall. intros p [_ Hin]%list_elem_of_filter.
      rewrite Forall_forall in Hp. by apply Hp.
  - destruct (jobs _ !! job_id) as [j |] eqn:Hid; [| done].
    split; [| done]. simpl. split; [done |]. split; [| done]. simpl.
    apply Forall_app. split.
    + eapply Forall_impl; [exact Hh |]. simpl. intros; lia.
    + apply Forall_singleton. simpl. lia.
  - destruct e as [e |]; [| done].
    simpl; destruct (filter _ (map_to_list _)); [| done].
    destruct (includes user_roles r); [| done].
    split; [done |]. split; [done |]. simpl.
    apply map_Forall_insert_2; [lia |].
    intros k u Hk. specialize (Hu k u Hk). simpl in *. lia.
  - split; [done |]. split; [done |]. simpl.
    intros k u Hk. apply lookup_alter_Some in Hk as [(_ & u' & Hk & _) | [_ Hk]];
      by apply (Hu k _ Hk).
  - split; [done |]. split; [done |]. simpl.
    intros k u Hk. apply lookup_alter_Some in Hk as [(_ & u' & Hk & _) | [_ Hk]];
      by apply (Hu k _ Hk).
Qed.

Section SiteInvariant.

Variable P : site -> Prop.
Hypothesis execute_keeps : forall R (q : statement R) s, P s -> P (execute q s).2.
Hypothesis set_faults_keeps : forall s fs, P s -> P (set_faults s fs).
Hypothesis log_error_keeps : forall s line, P s -> P (log_error line s).

Lemma submit_keeps {R} (q : statement R) (s : site) : P s -> P (submit q s).2.
Proof.
  intros HP. unfold submit.
  destruct (faults (process s)) as [| [|] fs]; simpl; auto.
Qed.

Lemma carry_out_keeps {A} (p : routine A) (s : site) (sent : list reply) :
  P s -> P (carry_out p s sent).1.1.
Proof.
  revert s sent.
  induction p as [a | | [line | r] k IH | R q k IH]; intros s sent HP; simpl; auto.
  pose proof (submit_keeps q s HP) as HP'.
  destruct (submit q s) as [o s']. by apply IH.
Qed.

End SiteInvariant.

Lemma site_references_hold_keeps {A} (p : routine A) (s : site) (sent : list reply) :
  references_hold (database (process s)) ->
  references_hold (database (process (carry_out p s sent).1.1)).
Proof.
  apply (carry_out_keeps (fun s => references_hold (database (process s)))); try done.
  intros R q s0. apply execute_references_hold.
Qed.

Lemma site_sequences_ahead_keeps {A} (p : routine A) (s : site) (sent : list reply) :
  site_sequences_ahead s -> site_sequences_ahead (carry_out p s sent).1.1.
Proof.
  apply (carry_out_keeps site_sequences_ahead); try done.
  intros R q s0. apply execute_sequences_ahead.
Qed.

(** X19. The foreign keys between the modelled tables hold after every
    handler, whatever it is and whatever the database's faults: when every
    version names an existing item, every history row and invoice an existing
    job and every payment an existing invoice, the same is true after a
    handler of the core has run alone, after any interleaving of two of them
    at their awaits, and after any of the other routes, the two [DELETE]s
    included, whose cascades take the dependent rows along. *)
Theorem references_hold_after_every_route :
  (forall A (p : prog A) w sent,
     references_hold (database w) -> references_hold (database (run p w sent).1.1))
  /\ (forall schedule a b w,
        references_hold (database w) ->
        references_hold (database (interleave schedule a b w).1.1))
  /\ (forall A (p : routine A) s sent,
        references_hold (database (process s)) ->
        references_hold (database (process (carry_out p s sent).1.1))).
Proof.
  split; [| split].
  - intros A p w sent. apply run_keeps. intros R q t d. apply exec_references_hold.
  - intros schedule a b w. apply interleave_keeps.
    intros R q t d. apply exec_references_hold.
  - intros A p s sent. apply site_references_hold_keeps.
Qed.

Lemma references_hold_after_every_route_witness :
  references_hold (database (process sample_site))
  /\ references_hold
       (database (process (carry_out (delete_pricebook_items_id 1) sample_site []).1.1)).
Proof.
  assert (references_hold (database (process sample_site))) as H
    by (apply (bool_decide_unpack _); vm_compute; exact I).
  split; [exact H |].
  exact (proj2 (proj2 references_hold_after_every_route) unit
           (delete_pricebook_items_id 1) sample_site [] H).
Defined.

(** X20. Keys are never handed out twice: when every key in use lies below
    the next value of its sequence, this is still so after every handler of
    the core run alone, after any interleaving of two of them, and after any
    of the other routes; in particular the next id of each sequence is then
    not in use, so that an [INSERT] never replaces an existing job, invoice
    or user. *)
Theorem keys_stay_below_their_sequences :
  (forall A (p : prog A) w sent,
     sequences_ahead (database w) ->
     let d' := database (run p w sent).1.1 in
     sequences_ahead d'
     /\ jobs d' !! jobs_id_seq d' = None
     /\ invoices d' !! invoices_id_seq d' = None)
  /\ (forall schedule a b w,
        sequences_ahead (database w) ->
        let d' := database (interleave schedule a b w).1.1 in
        sequences_ahead d'
        /\ jobs d' !! jobs_id_seq d' = None
        /\ invoices d' !! invoices_id_seq d' = None)
  /\ (forall A (p : routine A) s sent,
        site_sequences_ahead s ->
        let s' := (carry_out p s sent).1.1 in
        site_sequences_ahead s'
        /\ jobs (database (process s')) !! jobs_id_seq (database (process s')) = None
        /\ invoices (database (process s')) !! invoices_id_seq (database (process s')) = None
        /\ users s' !! users_id_seq s' = None).
Proof.
  assert (forall d, sequences_ahead d ->
            jobs d !! jobs_id_seq d = None /\ invoices d !! invoices_id_seq d = None)
    as Hfresh.
  { intros d (Hj & _ & Hi & _). split.
    - destruct (jobs d !! jobs_id_seq d) as [j |] eqn:Hl; [| done].
      specialize (Hj _ _ Hl). simpl in Hj. lia.
    - destruct (invoices d !! invoices_id_seq d) as [i |] eqn:Hl; [| done].
      specialize (Hi _ _ Hl). simpl in Hi. lia. }
  split; [| split].
  - intros A p w sent H d'.
    assert (sequences_ahead d') as H'
      by (apply run_keeps; [intros R q t d; apply exec_sequences_ahead | done]).
    split; [done |]. by apply Hfresh.
  - intros schedule a b w H d'.
    assert (sequences_ahead d') as H'
      by (apply interleave_keeps; [intros R q t d; apply exec_sequences_ahead | done]).
    split; [done |]. by apply Hfresh.
  - intros A p s sent H s'.
    assert (site_sequences_ahead s') as H' by by apply site_sequences_ahead_keeps.
    split; [done |]. destruct H' as (Hd & _ & Hu).
    destruct (Hfresh _ Hd) as [? ?]. split; [done |]. split; [done |].
    destruct (users s' !! users_id_seq s') as [u |] eqn:Hl; [| done].
    specialize (Hu _ _ Hl). simpl in Hu. lia.
Qed.

Lemma keys_stay_below_their_sequences_witness :
  sequences_ahead (database (at_time sample_db 100))
  /\ jobs (database (run (post_jobs new_scheduled_job) (at_time sample_db 100) []).1.1)
       !! jobs_id_seq (database (run (post_jobs new_scheduled_job) (at_time sample_db 100) []).1.1)
     = None.
Proof.
  assert (sequences_ahead (database (at_time sample_db 100))) as H
    by (apply (bool_decide_unpack _); vm_compute; exact I).
  split; [exact H |].
  exact (proj1 (proj2 (proj1 keys_stay_below_their_sequences unit
           (post_jobs new_scheduled_job) (at_time sample_db 100) [] H))).
Defined.
(** ** A new version and the prices *)

Lemma query_item_same_rates id w1 w2 :
  same_rates w1 w2 ->
  exists o w1' w2',
    query (SelectPricebookItem id) w1 = (o, w1')
    /\ query (SelectPricebookItem id) w2 = (o, w2')
    /\ same_rates w1' w2'.
Proof.
  intros (Hi & Hf & Hc). unfold query. rewrite Hf.
  destruct (faults w2) as [| [|] fs]; simpl; rewrite ?Hi;
    eexists _, _, _; (split; [reflexivity |]); (split; [reflexivity |]);
    repeat split; simpl; try done.
Qed.

Lemma query_version_same_rates id w1 w2 :
  same_rates w1 w2 ->
  exists o w1' w2',
    query (SelectLatestVersion id) w1 = (o, w1')
    /\ query (SelectLatestVersion id) w2 = (o, w2')
    /\ same_rates w1' w2'.
Proof.
  intros (Hi & Hf & Hc). unfold query. rewrite Hf.
  destruct (faults w2) as [| [|] fs]; simpl; rewrite ?Hc;
    eexists _, _, _; (split; [reflexivity |]); (split; [reflexivity |]);
    repeat split; simpl; try done.
Qed.

Lemma calculate_loop_same_rates items : forall total breakdown w1 w2 sent,
  same_rates w1 w2 ->
  exists w1' w2' sent' r,
    run (calculate_loop items total breakdown) w1 sent = (w1', sent', r)
    /\ run (calculate_loop items total breakdown) w2 sent = (w2', sent', r).
Proof.
  induction items as [| entry rest IH]; intros total breakdown w1 w2 sent Hsame.
  - simpl. by eexists _, _, _, _.
  - simpl. destruct (line_fields entry) as [[id q] |]; [| by eexists _, _, _, _].
    rewrite !run_Await.
    destruct (query_item_same_rates id w1 w2 Hsame) as (o & w1' & w2' & -> & -> & Hsame').
    destruct o as [[| [i pbItem] itemRes] |]; simpl; try by eexists _, _, _, _.
    rewrite ?run_Await.
    destruct (query_version_same_rates id w1' w2' Hsame')
      as (o & w1'' & w2'' & -> & -> & Hsame'').
    destruct o as [versionRes |]; simpl; [| by eexists _, _, _, _].
    by apply IH.
Qed.

Lemma calculate_same_rates items w1 w2 :
  same_rates w1 w2 ->
  responses (post_pricebook_calculate items) w1
  = responses (post_pricebook_calculate items) w2.
Proof.
  unfold responses. destruct items as [[| entry rest] |]; intros Hsame; [done | | done].
  unfold post_pricebook_calculate. rewrite !run_try_catch.
  destruct (calculate_loop_same_rates (entry :: rest) 0%float [] w1 w2 [] Hsame)
    as (w1' & w2' & sent' & r & -> & ->).
  by destruct r.
Qed.

Lemma select_latest_version_app_other now versions v id :
  ~ version_qualifies id now v ->
  select_latest_version now (versions ++ [v]) id = select_latest_version now versions id.
Proof.
  intros Hnot. unfold select_latest_version.
  rewrite filter_app, filter_cons_False, filter_nil, app_nil_r by done. done.
Qed.

Lemma select_latest_version_newest now versions v id :
  version_qualifies id now v ->
  (forall v', v' ∈ versions -> version_qualifies id now v' ->
     piv_effective_at v' < piv_effective_at v) ->
  select_latest_version now (versions ++ [v]) id = [v].
Proof.
  intros Hq Hlater.
  destruct (select_latest_version_cases now (versions ++ [v]) id)
    as [[_ Hnone] | (v0 & -> & Hin & Hq0 & Hmax)].
  - exfalso. apply (Hnone v); [| done]. apply elem_of_app. right. by left.
  - apply elem_of_app in Hin as [Hin | Hin].
    + specialize (Hlater v0 Hin Hq0).
      assert (piv_effective_at v <= piv_effective_at v0)
        by (apply Hmax; [apply elem_of_app; right; by left | done]).
      lia.
    + apply list_elem_of_singleton in Hin. by subst.
Qed.

Lemma run_post_version_healthy (s : site) (id effective labour parts : Z)
    (price_tier : field string) (pbItem : pricebook_item) :
  faults (process s) = [] ->
  pricebook_items (database (process s)) !! id = Some pbItem ->
  (forall t, price_tier = Val t -> t = "" \/ t ∈ price_tiers) ->
  let v := {| piv_id := pricebook_item_versions_id_seq s; piv_item_id := id;
              piv_effective_at := effective; piv_labour_rate := labour;
              piv_parts_cost := parts; piv_price_tier := or_null price_tier |} in
  carry_out (post_pricebook_items_id_versions id (Val effective) (Val labour) (Val parts)
               price_tier) s []
  = ({| process := set_database (process s)
                     (set_pricebook (database (process s))
                        (pricebook_items (database (process s)))
                        (pricebook_item_versions (database (process s)) ++ [v]))
                     [];
        pricebook_item_versions_id_seq := pricebook_item_versions_id_seq s + 1;
        users := users s; users_id_seq := users_id_seq s |},
     [{| rp_status := 201; rp_content := CVersion (Some v) |}], Some tt).
Proof.
  intros Hf Hitem Htier v. unfold post_pricebook_items_id_versions.
  assert (invalid_price_tier price_tier = false) as ->.
  { destruct price_tier as [| | t]; simpl; try done.
    destruct (Htier t eq_refl) as [-> | Hin]; [done |].
    rewrite (includes_true _ _ Hin). by rewrite andb_false_r. }
  assert (price_tier_allowed (or_null price_tier) = true) as Hallowed.
  { destruct price_tier as [| | t]; simpl; try done.
    destruct (Htier t eq_refl) as [-> | Hin]; [done |].
    destruct (truthy_string t); [| done]. simpl. by apply includes_true. }
  rewrite carry_out_guard. unfold mbind, routine_bind.
  rewrite carry_out_and_then, carry_out_awaited, submit_healthy by done.
  simpl. rewrite Hitem. simpl.
  rewrite submit_healthy by done. simpl. rewrite Hitem, Hallowed. simpl.
  by rewrite Hf.
Qed.
(** X21. A version created by [POST /pricebook/items/:id/versions] takes
    effect at its date.  With a healthy database, an existing item and a tier
    that is missing, [null], empty or one of the three, the route answers 201
    with the new row.  Afterwards [POST /pricebook/calculate] answers every
    request at a database time before [effective_at] exactly as it would
    have without the new version; at a time from [effective_at] on, provided
    every other version of the item in force by then is dated strictly
    earlier, the new version is the one selected, so the item is priced from
    its labour rate and parts cost and from its tier, or the item's tier when
    it has none; and the version selected for any other item is never
    affected. *)
Theorem new_version_prices_from_its_date (s : site) (id effective labour parts : Z)
    (price_tier : field string) (pbItem : pricebook_item)
    (Hfaults : faults (process s) = [])
    (Hitem : pricebook_items (database (process s)) !! id = Some pbItem)
    (Htier : forall t, price_tier = Val t -> t = "" \/ t ∈ price_tiers) :
  let v := {| piv_id := pricebook_item_versions_id_seq s; piv_item_id := id;
              piv_effective_at := effective; piv_labour_rate := labour;
              piv_parts_cost := parts; piv_price_tier := or_null price_tier |} in
  let request := post_pricebook_items_id_versions id (Val effective) (Val labour)
                   (Val parts) price_tier in
  let s' := (carry_out request s []).1.1 in
  let versions := pricebook_item_versions (database (process s)) in
  let versions' := pricebook_item_versions (database (process s')) in
  (carry_out request s []).1.2 = [{| rp_status := 201; rp_content := CVersion (Some v) |}]
  /\ (forall t items,
        t < effective ->
        responses (post_pricebook_calculate items) (at_now (process s') t)
        = responses (post_pricebook_calculate items) (at_now (process s) t))
  /\ (forall t,
        effective <= t ->
        (forall v', v' ∈ versions -> piv_item_id v' = id -> piv_effective_at v' <= t ->
           piv_effective_at v' < effective) ->
        select_latest_version t versions' id = [v]
        /\ current_rate pbItem (select_latest_version t versions' id)
           = (labour, parts,
              match or_null price_tier with
              | Some tier => Some tier
              | None => pi_price_tier pbItem
              end))
  /\ (forall t id',
        id' <> id ->
        select_latest_version t versions' id' = select_latest_version t versions id').
Proof.
  intros v request s' versions versions'. subst s' versions'. subst request.
  rewrite (run_post_version_healthy s id effective labour parts price_tier pbItem)
    by done.
  fold v. cbn [fst snd process database set_database pricebook_item_versions set_pricebook].
  split; [done |]. split; [| split].
  - intros t items Ht. apply calculate_same_rates.
    unfold same_rates, at_now. cbn. split; [done |]. split; [by rewrite Hfaults |].
    intros id'. apply select_latest_version_app_other.
    intros [_ Hle]. simpl in Hle. lia.
  - intros t Ht Hearlier.
    assert (select_latest_version t (versions ++ [v]) id = [v]) as Hsel.
    { apply select_latest_version_newest.
      - split; simpl; [done | lia].
      - intros v' Hin [Hid Hle]. simpl. by apply Hearlier. }
    fold versions. rewrite Hsel. split; [done |].
    unfold current_rate. simpl.
    destruct price_tier as [| | tier]; simpl; try done.
    unfold truthy_string. destruct (decide (tier = "")) as [-> | Hne]; [done |].
    simpl. unfold truthy_string. by rewrite decide_False.
  - intros t id' Hne. apply select_latest_version_app_other.
    intros [Hid _]. simpl in Hid. by apply Hne.
Qed.

Lemma new_version_prices_from_its_date_witness :
  (carry_out (post_pricebook_items_id_versions 1 (Val 300) (Val 9000) (Val 5000)
                (Val "best")) sample_site []).1.2
  = [{| rp_status := 201;
        rp_content := CVersion (Some {| piv_id := 3; piv_item_id := 1;
                                        piv_effective_at := 300;
                                        piv_labour_rate := 9000;
                                        piv_parts_cost := 5000;
                                        piv_price_tier := Some "best" |}) |}].
Proof.
  refine (proj1 (new_version_prices_from_its_date sample_site 1 300 9000 5000
                   (Val "best") drain_cleaning _ _ _)).
  - reflexivity.
  - reflexivity.
  - intros t [= <-]. right. set_solver.
Defined.

(** X22. What [POST /pricebook/items/:id/versions] refuses: a request
    without [effective_at], [labour_rate] or [parts_cost] and a request whose
    tier is a non-empty text outside the three are answered 400 before any
    statement is issued, and with a healthy database a request for an item
    that does not exist is answered 404; in each case exactly one response is
    written and nothing changes. *)
Theorem version_refusals_change_nothing (s : site) (id : Z)
    (effective_at labour_rate parts_cost : field Z) (price_tier : field string) :
  let request := post_pricebook_items_id_versions id effective_at labour_rate
                   parts_cost price_tier in
  (to_sql effective_at = None \/ to_sql labour_rate = None \/ to_sql parts_cost = None ->
   carry_out request s []
   = (s, [{| rp_status := 400;
             rp_content := CError "effective_at, labour_rate and parts_cost are required" |}],
      Some tt))
  /\ (to_sql effective_at <> None -> to_sql labour_rate <> None ->
      to_sql parts_cost <> None ->
      (exists t, price_tier = Val t /\ t <> "" /\ t ∉ price_tiers) ->
      carry_out request s []
      = (s, [{| rp_status := 400; rp_content := CError "Invalid price_tier" |}], Some tt))
  /\ (to_sql effective_at <> None -> to_sql labour_rate <> None ->
      to_sql parts_cost <> None ->
      invalid_price_tier price_tier = false ->
      faults (process s) = [] ->
      pricebook_items (database (process s)) !! id = None ->
      carry_out request s []
      = (s, [{| rp_status := 404; rp_content := CError "Item not found" |}], Some tt)).
Proof.
  intros request. subst request. unfold post_pricebook_items_id_versions.
  split; [| split].
  - intros [H | [H | H]];
      destruct effective_at, labour_rate, parts_cost; simpl in *; done.
  - intros He Hl Hp (t & -> & Hne & Hout).
    destruct effective_at, labour_rate, parts_cost; simpl in *; try done.
    unfold truthy_string. rewrite decide_False by done.
    by rewrite (includes_false _ _ Hout).
  - intros He Hl Hp -> Hf Hnone.
    destruct effective_at, labour_rate, parts_cost; simpl in *; try done.
    rewrite submit_healthy by done. simpl. rewrite Hnone. done.
Qed.

Lemma version_refusals_change_nothing_witness :
  carry_out (post_pricebook_items_id_versions 1 (Val 300) Null (Val 5000) Undefined)
    sample_site []
  = (sample_site,
     [{| rp_status := 400;
         rp_content := CError "effective_at, labour_rate and parts_cost are required" |}],
     Some tt).
Proof.
  apply (proj1 (version_refusals_change_nothing sample_site 1 (Val 300) Null (Val 5000)
                  Undefined)).
  right. left. reflexivity.
Defined.
(** ** Deleting a job or an item *)

Lemma select_service_history_without (h : list service_history_row) (id id' : Z) :
  id' <> id ->
  select_service_history (filter (fun r => sh_job_id r <> id) h) id'
  = select_service_history h id'.
Proof.
  intros Hne. unfold select_service_history. rewrite list_filter_filter.
  apply list_filter_iff. intros r. split; [by intros [? _] |].
  intros Hr. split; [done | congruence].
Qed.

Lemma select_service_history_gone (h : list service_history_row) (id : Z) :
  select_service_history (filter (fun r => sh_job_id r <> id) h) id = [].
Proof.
  unfold select_service_history. rewrite list_filter_filter.
  induction h as [| r h IH]; [done |].
  rewrite filter_cons_False; [done |]. by intros [? ?].
Qed.

Lemma select_latest_version_without now versions id id' :
  id' <> id ->
  select_latest_version now (filter (fun v => piv_item_id v <> id) versions) id'
  = select_latest_version now versions id'.
Proof.
  intros Hne. unfold select_latest_version. f_equal. f_equal.
  rewrite list_filter_filter. apply list_filter_iff.
  intros v. split; [by intros [? _] |].
  intros [Hid Hle]. split; [done | congruence].
Qed.

Lemma run_put_jobs_id_missing (w : world) (id : Z) (b : job_patch) :
  faults w = [] ->
  jobs (database w) !! id = None ->
  run (put_jobs_id id b) w []
  = (w, [{| res_status := 404; res_body := BError "Job not found" |}], Some tt).
Proof.
  intros Hf Hj. unfold put_jobs_id. rewrite run_try_catch. unfold mbind, prog_bind.
  rewrite run_bind, run_await, query_select_job by done.
  unfold select_by_key. rewrite Hj. done.
Qed.

(** X23. [DELETE /jobs/:id] takes the job's records along.  With a healthy
    database and an existing job the route answers 204; afterwards the job is
    gone together with its service history, its invoices and the payments of
    those invoices, while every other job, its history, and every invoice of
    another job are as before.  From then on [PUT /jobs/:id] for that id is
    answered 404 "Job not found", and so is a second [DELETE]. *)
Theorem delete_job_takes_its_records (s : site) (id : Z) (j : job)
    (Hfaults : faults (process s) = [])
    (Hjob : jobs (database (process s)) !! id = Some j) :
  let d := database (process s) in
  let s' := (carry_out (delete_jobs_id id) s []).1.1 in
  let d' := database (process s') in
  (carry_out (delete_jobs_id id) s []).1.2
  = [{| rp_status := 204; rp_content := CStatusText |}]
  /\ jobs d' !! id = None
  /\ select_service_history (service_history d') id = []
  /\ (forall k i, invoices d' !! k = Some i -> inv_job_id i <> id)
  /\ (forall p, p ∈ payments d' -> p ∈ payments d /\ ~ paid_for_job d id p)
  /\ (forall id', id' <> id ->
        jobs d' !! id' = jobs d !! id'
        /\ select_service_history (service_history d') id'
           = select_service_history (service_history d) id')
  /\ (forall k i, invoices d !! k = Some i -> inv_job_id i <> id ->
        invoices d' !! k = Some i)
  /\ (forall p, p ∈ payments d -> ~ paid_for_job d id p -> p ∈ payments d')
  /\ (forall b,
        responses (put_jobs_id id b) (process s')
        = [{| res_status := 404; res_body := BError "Job not found" |}])
  /\ (carry_out (delete_jobs_id id) s' []).1.2
     = [{| rp_status := 404; rp_content := CError "Job not found" |}].
Proof.
  intros d s' d'.
  assert (carry_out (delete_jobs_id id) s []
          = (set_tables s (delete_job d id),
             [{| rp_status := 204; rp_content := CStatusText |}], Some tt)) as Hrun.
  { unfold delete_jobs_id. rewrite carry_out_guard. unfold mbind, routine_bind.
    rewrite carry_out_and_then, carry_out_awaited, submit_healthy by done.
    simpl. subst d. by rewrite Hjob. }
  subst d' s'. rewrite Hrun. cbn [fst snd].
  assert (database (process (set_tables s (delete_job d id))) = delete_job d id)
    as -> by done.
  assert (faults (process (set_tables s (delete_job d id))) = []) as Hf' by done.
  assert (jobs (delete_job d id) !! id = None) as Hgone
    by (simpl; apply lookup_delete_eq).
  split; [done |]. split; [done |].
  split; [apply select_service_history_gone |].
  split; [by intros k i [_ Hne]%map_lookup_filter_Some |].
  split; [intros p [Hnot Hin]%list_elem_of_filter; done |].
  split.
  { intros id' Hne. split.
    - simpl. by rewrite lookup_delete_ne.
    - by apply select_service_history_without. }
  split; [intros k i Hk Hne; by apply map_lookup_filter_Some |].
  split; [intros p Hin Hnot; by apply list_elem_of_filter |].
  split.
  { intros b. unfold responses. by rewrite run_put_jobs_id_missing. }
  unfold delete_jobs_id. rewrite carry_out_guard. unfold mbind, routine_bind.
  rewrite carry_out_and_then, carry_out_awaited, submit_healthy by done.
  cbn [execute].
  assert (database (process (set_tables s (delete_job d id))) = delete_job d id)
    as -> by done.
  by rewrite Hgone.
Qed.

Lemma delete_job_takes_its_records_witness :
  jobs (database (process (carry_out (delete_jobs_id 1) sample_site []).1.1)) !! 1 = None.
Proof.
  refine (proj1 (proj2 (delete_job_takes_its_records sample_site 1 scheduled_job _ _))).
  - reflexivity.
  - reflexivity.
Defined.

(** X24. [DELETE /pricebook/items/:id] takes the item's versions along and
    the item can no longer be priced.  With a healthy database and an
    existing item the route answers 204; afterwards the item and all its
    versions are gone, every other item and the version selected for it at
    any time are as before, and [POST /pricebook/calculate] with a line that
    names the deleted item answers with a single error of status 400 or 500,
    never with a total, whatever the clock, the other lines and the faults
    of the database.  A second [DELETE] is answered 404. *)
Theorem deleted_item_cannot_be_priced (s : site) (id : Z) (pbItem : pricebook_item)
    (Hfaults : faults (process s) = [])
    (Hitem : pricebook_items (database (process s)) !! id = Some pbItem) :
  let d := database (process s) in
  let s' := (carry_out (delete_pricebook_items_id id) s []).1.1 in
  let d' := database (process s') in
  (carry_out (delete_pricebook_items_id id) s []).1.2
  = [{| rp_status := 204; rp_content := CStatusText |}]
  /\ pricebook_items d' !! id = None
  /\ (forall v, v ∈ pricebook_item_versions d' -> piv_item_id v <> id)
  /\ (forall id' t, id' <> id ->
        pricebook_items d' !! id' = pricebook_items d !! id'
        /\ select_latest_version t (pricebook_item_versions d') id'
           = select_latest_version t (pricebook_item_versions d) id')
  /\ (forall w entry rest,
        database w = d' ->
        Exists (fun e => exists q, line_fields e = Some (id, q)) (entry :: rest) ->
        exists st e,
          responses (post_pricebook_calculate (Some (entry :: rest))) w
          = [{| res_status := st; res_body := BError e |}]
          /\ (st = 400 \/ st = 500))
  /\ (carry_out (delete_pricebook_items_id id) s' []).1.2
     = [{| rp_status := 404; rp_content := CError "Item not found" |}].
Proof.
  intros d s' d'.
  assert (carry_out (delete_pricebook_items_id id) s []
          = (set_tables s (delete_pricebook_item d id),
             [{| rp_status := 204; rp_content := CStatusText |}], Some tt)) as Hrun.
  { unfold delete_pricebook_items_id. rewrite carry_out_guard. unfold mbind, routine_bind.
    rewrite carry_out_and_then, carry_out_awaited, submit_healthy by done.
    simpl. subst d. by rewrite Hitem. }
  subst d' s'. rewrite Hrun. cbn [fst snd].
  assert (database (process (set_tables s (delete_pricebook_item d id)))
          = delete_pricebook_item d id) as Hd by done.
  rewrite Hd.
  assert (pricebook_items (delete_pricebook_item d id) !! id = None) as Hgone
    by (simpl; apply lookup_delete_eq).
  split; [done |]. split; [done |].
  split; [by intros v [Hne _]%list_elem_of_filter |].
  split.
  { intros id' t Hne. split.
    - simpl. by rewrite lookup_delete_ne.
    - by apply select_latest_version_without. }
  split.
  { intros w entry rest Hw Hex. unfold responses, post_pricebook_calculate.
    rewrite run_try_catch.
    assert (Exists (dangling (database w)) (entry :: rest)) as Hdangling.
    { eapply Exists_impl; [exact Hex |]. intros e [q Hq]. exists id, q.
      split; [done |]. by rewrite Hw. }
    destruct (calculate_loop_dangling (entry :: rest) 0%float [] w [] Hdangling)
      as (w' & _ & [-> | [e ->]]).
    - eexists 500, _. split; [reflexivity | by right].
    - eexists 400, e. split; [reflexivity | by left]. }
  unfold delete_pricebook_items_id. rewrite carry_out_guard. unfold mbind, routine_bind.
  rewrite carry_out_and_then, carry_out_awaited, submit_healthy by done.
  cbn [execute]. rewrite Hd. by rewrite Hgone.
Qed.

Lemma deleted_item_cannot_be_priced_witness :
  pricebook_items
    (database (process (carry_out (delete_pricebook_items_id 1) sample_site []).1.1)) !! 1
  = None.
Proof.
  refine (proj1 (proj2 (deleted_item_cannot_be_priced sample_site 1 drain_cleaning _ _))).
  - reflexivity.
  - reflexivity.
Defined.

(** X25. A history row entered by hand stands in for the automatic one.
    With a healthy database, [POST /service_history] for an existing job
    with non-zero [job_id] and [customer_id] answers 201 with the new row,
    which carries the given customer and [performed_at].  When the job had no
    history before and is not completed, a following [PUT /jobs/:id] that
    sets the status "completed" answers 200 with the completed job and
    records nothing: the job's history is still that one row, whose
    [performed_at] is the one given by hand and not the time of
    completion. *)
Theorem manual_history_stands_for_completion (s : site) (id customer performed : Z)
    (nt : field string) (j : job)
    (Hfaults : faults (process s) = [])
    (Hjob : jobs (database (process s)) !! id = Some j)
    (Hid : id <> 0)
    (Hcustomer : customer <> 0)
    (Hopen : status j <> "completed")
    (Hnone : select_service_history (service_history (database (process s))) id = []) :
  let r := {| sh_id := service_history_id_seq (database (process s)); sh_job_id := id;
              sh_customer_id := customer; sh_performed_at := performed;
              sh_notes := or_null nt |} in
  let request := post_service_history (Val id) (Val customer) (Val performed) nt in
  let s1 := (carry_out request s []).1.1 in
  (carry_out request s []).1.2 = [{| rp_status := 201; rp_content := CHistory (Some r) |}]
  /\ select_service_history (service_history (database (process s1))) id = [r]
  /\ forall b,
       p_status b = Val "completed" ->
       let j' := update_job_row (now (process s1)) (update_params b) j in
       let w2 := (run (put_jobs_id id b) (process s1) []).1.1 in
       responses (put_jobs_id id b) (process s1)
       = [{| res_status := 200; res_body := BJob (Some (id, j')) |}]
       /\ status j' = "completed"
       /\ select_service_history (service_history (database w2)) id = [r].
Proof.
  intros r request s1.
  assert (carry_out request s []
          = (set_tables s (set_service_history (database (process s))
                             (service_history (database (process s)) ++ [r])
                             (service_history_id_seq (database (process s)) + 1)),
             [{| rp_status := 201; rp_content := CHistory (Some r) |}], Some tt)) as Hrun.
  { subst request. unfold post_service_history, truthy_Z.
    destruct (Z.eqb_spec id 0) as [? | _]; [done |].
    destruct (Z.eqb_spec customer 0) as [? | _]; [done |]. cbn [negb andb].
    rewrite carry_out_guard. unfold mbind, routine_bind.
    rewrite carry_out_and_then, carry_out_awaited, submit_healthy by done.
    simpl. by rewrite Hjob. }
  subst s1. rewrite Hrun. cbn [fst snd].
  assert (select_service_history
            (service_history (database (process s)) ++ [r]) id = [r]) as Hone.
  { unfold select_service_history in *. rewrite filter_app, Hnone. simpl.
    by rewrite filter_cons_True, filter_nil. }
  split; [done |]. split; [exact Hone |].
  intros b Hb. cbv zeta. unfold responses.
  match goal with |- context [update_job_row ?t ?p j] =>
    set (j' := update_job_row t p j) end.
  assert (status j' = "completed") as Hstatus
    by (subst j'; simpl; by rewrite Hb).
  rewrite (run_put_jobs_id_healthy _ id b j); [| done | done |].
  2:{ fold j'. simpl in Hstatus |- *. rewrite Hstatus. done. }
  cbn [fst snd database]. split; [done |]. split; [done |].
  unfold tables_after_put.
  assert (becomes_completed (p_status b) (status j) = true) as ->.
  { rewrite Hb. unfold becomes_completed. simpl.
    by rewrite bool_decide_eq_false_2. }
  cbn [set_tables set_process process set_database database service_history
       set_service_history].
  rewrite Hone. simpl. exact Hone.
Qed.

Lemma manual_history_stands_for_completion_witness :
  select_service_history
    (service_history
       (database (process (carry_out
                             (post_service_history (Val 1) (Val 7) (Val 50) Undefined)
                             sample_site []).1.1))) 1
  = [{| sh_id := 1; sh_job_id := 1; sh_customer_id := 7; sh_performed_at := 50;
        sh_notes := None |}].
Proof.
  refine (proj1 (proj2 (manual_history_stands_for_completion sample_site 1 7 50 Undefined
                          scheduled_job _ _ _ _ _ _))); try reflexivity; try done.
Defined.

(** ** Accounts *)

Lemma select_users_by_email_elem (us : gmap Z user) (e : string) (k : Z) (v : user) :
  (k, v) ∈ select_users_by_email us (Some e) <-> us !! k = Some v /\ email v = e.
Proof.
  unfold select_users_by_email. rewrite list_elem_of_filter, elem_of_map_to_list.
  simpl. tauto.
Qed.

Lemma select_users_by_email_nil (us : gmap Z user) (e : string) :
  select_users_by_email us (Some e) = [] <->
  forall k v, us !! k = Some v -> email v <> e.
Proof.
  split.
  - intros Hnil k v Hk He.
    assert ((k, v) ∈ select_users_by_email us (Some e)) as Hin
      by by apply select_users_by_email_elem.
    rewrite Hnil in Hin. by apply elem_of_nil in Hin.
  - intros Hnone.
    destruct (select_users_by_email us (Some e)) as [| [k v] l] eqn:Hsel; [done |].
    assert ((k, v) ∈ select_users_by_email us (Some e)) as Hin
      by (rewrite Hsel; by left).
    apply select_users_by_email_elem in Hin as [Hk He]. by destruct (Hnone k v Hk).
Qed.

Lemma select_users_by_email_singleton (us : gmap Z user) (e : string) (id : Z) (u : user) :
  select_users_by_email us (Some e) = [(id, u)] <->
  forall k v, (us !! k = Some v /\ email v = e) <-> (k = id /\ v = u).
Proof.
  split.
  - intros Hsel k v. rewrite <- select_users_by_email_elem, Hsel.
    rewrite list_elem_of_singleton. split; [by intros [= -> ->] | by intros [-> ->]].
  - intros Hone. apply Permutation_singleton_r. apply NoDup_Permutation.
    + unfold select_users_by_email. apply NoDup_filter, NoDup_map_to_list.
    + apply NoDup_singleton.
    + intros [k v]. rewrite select_users_by_email_elem, list_elem_of_singleton, Hone.
      split; [by intros [-> ->] | by intros [= -> ->]].
Qed.

Lemma select_users_by_email_alter (us : gmap Z user) (e : string) (id : Z) (u : user)
    (f : user -> user) :
  (forall v, email (f v) = email v) ->
  select_users_by_email us (Some e) = [(id, u)] ->
  select_users_by_email (alter f id us) (Some e) = [(id, f u)].
Proof.
  intros Hf Hsel. rewrite select_users_by_email_singleton in Hsel.
  apply select_users_by_email_singleton. intros k v. split.
  - intros [Hk He]. apply lookup_alter_Some in Hk as [(<- & x & Hx & ->) | [Hne Hk]].
    + rewrite Hf in He. destruct (proj1 (Hsel id x) (conj Hx He)) as [_ ->]. done.
    + destruct (proj1 (Hsel k v) (conj Hk He)) as [-> _]. done.
  - intros [-> ->]. destruct (proj2 (Hsel id u) (conj eq_refl eq_refl)) as [Hu He].
    split; [| by rewrite Hf]. apply lookup_alter_Some. left. split; [done |]. by exists u.
Qed.

Lemma submit_cases {R} (q : statement R) (s : site) :
  submit q s = (Rejected, set_faults s (tail (faults (process s))))
  \/ submit q s = execute q (set_faults s (tail (faults (process s))))
  \/ (faults (process s) = [] /\ submit q s = execute q s).
Proof.
  unfold submit. destruct (faults (process s)) as [| [|] fs]; simpl; auto.
Qed.

Lemma verifyPassword_hashPassword (pbkdf2_hex : string -> string -> string)
    (salt password other : string) :
  colon ∉ chars salt ->
  colon ∉ chars (pbkdf2_hex password salt) ->
  verifyPassword pbkdf2_hex other (hashPassword pbkdf2_hex salt password)
  = bool_decide (pbkdf2_hex password salt = pbkdf2_hex other salt).
Proof.
  intros Hsalt Hdigest. unfold verifyPassword, hashPassword, split.
  rewrite split_from_first by done. rewrite split_from_no_separator by done.
  simpl. apply bool_decide_ext.
  change (Some (pbkdf2_hex password salt) = Some (pbkdf2_hex other salt)
          <-> pbkdf2_hex password salt = pbkdf2_hex other salt).
  split; congruence.
Qed.

Lemma role_validated (r : field string) :
  optional (isIn user_roles) r = true ->
  includes user_roles (or_literal (to_sql r) "manager") = true.
Proof.
  destruct r as [| | t]; simpl; try done.
  intros Hin. unfold truthy_string.
  destruct (decide (t = "")) as [-> | _]; [done | exact Hin].
Qed.

Ltac step_submit :=
  simpl;
  match goal with
  | |- context [submit ?q ?s] =>
      destruct (submit_cases q s) as [-> | [-> | [_ ->]]]; simpl
  end.

Section AccountsFlow.

Variable pbkdf2_hex : string -> string -> string.
Variable jwt_sign : token_user -> string.
Variable totp_verify : option string -> string -> outcome bool.
Variable isEmail isLength_min_6 notEmpty isNumeric : field string -> bool.

Abbreviation register := (post_auth_register pbkdf2_hex jwt_sign isEmail isLength_min_6).
Abbreviation login := (post_auth_login pbkdf2_hex jwt_sign totp_verify isEmail notEmpty isNumeric).

Lemma run_register_healthy (s : site) (salt e p : string) (r : field string) :
  faults (process s) = [] ->
  isEmail (Val e) = true ->
  isLength_min_6 (Val p) = true ->
  optional (isIn user_roles) r = true ->
  select_users_by_email (users s) (Some e) = [] ->
  let u := {| tu_id := users_id_seq s; tu_email := e;
              tu_role := or_literal (to_sql r) "manager"; tu_mfa_enabled := false |} in
  let stored := {| email := e; password_hash := hashPassword pbkdf2_hex salt p;
                   role := or_literal (to_sql r) "manager";
                   mfa_secret := None; mfa_enabled := false;
                   user_created_at := now (process s);
                   user_updated_at := now (process s) |} in
  carry_out (register salt (Val e) (Val p) r) s []
  = (set_users s (<[users_id_seq s := stored]> (users s)) (users_id_seq s + 1),
     [{| rp_status := 201; rp_content := CRegistered (jwt_sign u) u |}], Some tt).
Proof.
  intros Hf He Hp Hr Hnew u stored. unfold post_auth_register.
  rewrite He, Hp, Hr. cbn [andb].
  rewrite carry_out_guard. unfold mbind, routine_bind.
  rewrite carry_out_and_then, carry_out_awaited, submit_healthy by done.
  cbn [execute to_sql]. rewrite Hnew. cbn [map].
  rewrite carry_out_and_then, carry_out_awaited, submit_healthy by done.
  cbn [execute]. rewrite Hnew, (role_validated r Hr). done.
Qed.

Lemma run_login_found (s : site) (e p : string) (mfa_code : field string) (id : Z)
    (u : user) (rest : list (Z * user)) :
  faults (process s) = [] ->
  isEmail (Val e) = true ->
  notEmpty (Val p) = true ->
  optional isNumeric mfa_code = true ->
  select_users_by_email (users s) (Some e) = (id, u) :: rest ->
  carry_out (login (Val e) (Val p) mfa_code) s []
  = carry_out
      (guard
         (if negb (verifyPassword pbkdf2_hex p (password_hash u))
          then answer 401 (CError "Invalid credentials")
          else
            if mfa_enabled u then
              match mfa_code with
              | Val code =>
                  if truthy_string code then
                    match totp_verify (mfa_secret u) code with
                    | Resolved true => answer 200 (CToken (jwt_sign (payload id u)))
                    | Resolved false => answer 401 (CError "Invalid MFA code")
                    | Rejected => Fail
                    end
                  else answer 401 (CError "MFA code required")
              | _ => answer 401 (CError "MFA code required")
              end
            else answer 200 (CToken (jwt_sign (payload id u))))
         server_error) s [].
Proof.
  intros Hf He Hp Hm Hsel. unfold post_auth_login.
  rewrite He, Hp, Hm. cbn [andb].
  rewrite !carry_out_guard. unfold mbind, routine_bind.
  rewrite carry_out_and_then, carry_out_awaited, submit_healthy by done.
  cbn [execute to_sql]. rewrite Hsel. done.
Qed.


(** X26. A registered user can log in, with that password only, and the
    e-mail is taken.  With a healthy database, a registration that passes
    its validators for an e-mail no user has yet answers 201 with a token
    for the new user, whose role is the one asked for or "manager" and is
    one the table allows.  When the salt and the digest contain no colon, a
    following login with the same e-mail and password answers 200 with a
    token for that user; a login with a password of another digest answers
    401 "Invalid credentials"; and a second registration of the same e-mail
    answers 409 and stores nothing. *)
Theorem registered_user_can_log_in (s : site) (salt e p : string) (r : field string)
    (Hfaults : faults (process s) = [])
    (Hemail : isEmail (Val e) = true)
    (Hlength : isLength_min_6 (Val p) = true)
    (Hnotempty : notEmpty (Val p) = true)
    (Hrole : optional (isIn user_roles) r = true)
    (Hnew : select_users_by_email (users s) (Some e) = [])
    (Hsalt : colon ∉ chars salt)
    (Hdigest : colon ∉ chars (pbkdf2_hex p salt)) :
  let u := {| tu_id := users_id_seq s; tu_email := e;
              tu_role := or_literal (to_sql r) "manager"; tu_mfa_enabled := false |} in
  let s' := (carry_out (register salt (Val e) (Val p) r) s []).1.1 in
  (carry_out (register salt (Val e) (Val p) r) s []).1.2
  = [{| rp_status := 201; rp_content := CRegistered (jwt_sign u) u |}]
  /\ tu_role u ∈ user_roles
  /\ carry_out (login (Val e) (Val p) Undefined) s' []
     = (s', [{| rp_status := 200; rp_content := CToken (jwt_sign u) |}], Some tt)
  /\ (forall other,
        notEmpty (Val other) = true ->
        pbkdf2_hex other salt <> pbkdf2_hex p salt ->
        carry_out (login (Val e) (Val other) Undefined) s' []
        = (s', [{| rp_status := 401; rp_content := CError "Invalid credentials" |}],
           Some tt))
  /\ (forall salt' p' r',
        isLength_min_6 p' = true ->
        optional (isIn user_roles) r' = true ->
        carry_out (register salt' (Val e) p' r') s' []
        = (s', [{| rp_status := 409; rp_content := CError "User already exists" |}],
           Some tt)).
Proof.
  intros u s'. subst s'.
  rewrite (run_register_healthy s salt e p r) by done.
  cbn [fst snd].
  match goal with |- context [set_users s (<[_ := ?row]> _) _] => set (stored := row) end.
  set (s' := set_users s (<[users_id_seq s := stored]> (users s)) (users_id_seq s + 1)).
  assert (faults (process s') = []) as Hf' by done.
  assert (select_users_by_email (users s') (Some e) = [(users_id_seq s, stored)]) as Hsel.
  { apply select_users_by_email_singleton. intros k v. subst s'. simpl.
    destruct (decide (k = users_id_seq s)) as [-> | Hne].
    - rewrite lookup_insert_eq. split; [by intros [[= <-] _] | by intros [_ ->]].
    - rewrite lookup_insert_ne by done. split; [| by intros [? _]].
      intros [Hk He]. rewrite select_users_by_email_nil in Hnew.
      by destruct (Hnew k v Hk). }
  split; [done |]. split.
  { unfold includes in *. pose proof (role_validated r Hrole) as Hin.
    by apply bool_decide_eq_true_1 in Hin. }
  split; [| split].
  - rewrite (run_login_found s' e p Undefined _ _ [] Hf' Hemail Hnotempty eq_refl Hsel).
    subst stored. cbn [password_hash mfa_enabled].
    rewrite verifyPassword_hashPassword by done.
    rewrite bool_decide_eq_true_2 by done. done.
  - intros other Hother Hdiff.
    rewrite (run_login_found s' e other Undefined _ _ [] Hf' Hemail Hother eq_refl Hsel).
    subst stored. cbn [password_hash mfa_enabled].
    rewrite verifyPassword_hashPassword by done.
    rewrite bool_decide_eq_false_2 by congruence. done.
  - intros salt' p' r' Hp' Hr'. unfold post_auth_register.
    rewrite Hemail, Hp', Hr'. cbn [andb].
    rewrite carry_out_guard. unfold mbind, routine_bind.
    rewrite carry_out_and_then, carry_out_awaited, submit_healthy by done.
    cbn [execute to_sql]. rewrite Hsel. done.
Qed.

(** X27. A refused login does not tell an unknown e-mail from a wrong
    password: with a healthy database, when no user with the given e-mail has
    a password hash the password verifies against (there may be no such user
    at all), the login answers 401 "Invalid credentials" and changes nothing,
    whatever MFA code came with it and whether MFA is enabled or not. *)
Theorem login_refusal_does_not_tell (s : site) (e p : string) (mfa_code : field string)
    (Hfaults : faults (process s) = [])
    (Hemail : isEmail (Val e) = true)
    (Hnotempty : notEmpty (Val p) = true)
    (Hcode : optional isNumeric mfa_code = true)
    (Hwrong : forall id u, users s !! id = Some u -> email u = e ->
                verifyPassword pbkdf2_hex p (password_hash u) = false) :
  carry_out (login (Val e) (Val p) mfa_code) s []
  = (s, [{| rp_status := 401; rp_content := CError "Invalid credentials" |}], Some tt).
Proof.
  destruct (select_users_by_email (users s) (Some e)) as [| [id u] rest] eqn:Hsel.
  - unfold post_auth_login. rewrite Hemail, Hnotempty, Hcode. cbn [andb].
    rewrite carry_out_guard. unfold mbind, routine_bind.
    rewrite carry_out_and_then, carry_out_awaited, submit_healthy by done.
    cbn [execute to_sql]. rewrite Hsel. done.
  - rewrite (run_login_found s e p mfa_code id u rest) by done.
    assert ((id, u) ∈ select_users_by_email (users s) (Some e)) as Hin
      by (rewrite Hsel; by left).
    apply select_users_by_email_elem in Hin as [Hid He].
    rewrite (Hwrong id u Hid He). done.
Qed.

(** X28. MFA is switched on only by a code that verifies against the stored
    secret.  Whatever the input and the faults of the database,
    [/auth/setup-mfa] leaves every user's [mfa_enabled] as it was, and
    [/auth/verify-mfa] leaves every user's e-mail, password hash, role and
    secret as they were and changes [mfa_enabled] for no user but the one of
    the token, and for that one only from off to on and only when the code
    sent is a non-empty text that verifies against the secret stored for
    that user. *)
Theorem mfa_switched_on_only_by_valid_code (s : site) (req_user : token_user) :
  (forall base32 otpauth_url k u',
     users (carry_out (post_auth_setup_mfa req_user base32 otpauth_url) s []).1.1 !! k
     = Some u' ->
     exists u, users s !! k = Some u /\ mfa_enabled u' = mfa_enabled u)
  /\ (forall mfaToken k u',
        users (carry_out (post_auth_verify_mfa totp_verify req_user mfaToken) s []).1.1 !! k
        = Some u' ->
        exists u,
          users s !! k = Some u
          /\ email u' = email u /\ password_hash u' = password_hash u
          /\ role u' = role u /\ mfa_secret u' = mfa_secret u
          /\ (mfa_enabled u' = mfa_enabled u
              \/ (k = tu_id req_user /\ mfa_enabled u = false /\ mfa_enabled u' = true
                  /\ exists t, mfaToken = Val t /\ t <> ""
                       /\ totp_verify (mfa_secret u) t = Resolved true))).
Proof.
  split.
  - intros base32 otpauth_url k u'. unfold post_auth_setup_mfa.
    rewrite carry_out_guard. unfold mbind, routine_bind.
    rewrite carry_out_and_then, carry_out_awaited.
    destruct (submit_cases (UpdateMfaSecret base32 (tu_id req_user)) s)
      as [-> | [-> | [_ ->]]]; simpl; try (intros Hk; by exists u');
      intros Hk; apply lookup_alter_Some in Hk as [(_ & u & Hk & ->) | [_ Hk]];
      by eexists.
  - intros mfaToken k u'. unfold post_auth_verify_mfa.
    assert (users s !! k = Some u' ->
            exists u,
              users s !! k = Some u
              /\ email u' = email u /\ password_hash u' = password_hash u
              /\ role u' = role u /\ mfa_secret u' = mfa_secret u
              /\ (mfa_enabled u' = mfa_enabled u
                  \/ (k = tu_id req_user /\ mfa_enabled u = false /\ mfa_enabled u' = true
                      /\ exists t, mfaToken = Val t /\ t <> ""
                           /\ totp_verify (mfa_secret u) t = Resolved true))) as Hsame.
    { intros Hk. exists u'. repeat (split; [done |]). by left. }
    destruct mfaToken as [| | t]; try (simpl; exact Hsame).
    cbv beta iota. unfold truthy_string.
    destruct (decide (t = "")) as [-> | Hne]; [simpl; exact Hsame |].
    step_submit; [exact Hsame | |];
      (destruct (users s !! tu_id req_user) as [u |] eqn:Hu; simpl; [| exact Hsame];
       destruct (mfa_enabled u) eqn:Hoff; simpl; [exact Hsame |];
       destruct (totp_verify (mfa_secret u) t) as [[|] |] eqn:Hcode; simpl;
         try exact Hsame;
       step_submit; try exact Hsame;
       intros Hk;
       (apply lookup_alter_Some in Hk as [(<- & u0 & Hk & ->) | [_ Hk]];
        [ rewrite Hu in Hk; injection Hk as <-; exists u; repeat (split; [done |]);
          right; repeat (split; [done |]); by exists t
        | by apply Hsame ])).
Qed.
(** X29. Setting up MFA, from [/auth/setup-mfa] to a login that needs the
    code.  With a healthy database and a user whose MFA is off,
    [/auth/setup-mfa] answers 200 with the secret drawn, and a login with
    the right password still needs no code; [/auth/verify-mfa] with a
    non-empty code that verifies against that secret then answers 200 "MFA
    enabled" and the user has the secret and [mfa_enabled].  From then on a
    login with the right password and no code answers 401 "MFA code
    required", one with a code that does not verify answers 401 "Invalid MFA
    code", and one with a code that verifies answers 200 with a token that
    says MFA is enabled. *)
Theorem mfa_setup_then_login_needs_code (s : site) (req_user : token_user) (u : user)
    (base32 otpauth_url code p : string)
    (Hfaults : faults (process s) = [])
    (Honly : select_users_by_email (users s) (Some (email u)) = [(tu_id req_user, u)])
    (Hoff : mfa_enabled u = false)
    (Hcode : code <> "")
    (Hvalid : totp_verify (Some base32) code = Resolved true)
    (Hemail : isEmail (Val (email u)) = true)
    (Hnotempty : notEmpty (Val p) = true)
    (Hpassword : verifyPassword pbkdf2_hex p (password_hash u) = true) :
  let id := tu_id req_user in
  let u1 := {| email := email u; password_hash := password_hash u; role := role u;
               mfa_secret := Some base32; mfa_enabled := false;
               user_created_at := user_created_at u;
               user_updated_at := user_updated_at u |} in
  let u2 := {| email := email u; password_hash := password_hash u; role := role u;
               mfa_secret := Some base32; mfa_enabled := true;
               user_created_at := user_created_at u;
               user_updated_at := user_updated_at u |} in
  let s1 := (carry_out (post_auth_setup_mfa req_user base32 otpauth_url) s []).1.1 in
  let s2 := (carry_out (post_auth_verify_mfa totp_verify req_user (Val code)) s1 []).1.1 in
  (carry_out (post_auth_setup_mfa req_user base32 otpauth_url) s []).1.2
  = [{| rp_status := 200; rp_content := CMfaSetup base32 otpauth_url |}]
  /\ (carry_out (login (Val (email u)) (Val p) Undefined) s1 []).1.2
     = [{| rp_status := 200; rp_content := CToken (jwt_sign (payload id u1)) |}]
  /\ (carry_out (post_auth_verify_mfa totp_verify req_user (Val code)) s1 []).1.2
     = [{| rp_status := 200; rp_content := CMessage "MFA enabled" |}]
  /\ users s2 !! id = Some u2
  /\ (carry_out (login (Val (email u)) (Val p) Undefined) s2 []).1.2
     = [{| rp_status := 401; rp_content := CError "MFA code required" |}]
  /\ (forall c,
        isNumeric (Val c) = true -> c <> "" ->
        totp_verify (Some base32) c = Resolved false ->
        (carry_out (login (Val (email u)) (Val p) (Val c)) s2 []).1.2
        = [{| rp_status := 401; rp_content := CError "Invalid MFA code" |}])
  /\ (isNumeric (Val code) = true ->
      (carry_out (login (Val (email u)) (Val p) (Val code)) s2 []).1.2
      = [{| rp_status := 200; rp_content := CToken (jwt_sign (payload id u2)) |}]).
Proof.
  intros id u1 u2 s1 s2.
  assert (users s !! id = Some u) as Huser.
  { rewrite select_users_by_email_singleton in Honly.
    by destruct (proj2 (Honly id u) (conj eq_refl eq_refl)). }
  set (f1 := fun v : user =>
               {| email := email v; password_hash := password_hash v; role := role v;
                  mfa_secret := Some base32; mfa_enabled := mfa_enabled v;
                  user_created_at := user_created_at v;
                  user_updated_at := user_updated_at v |}).
  set (f2 := fun v : user =>
               {| email := email v; password_hash := password_hash v; role := role v;
                  mfa_secret := mfa_secret v; mfa_enabled := true;
                  user_created_at := user_created_at v;
                  user_updated_at := user_updated_at v |}).
  assert (f1 u = u1) as Hu1 by (subst f1 u1; simpl; by rewrite Hoff).
  assert (f2 u1 = u2) as Hu2 by done.
  assert (carry_out (post_auth_setup_mfa req_user base32 otpauth_url) s []
          = (set_users s (alter f1 id (users s)) (users_id_seq s),
             [{| rp_status := 200; rp_content := CMfaSetup base32 otpauth_url |}],
             Some tt)) as Hsetup.
  { unfold post_auth_setup_mfa. rewrite carry_out_guard. unfold mbind, routine_bind.
    rewrite carry_out_and_then, carry_out_awaited, submit_healthy by done. done. }
  subst s2 s1. rewrite Hsetup. cbn [fst snd].
  set (s1 := set_users s (alter f1 id (users s)) (users_id_seq s)).
  assert (faults (process s1) = []) as Hf1 by done.
  assert (users s1 !! id = Some u1) as Huser1.
  { subst s1. simpl. apply lookup_alter_Some. left. split; [done |]. by exists u. }
  assert (select_users_by_email (users s1) (Some (email u)) = [(id, u1)]) as Hsel1.
  { subst s1. simpl. rewrite <- Hu1. by apply select_users_by_email_alter. }
  assert (carry_out (post_auth_verify_mfa totp_verify req_user (Val code)) s1 []
          = (set_users s1 (alter f2 id (users s1)) (users_id_seq s1),
             [{| rp_status := 200; rp_content := CMessage "MFA enabled" |}],
             Some tt)) as Hverify.
  { unfold post_auth_verify_mfa, truthy_string. rewrite decide_False by done.
    rewrite carry_out_guard. unfold mbind, routine_bind.
    rewrite carry_out_and_then, carry_out_awaited, submit_healthy by done.
    cbn [execute]. fold id. rewrite Huser1. cbn [mfa_secret mfa_enabled u1].
    rewrite Hvalid.
    rewrite carry_out_and_then, carry_out_awaited, submit_healthy by done. done. }
  rewrite Hverify. cbn [fst snd].
  set (s2 := set_users s1 (alter f2 id (users s1)) (users_id_seq s1)).
  assert (faults (process s2) = []) as Hf2 by done.
  assert (users s2 !! id = Some u2) as Huser2.
  { subst s2. simpl. apply lookup_alter_Some. left. split; [done |]. by exists u1. }
  assert (select_users_by_email (users s2) (Some (email u)) = [(id, u2)]) as Hsel2.
  { subst s2. cbn [users set_users]. rewrite <- Hu2.
    by apply select_users_by_email_alter. }
  split; [done |]. split.
  { rewrite (run_login_found s1 (email u) p Undefined id u1 []) by done.
    cbn [password_hash mfa_enabled u1]. rewrite Hpassword. done. }
  split; [done |]. split; [done |]. split; [| split].
  - rewrite (run_login_found s2 (email u) p Undefined id u2 []) by done.
    cbn [password_hash mfa_enabled u2]. rewrite Hpassword. done.
  - intros c Hnumeric Hc Hinvalid.
    rewrite (run_login_found s2 (email u) p (Val c) id u2 []) by done.
    cbn [password_hash mfa_enabled mfa_secret u2]. rewrite Hpassword.
    unfold truthy_string. rewrite decide_False by done. cbn [negb].
    rewrite Hinvalid. done.
  - intros Hnumeric.
    rewrite (run_login_found s2 (email u) p (Val code) id u2 []) by done.
    cbn [password_hash mfa_enabled mfa_secret u2]. rewrite Hpassword.
    unfold truthy_string. rewrite decide_False by done. cbn [negb].
    rewrite Hvalid. done.
Qed.

End AccountsFlow.
Ltac by_computation := apply (bool_decide_unpack _); vm_compute; exact I.

Lemma registered_user_can_log_in_witness :
  (carry_out
     (post_auth_login sample_digest sample_sign sample_totp accepts accepts accepts
        (Val "ada@example.com") (Val "secret1") Undefined)
     (carry_out
        (post_auth_register sample_digest sample_sign accepts accepts "a1b2"
           (Val "ada@example.com") (Val "secret1") Undefined)
        sample_site []).1.1 []).1.2
  = [{| rp_status := 200; rp_content := CToken "ada@example.com" |}].
Proof.
  destruct (registered_user_can_log_in sample_digest sample_sign sample_totp
              accepts accepts accepts accepts sample_site "a1b2" "ada@example.com"
              "secret1" Undefined) as (_ & _ & Hlogin & _);
    [reflexivity | reflexivity | reflexivity | reflexivity | reflexivity
    | by_computation | by_computation | by_computation |].
  rewrite Hlogin. reflexivity.
Defined.

Lemma login_refusal_does_not_tell_witness :
  carry_out
    (post_auth_login sample_digest sample_sign sample_totp accepts accepts accepts
       (Val "ada@example.com") (Val "guess") Undefined) site_with_ada []
  = (site_with_ada,
     [{| rp_status := 401; rp_content := CError "Invalid credentials" |}], Some tt).
Proof.
  apply (login_refusal_does_not_tell sample_digest sample_sign sample_totp
           accepts accepts accepts site_with_ada "ada@example.com" "guess" Undefined);
    try reflexivity.
  intros id u Hu He.
  change (({[1 := ada_row]} : gmap Z user) !! id = Some u) in Hu.
  apply lookup_singleton_Some in Hu as [<- <-].
  by_computation.
Defined.

Lemma mfa_switched_on_only_by_valid_code_witness :
  exists u,
    users site_with_ada !! 1 = Some u
    /\ email ada_row = email u /\ password_hash ada_row = password_hash u
    /\ role ada_row = role u /\ mfa_secret ada_row = mfa_secret u
    /\ (mfa_enabled ada_row = mfa_enabled u
        \/ (1 = tu_id ada /\ mfa_enabled u = false /\ mfa_enabled ada_row = true
            /\ exists t, Val "wrong" = Val t /\ t <> ""
                 /\ sample_totp (mfa_secret u) t = Resolved true)).
Proof.
  apply (proj2 (mfa_switched_on_only_by_valid_code sample_totp site_with_ada ada)
           (Val "wrong") 1 ada_row).
  vm_compute. reflexivity.
Defined.

Lemma mfa_setup_then_login_needs_code_witness :
  (carry_out
     (post_auth_login sample_digest sample_sign sample_totp accepts accepts accepts
        (Val "ada@example.com") (Val "secret1") Undefined)
     (carry_out (post_auth_verify_mfa sample_totp ada (Val "JBSWY3DP"))
        (carry_out (post_auth_setup_mfa ada "JBSWY3DP" "otpauth://totp/ada")
           site_with_ada []).1.1 []).1.1 []).1.2
  = [{| rp_status := 401; rp_content := CError "MFA code required" |}].
Proof.
  refine (proj1 (proj2 (proj2 (proj2 (proj2
           (mfa_setup_then_login_needs_code sample_digest sample_sign sample_totp
              accepts accepts accepts site_with_ada ada ada_row "JBSWY3DP"
              "otpauth://totp/ada" "JBSWY3DP" "secret1" _ _ _ _ _ _ _ _))))));
    try reflexivity; by_computation.
Defined.

(** ** The category cache of the import *)

Lemma pretty_N_char_not_colon (n : N) : pretty_N_char n <> colon.
Proof.
  destruct n as [| p]; [discriminate |].
  do 4 (try destruct p as [p | p |]); discriminate.
Qed.

Lemma pretty_N_go_no_colon (x : N) : forall s,
  colon ∉ chars s -> colon ∉ chars (pretty_N_go x s).
Proof.
  induction (N.lt_wf_0 x) as [x _ IH]. intros s Hs.
  destruct (decide (0 < x)%N) as [Hpos | Hzero].
  - rewrite pretty_N_go_step by done. apply IH.
    + by apply N.div_lt.
    + simpl. intros [Heq | Hin]%elem_of_cons; [| done].
      by apply (pretty_N_char_not_colon (x `mod` 10)%N).
  - assert (x = 0%N) as -> by lia. by rewrite pretty_N_go_0.
Qed.

Lemma pretty_Z_no_colon (z : Z) : colon ∉ chars (pretty z).
Proof.
  assert (forall p : positive, colon ∉ chars (pretty p)) as Hpos.
  { intros p. unfold pretty, pretty_positive, pretty, pretty_N.
    destruct (decide (N.pos p = 0%N)); [done |].
    apply pretty_N_go_no_colon. simpl. apply not_elem_of_nil. }
  destruct z as [| p | p]; unfold pretty, pretty_Z.
  - simpl. intros [Heq | Hin]%elem_of_cons; [discriminate | by apply elem_of_nil in Hin].
  - apply Hpos.
  - rewrite chars_append. simpl.
    intros [Heq | Hin]%elem_of_cons; [discriminate | by apply (Hpos p)].
Qed.

Lemma append_first_separator (c : Ascii.ascii) (a1 a2 b1 b2 : string) :
  c ∉ chars a1 -> c ∉ chars a2 ->
  a1 +:+ String c b1 = a2 +:+ String c b2 -> a1 = a2 /\ b1 = b2.
Proof.
  revert a2. induction a1 as [| x a1 IH]; intros [| y a2] H1 H2 Heq.
  - by injection Heq as ->.
  - exfalso. rewrite append_cons in Heq. injection Heq as <- _.
    apply H2. simpl. by left.
  - exfalso. rewrite append_cons in Heq. injection Heq as -> _.
    apply H1. simpl. by left.
  - rewrite !append_cons in Heq. injection Heq as -> Heq.
    destruct (IH a2) as [-> ->]; [| | done | done].
    + intros Hin. apply H1. simpl. by right.
    + intros Hin. apply H2. simpl. by right.
Qed.

Lemma category_key_inj (n1 n2 : string) (p1 p2 : option Z) :
  colon ∉ chars n1 -> colon ∉ chars n2 -> p1 <> Some 0 -> p2 <> Some 0 ->
  category_key n1 p1 = category_key n2 p2 -> n1 = n2 /\ p1 = p2.
Proof.
  intros H1 H2 Hp1 Hp2. unfold category_key, truthy_Z.
  destruct p1 as [p1 |], p2 as [p2 |];
    repeat match goal with
           | |- context [(?z =? 0)] => destruct (Z.eqb_spec z 0) as [-> | ?]; [done |]
           end; simpl.
  - intros Heq. apply append_first_separator in Heq as [Hp ->];
      try apply pretty_Z_no_colon.
    split; [done |]. f_equal. by apply (inj pretty).
  - intros Heq. exfalso. apply H2. rewrite <- Heq, chars_append.
    apply elem_of_app. right. simpl. by left.
  - intros Heq. exfalso. apply H1. rewrite Heq, chars_append.
    apply elem_of_app. right. simpl. by left.
  - by intros ->.
Qed.

Lemma select_category_ids_elem (t : gmap Z category) (name : string) (parentId : option Z)
    (id : Z) :
  id ∈ select_category_ids t name parentId
  <-> t !! id = Some {| cat_name := name; cat_parent_id := parentId |}.
Proof.
  unfold select_category_ids. rewrite list_elem_of_fmap. split.
  - intros ([k c] & -> & [[Hn Hp] Hin%elem_of_map_to_list]%list_elem_of_filter).
    simpl in *. destruct c. simpl in *. by subst.
  - intros Hid. exists (id, {| cat_name := name; cat_parent_id := parentId |}).
    split; [done |]. apply list_elem_of_filter. split; [done |].
    by apply elem_of_map_to_list.
Qed.

Lemma getOrCreateCategory_cached (name : string) (parentId : option Z) (st : importer)
    (id : Z) :
  categoryMap st !! category_key name parentId = Some id ->
  getOrCreateCategory name parentId st = (Some id, st).
Proof. intros Hc. unfold getOrCreateCategory. by rewrite Hc. Qed.

Lemma cache_sound_remember (st st' : importer) (name : string) (parentId : option Z)
    (id : Z) :
  cache_sound st ->
  colon ∉ chars name -> parentId <> Some 0 ->
  categoryMap st' = <[category_key name parentId := id]> (categoryMap st) ->
  pricebook_categories st' !! id = Some {| cat_name := name; cat_parent_id := parentId |} ->
  (forall k c, pricebook_categories st !! k = Some c ->
               pricebook_categories st' !! k = Some c) ->
  cache_sound st'.
Proof.
  intros Hsound Hname Hparent Hmap Hrow Hkept key id0 Hkey. rewrite Hmap in Hkey.
  destruct (decide (key = category_key name parentId)) as [-> | Hne].
  - rewrite lookup_insert_eq in Hkey. injection Hkey as <-. by exists name, parentId.
  - rewrite lookup_insert_ne in Hkey by done.
    destruct (Hsound key id0 Hkey) as (n & p & -> & Hn & Hp & Hr).
    exists n, p. repeat (split; [done |]). by apply Hkept.
Qed.

(** X30. [getOrCreateCategory] of the import finds or creates the category
    once.  A call that has returned an id returns the same id when repeated,
    without a statement.  With a healthy database, a name without a colon,
    a parent that is [null] or an existing category other than 0, and a cache
    that is sound, the call returns a category that has exactly that name
    and parent, leaves the cache sound, and either leaves the table as it
    was or, when no category had that name and parent, adds that one row
    under the next id.  A colon in a name breaks this: after the top-level
    category "5:Pipes" has been looked up, the lookup of "Pipes" under
    category 5 finds its key in the cache and returns the top-level
    "5:Pipes". *)
Theorem getOrCreateCategory_finds_or_creates_once :
  (forall name parentId st id st',
     getOrCreateCategory name parentId st = (Some id, st') ->
     getOrCreateCategory name parentId st' = (Some id, st'))
  /\ (forall name parentId st,
        import_faults st = [] ->
        cache_sound st ->
        colon ∉ chars name ->
        parentId <> Some 0 ->
        (forall p, parentId = Some p -> is_Some (pricebook_categories st !! p)) ->
        pricebook_categories st !! pricebook_categories_id_seq st = None ->
        let found := {| cat_name := name; cat_parent_id := parentId |} in
        exists id st',
          getOrCreateCategory name parentId st = (Some id, st')
          /\ pricebook_categories st' !! id = Some found
          /\ cache_sound st'
          /\ (pricebook_categories st' = pricebook_categories st
              \/ ((forall k, pricebook_categories st !! k <> Some found)
                  /\ pricebook_categories st'
                     = <[pricebook_categories_id_seq st := found]>
                         (pricebook_categories st))))
  /\ (let st1 := (getOrCreateCategory "5:Pipes" None colliding_import).2 in
      exists id st',
        getOrCreateCategory "Pipes" (Some 5) st1 = (Some id, st')
        /\ pricebook_categories st' !! id
           = Some {| cat_name := "5:Pipes"; cat_parent_id := None |}).
Proof.
  split; [| split].
  - intros name parentId st id st'. unfold getOrCreateCategory at 1.
    destruct (categoryMap st !! category_key name parentId) as [id0 |] eqn:Hc.
    { intros [= <- <-]. by apply getOrCreateCategory_cached. }
    destruct (next_fault st) as [[|] st1]; [done |].
    destruct (select_category_ids (pricebook_categories st1) name parentId) as [| id1 ids].
    + destruct (next_fault st1) as [[|] st2]; [done |].
      destruct (insert_category st2 name parentId) as [[id3 |] st3]; [| done].
      intros [= <- <-]. apply getOrCreateCategory_cached. simpl.
      apply lookup_insert_eq.
    + intros [= <- <-]. apply getOrCreateCategory_cached. simpl.
      apply lookup_insert_eq.
  - intros name parentId st Hf Hsound Hname Hparent Hexists Hfresh found.
    unfold getOrCreateCategory.
    destruct (categoryMap st !! category_key name parentId) as [id0 |] eqn:Hc.
    { destruct (Hsound _ _ Hc) as (n & p & Hkey & Hn & Hp & Hrow).
      apply category_key_inj in Hkey as [<- <-]; try done.
      exists id0, st. repeat (split; [done |]). by left. }
    unfold next_fault at 1. rewrite Hf. cbn [tail].
    cbn [pricebook_categories].
    destruct (select_category_ids (pricebook_categories st) name parentId)
      as [| id1 ids] eqn:Hsel.
    + assert (forall k, pricebook_categories st !! k <> Some found) as Hnone.
      { intros k Hk. apply select_category_ids_elem in Hk. rewrite Hsel in Hk.
        by apply elem_of_nil in Hk. }
      unfold next_fault. cbn [import_faults tail]. unfold insert_category.
      cbn [pricebook_categories pricebook_categories_id_seq categoryMap import_faults
           import_console].
      assert (match parentId with
              | Some p => bool_decide (is_Some (pricebook_categories st !! p))
              | None => true
              end = true) as ->.
      { destruct parentId as [p |]; [| done]. apply bool_decide_eq_true_2. by apply Hexists. }
      eexists _, _. split; [reflexivity |]. cbn [pricebook_categories remember_category].
      split; [apply lookup_insert_eq |]. split; [| by right].
      apply (cache_sound_remember st _ name parentId (pricebook_categories_id_seq st));
        try done.
      * simpl. apply lookup_insert_eq.
      * intros k c Hk. simpl. rewrite lookup_insert_ne; [done |]. congruence.
    + assert (pricebook_categories st !! id1 = Some found) as Hrow.
      { apply select_category_ids_elem. rewrite Hsel. by left. }
      eexists _, _. split; [reflexivity |]. cbn [pricebook_categories remember_category].
      split; [done |]. split; [| by left].
      by apply (cache_sound_remember st _ name parentId id1).
  - vm_compute. eexists _, _. split; reflexivity.
Qed.

Lemma getOrCreateCategory_finds_or_creates_once_witness :
  exists id st',
    getOrCreateCategory "Pipes" (Some 5) colliding_import = (Some id, st')
    /\ pricebook_categories st' !! id
       = Some {| cat_name := "Pipes"; cat_parent_id := Some 5 |}.
Proof.
  destruct (proj1 (proj2 getOrCreateCategory_finds_or_creates_once) "Pipes" (Some 5)
              colliding_import) as (id & st' & Hrun & Hrow & _).
  - reflexivity.
  - intros key id Hkey. change ((∅ : gmap string Z) !! key = Some id) in Hkey.
    by rewrite lookup_empty in Hkey.
  - by_computation.
  - discriminate.
  - intros p [= <-]. by_computation.
  - reflexivity.
  - by exists id, st'.
Defined.
